(** * GoDB: a shallow embedding of the storage and execution core

    The development follows the Go sources: tuples and their wire format
    (tuple.go), row pages (heap_page.go), column pages
    (column_store_page.go), the buffer pool (buffer_pool.go), the row file
    (heap_file.go), the SUM and AVG aggregation states (agg_state.go) and
    the Insert / Delete, Limit and Project operators (insert_op.go,
    delete_op.go, limit_op.go, project_op.go).

    Conventions.
    - Go [int], [int32] and [int64] are [Z]; wrap-around is written out
      where the code does arithmetic on them.
    - A [bytes.Buffer] is a [list byte]: writing appends, reading consumes
      from the front.
    - A Go [string] is a [string] (a sequence of bytes).
    - Go maps are [gmap]s, Go maps used as sets ([map[T]struct{}]) are
      [gset]s.  The order in which [range] visits a map is unspecified in
      Go; it is a parameter of the model (class [RangeOrder]).
    - A call returns, panics or blocks; functions that can panic or
      block return an [outcome]. *)

From Stdlib Require Import ZArith Lia List Strings.Byte Strings.String Strings.Ascii.
From Stdlib Require Import DecimalString.
From Stdlib Require OrderedTypeEx DecimalPos.
From stdpp Require Import base option gmap sets list strings.

Local Open Scope string_scope.
Local Open Scope list_scope.
Local Open Scope Z_scope.

(** ** Constants of types.go *)

(** Modelled from the spec: types.go is not among the sources; the page
    size is the spec's PAGE_SIZE (4096). *)
Definition PageSize : Z := 4096.

(** Modelled from the spec: types.go is not among the sources; the width
    of a string field is the spec's STRING_LEN (32). *)
Definition StringLength : Z := 32.

(** ** Errors and outcomes *)

(** Modelled from the spec: the error codes of types.go that the sources
    mention. *)
Inductive GoDBErrorCode :=
  | TupleNotFoundError
  | PageFullError
  | IncompatibleTypesError
  | TypeMismatchError
  | MalformedDataError
  | BufferPoolFullError
  | AmbiguousNameError
  | DeadlockError
  | IllegalTransactionError.

(** A Go [error] value: a [GoDBError], an [errors.New] / [fmt.Errorf]
    message, or one of the two errors [binary.Read] reports on a short
    buffer. *)
Inductive error :=
  | GoDBError (code : GoDBErrorCode) (errString : string)
  | errors_New (msg : string)
  | io_EOF
  | io_ErrUnexpectedEOF.

(** A call returns a value, panics (a Go run-time panic), or blocks: it
    sleeps in the retry loop of [BufferPool.GetPage] and does not return
    unless another transaction releases the lock it waits for. *)
Inductive outcome (A : Type) :=
  | Returns (a : A)
  | Panics (msg : string)
  | Blocks.
Arguments Returns {A} a.
Arguments Panics {A} msg.
Arguments Blocks {A}.

Definition obind {A B} (m : outcome A) (k : A -> outcome B) : outcome B :=
  match m with
  | Returns a => k a
  | Panics msg => Panics msg
  | Blocks => Blocks
  end.

Notation "'do' x <- m ; k" := (obind m (fun x => k))
  (at level 10, x pattern, m at level 100, k at level 200).

(** A value or an error: the Go idiom [(v, err)]. *)
Inductive result (A : Type) :=
  | Ok (a : A)
  | Err (e : error).
Arguments Ok {A} a.
Arguments Err {A} e.

(** ** Fixed-width integers *)

Definition wrap_int64 (z : Z) : Z := (z + 2^63) mod 2^64 - 2^63.
Definition wrap_int32 (z : Z) : Z := (z + 2^31) mod 2^32 - 2^31.

Definition in_int64 (z : Z) : Prop := - 2^63 <= z < 2^63.
Definition in_int32 (z : Z) : Prop := - 2^31 <= z < 2^31.

(** Go's [/] on [int64]: truncated division; dividing by zero panics; the
    one overflowing quotient wraps. *)
Definition int64_div (a b : Z) : outcome Z :=
  if b =? 0 then Panics "runtime error: integer divide by zero"
  else Returns (wrap_int64 (Z.quot a b)).

(** ** Bytes and little-endian encoding (encoding/binary) *)

#[global] Instance byte_eq_decision : EqDecision byte := Byte.byte_eq_dec.

Definition byte_of_Z (z : Z) : byte :=
  default "000"%byte (Byte.of_N (Z.to_N (Z.land z 255))).

Definition Z_of_byte (b : byte) : Z := Z.of_N (Byte.to_N b).

(** [binary.Write(buf, binary.LittleEndian, v)] for an [n]-byte integer:
    byte [i] is [byte(v >> (8*i))]. *)
Fixpoint le_bytes (n : nat) (z : Z) : list byte :=
  match n with
  | O => []
  | S n' => byte_of_Z z :: le_bytes n' (Z.shiftr z 8)
  end.

(** The unsigned value of a little-endian byte sequence. *)
Fixpoint le_value (bs : list byte) : Z :=
  match bs with
  | [] => 0
  | b :: bs' => Z_of_byte b + Z.shiftl (le_value bs') 8
  end.

Definition int32_of_bytes (bs : list byte) : Z := wrap_int32 (le_value bs).
Definition int64_of_bytes (bs : list byte) : Z := wrap_int64 (le_value bs).

Definition zeros (n : Z) : list byte := replicate (Z.to_nat n) "000"%byte.

(** [binary.Read] of [n] bytes from a [bytes.Buffer]: [io.EOF] on an empty
    buffer, [io.ErrUnexpectedEOF] on a short one. *)
Definition buf_read (n : Z) (buf : list byte) : result (list byte * list byte) :=
  if bool_decide (buf = []) then Err io_EOF
  else if Z.of_nat (length buf) <? n then Err io_ErrUnexpectedEOF
  else Ok (take (Z.to_nat n) buf, drop (Z.to_nat n) buf).

(** [writeBinary] of heap_page.go, at an [int32]. *)
Definition writeBinary (buf : list byte) (data : Z) : list byte :=
  buf ++ le_bytes 4 data.

(** [padBuffer] of heap_page.go. *)
Definition padBuffer (buf : list byte) (targetSize : Z) : list byte :=
  if Z.of_nat (length buf) <? targetSize
  then buf ++ zeros (targetSize - Z.of_nat (length buf))
  else buf.

(** ** Tuples (tuple.go) *)

Inductive DBType := IntType | StringType | UnknownType.

Record FieldType := {
  Fname : string;
  TableQualifier : string;
  Ftype : DBType
}.

(** [TupleDesc]: the slice of field types. *)
Record TupleDesc := { FieldTypes : list FieldType }.

(** A [DBValue] interface value: an [IntField], a [StringField], or nil. *)
Inductive DBValue :=
  | IntField (Value : Z)
  | StringField (Value : string)
  | NilValue.

(** RecordID of heap_file.go, the record id of column files. *)
Record RecordID := { pageNo : Z; slotNo : Z }.

(** [recordID] is the empty interface.  The values the sources store in
    it: nil, a string (row pages), an int (column pages), a [RecordID]
    (column files). *)
Inductive recordID :=
  | RidNil
  | RidString (s : string)
  | RidInt (i : Z)
  | RidRecord (r : RecordID).

Record Tuple := {
  Desc : TupleDesc;
  Fields : list DBValue;
  Rid : recordID
}.

#[global] Instance DBType_eq_dec : EqDecision DBType.
Proof. solve_decision. Defined.
#[global] Instance FieldType_eq_dec : EqDecision FieldType.
Proof. solve_decision. Defined.
#[global] Instance DBValue_eq_dec : EqDecision DBValue.
Proof. solve_decision. Defined.

(** [TupleDesc.equals]: same length, and names and types agree. *)
Fixpoint TupleDesc_equals_fields (d1 d2 : list FieldType) : bool :=
  match d1, d2 with
  | [], [] => true
  | f1 :: d1', f2 :: d2' =>
      if negb (bool_decide (Fname f1 = Fname f2)) then false
      else if negb (bool_decide (Ftype f1 = Ftype f2)) then false
      else TupleDesc_equals_fields d1' d2'
  | _, _ => false
  end.

Definition TupleDesc_equals (d1 d2 : TupleDesc) : bool :=
  TupleDesc_equals_fields (FieldTypes d1) (FieldTypes d2).

(** [writeStringField]: the bytes of the string copied into a zeroed
    array of [StringLength] bytes ([copy] truncates). *)
Definition writeStringField (b : list byte) (strField : string) : list byte :=
  let bytes := take (Z.to_nat StringLength) (list_byte_of_string strField) in
  b ++ bytes ++ zeros (StringLength - Z.of_nat (length bytes)).

(** [writeIntField]. *)
Definition writeIntField (b : list byte) (intField : Z) : list byte :=
  b ++ le_bytes 8 intField.

(** [Tuple.writeTo]: the fields in order; a field that is neither a
    string nor an int is an error. *)
Fixpoint writeTo_fields (fields : list DBValue) (b : list byte) : result (list byte) :=
  match fields with
  | [] => Ok b
  | StringField v :: rest => writeTo_fields rest (writeStringField b v)
  | IntField v :: rest => writeTo_fields rest (writeIntField b v)
  | NilValue :: _ => Err (errors_New "unsupported field type")
  end.

Definition Tuple_writeTo (t : Tuple) (b : list byte) : result (list byte) :=
  writeTo_fields (Fields t) b.

(** [strings.TrimRight(s, "\x00")] on the bytes of the string. *)
Fixpoint trim_right_zeros (bs : list byte) : list byte :=
  match bs with
  | [] => []
  | b :: bs' =>
      match trim_right_zeros bs' with
      | [] => if bool_decide (b = "000"%byte) then [] else [b]
      | r => b :: r
      end
  end.

(** [readStringField]. *)
Definition readStringField (b : list byte) : result (DBValue * list byte) :=
  match buf_read StringLength b with
  | Err e => Err e
  | Ok (make_result, b') =>
      Ok (StringField (string_of_list_byte (trim_right_zeros make_result)), b')
  end.

(** [readIntField]. *)
Definition readIntField (b : list byte) : result (DBValue * list byte) :=
  match buf_read 8 b with
  | Err e => Err e
  | Ok (bs, b') => Ok (IntField (int64_of_bytes bs), b')
  end.

(** [readTupleFrom]: type 1 ([StringType]) reads a string, every other
    type reads an int. *)
Fixpoint readTupleFrom_fields (descs : list FieldType) (b : list byte)
  : result (list DBValue * list byte) :=
  match descs with
  | [] => Ok ([], b)
  | fieldDesc :: rest =>
      let rd := match Ftype fieldDesc with
                | StringType => readStringField b
                | _ => readIntField b
                end in
      match rd with
      | Err e => Err e
      | Ok (v, b') =>
          match readTupleFrom_fields rest b' with
          | Err e => Err e
          | Ok (vs, b'') => Ok (v :: vs, b'')
          end
      end
  end.

Definition readTupleFrom (b : list byte) (desc : TupleDesc) : result (Tuple * list byte) :=
  match readTupleFrom_fields (FieldTypes desc) b with
  | Err e => Err e
  | Ok (vs, b') => Ok ({| Desc := desc; Fields := vs; Rid := RidNil |}, b')
  end.

(** [Tuple.equals], on [*Tuple] (nil is [None]). *)
Definition Tuple_equals (t1 t2 : option Tuple) : bool :=
  match t1, t2 with
  | None, None => true
  | None, Some _ | Some _, None => false
  | Some t1, Some t2 =>
      if negb (length (Fields t1) =? length (Fields t2))%nat then false
      else if negb (TupleDesc_equals (Desc t1) (Desc t2)) then false
      else bool_decide (Fields t1 = Fields t2)
  end.

(** [Tuple.project]: for each requested field the first descriptor entry
    with the same name and qualifier, else the first with the same name. *)
Fixpoint find_index {A} (p : A -> bool) (l : list A) (i : nat) : option nat :=
  match l with
  | [] => None
  | x :: l' => if p x then Some i else find_index p l' (S i)
  end.

Definition project_match (t : Tuple) (field : FieldType) : option nat :=
  match find_index (fun descField =>
          bool_decide (Fname field = Fname descField) &&
          bool_decide (TableQualifier field = TableQualifier descField))
        (FieldTypes (Desc t)) 0%nat with
  | Some i => Some i
  | None =>
      find_index (fun descField => bool_decide (Fname field = Fname descField))
        (FieldTypes (Desc t)) 0%nat
  end.

(** The result is [Returns (Ok t')], [Returns (Err _)] when a field is
    not found, or a panic when the tuple has fewer values than its
    descriptor has fields ([t.Fields[matchedIndex]] out of range). *)
Fixpoint project_fields (t : Tuple) (fields : list FieldType)
    (accF : list DBValue) (accD : list FieldType) : outcome (result Tuple) :=
  match fields with
  | [] => Returns (Ok {| Desc := {| FieldTypes := accD |}; Fields := accF; Rid := RidNil |})
  | field :: rest =>
      match project_match t field with
      | None => Returns (Err (errors_New "field not found"))
      | Some i =>
          match Fields t !! i, FieldTypes (Desc t) !! i with
          | Some v, Some d => project_fields t rest (accF ++ [v]) (accD ++ [d])
          | _, _ => Panics "runtime error: index out of range"
          end
      end
  end.

Definition Tuple_project (t : Tuple) (fields : list FieldType) : outcome (result Tuple) :=
  project_fields t fields [] [].

(** ** Strings of record ids: fmt.Sprintf, strings.Split, strconv.Atoi *)

(** [fmt.Sprintf("%d", z)]. *)
Definition Sprintf_d (z : Z) : string := DecimalString.NilZero.string_of_int (Z.to_int z).

(** [fmt.Sprintf("%d-%d", a, b)]. *)
Definition Sprintf_d_d (a b : Z) : string := Sprintf_d a +:+ "-" +:+ Sprintf_d b.

(** [strings.Split(s, "-")]. *)
Fixpoint strings_Split_dash (s : string) : list string :=
  match s with
  | EmptyString => [EmptyString]
  | String c s' =>
      let r := strings_Split_dash s' in
      if Ascii.eqb c "-"%char then EmptyString :: r
      else match r with
           | [] => [String c EmptyString]
           | h :: t => String c h :: t
           end
  end.

Definition digit_of_ascii (c : ascii) : option Z :=
  let n := Z.of_N (N_of_ascii c) in
  if (48 <=? n) && (n <=? 57) then Some (n - 48) else None.

Fixpoint parse_digits (s : string) (acc : Z) : option Z :=
  match s with
  | EmptyString => Some acc
  | String c s' =>
      match digit_of_ascii c with
      | None => None
      | Some d => parse_digits s' (10 * acc + d)
      end
  end.

(** [strconv.Atoi]: an optional sign and at least one decimal digit, in
    the range of [int]. *)
Definition strconv_Atoi (s : string) : result Z :=
  let '(neg, body) :=
    match s with
    | String c r =>
        if Ascii.eqb c "-"%char then (true, r)
        else if Ascii.eqb c "+"%char then (false, r)
        else (false, s)
    | EmptyString => (false, s)
    end in
  match body with
  | EmptyString => Err (errors_New "strconv.Atoi: invalid syntax")
  | _ =>
      match parse_digits body 0 with
      | None => Err (errors_New "strconv.Atoi: invalid syntax")
      | Some v =>
          let v' := if neg then - v else v in
          if (- 2^63 <=? v') && (v' <? 2^63) then Ok v'
          else Err (errors_New "strconv.Atoi: value out of range")
      end
  end.

(** ** Row pages (heap_page.go) *)

(** [p == nil] on a pointer. *)
Definition is_nil {A} (p : option A) : bool :=
  match p with
  | None => true
  | Some _ => false
  end.

(** [hp_file] stands for the [*HeapFile] pointer: the backing file of the
    owning file.  [hp_tuples] is the slice of [*Tuple]; nil is [None]. *)
Record heapPage := {
  hp_Dirty : bool;
  hp_pageNumber : Z;
  hp_numSlots : Z;
  hp_numUsedSlots : Z;
  hp_desc : TupleDesc;
  hp_file : string;
  hp_tuples : list (option Tuple)
}.

(** The loop of [newHeapPage] that sums the field widths. *)
Fixpoint perTupleSize_loop (fields : list FieldType) (perTupleSize : Z) : result Z :=
  match fields with
  | [] => Ok perTupleSize
  | curr_field :: rest =>
      match Ftype curr_field with
      | IntType => perTupleSize_loop rest (wrap_int32 (perTupleSize + 8))
      | StringType => perTupleSize_loop rest (wrap_int32 (perTupleSize + wrap_int32 StringLength))
      | UnknownType => Err (errors_New "invalid")
      end
  end.

(** Go's [/] on [int32]. *)
Definition int32_div (a b : Z) : outcome Z :=
  if b =? 0 then Panics "runtime error: integer divide by zero"
  else Returns (wrap_int32 (Z.quot a b)).

(** [make([]*Tuple, n)]. *)
Definition make_tuples (n : Z) : outcome (list (option Tuple)) :=
  if n <? 0 then Panics "runtime error: makeslice: len out of range"
  else Returns (replicate (Z.to_nat n) None).

(** [newHeapPage]. *)
Definition newHeapPage (desc : TupleDesc) (pageNo : Z) (f : string)
  : outcome (result heapPage) :=
  match perTupleSize_loop (FieldTypes desc) 0 with
  | Err e => Returns (Err e)
  | Ok perTupleSize =>
      do numSlots <- int32_div (wrap_int32 (PageSize - 8)) perTupleSize;
      do tuples <- make_tuples numSlots;
      Returns (Ok {| hp_Dirty := false;
                     hp_pageNumber := pageNo;
                     hp_numSlots := numSlots;
                     hp_numUsedSlots := 0;
                     hp_desc := desc;
                     hp_file := f;
                     hp_tuples := tuples |})
  end.

Definition heapPage_getNumSlots (h : heapPage) : Z := hp_numSlots h.

(** [heapPage.insertTuple]: the first nil slot.  Returns the page and the
    record id (which the code also stores in the caller's tuple). *)
Definition heapPage_insertTuple (h : heapPage) (t : Tuple) : heapPage * result recordID :=
  match find_index is_nil (hp_tuples h) 0%nat with
  | Some slot =>
      let rid := RidString (Sprintf_d_d (hp_pageNumber h) (Z.of_nat slot)) in
      ({| hp_Dirty := true;
          hp_pageNumber := hp_pageNumber h;
          hp_numSlots := hp_numSlots h;
          hp_numUsedSlots := wrap_int32 (hp_numUsedSlots h + 1);
          hp_desc := hp_desc h;
          hp_file := hp_file h;
          hp_tuples := <[slot := Some {| Desc := hp_desc h; Fields := Fields t; Rid := rid |}]>
                         (hp_tuples h) |},
       Ok rid)
  | None => (h, Err (errors_New "no available slots for tuple insertion"))
  end.

(** [heapPage.deleteTuple]. *)
Definition heapPage_deleteTuple (h : heapPage) (rid : recordID) : heapPage * option error :=
  match rid with
  | RidString str =>
      match strings_Split_dash str with
      | [_; s1] =>
          match strconv_Atoi s1 with
          | Err _ => (h, Some (errors_New "invalid slot number"))
          | Ok slot =>
              if (slot <? 0) || (slot >=? Z.of_nat (length (hp_tuples h)))
                 || is_nil (mjoin (hp_tuples h !! Z.to_nat slot))
              then (h, Some (errors_New "invalid slot or tuple does not exist"))
              else
                ({| hp_Dirty := true;
                    hp_pageNumber := hp_pageNumber h;
                    hp_numSlots := hp_numSlots h;
                    hp_numUsedSlots := wrap_int32 (hp_numUsedSlots h - 1);
                    hp_desc := hp_desc h;
                    hp_file := hp_file h;
                    hp_tuples := <[Z.to_nat slot := None]> (hp_tuples h) |},
                 None)
          end
      | _ => (h, Some (errors_New "invalid record ID format"))
      end
  | _ => (h, Some (errors_New "invalid record ID type"))
  end.

Definition heapPage_isDirty (h : heapPage) : bool := hp_Dirty h.

Definition heapPage_setDirty (h : heapPage) (dirty : bool) : heapPage :=
  {| hp_Dirty := dirty;
     hp_pageNumber := hp_pageNumber h;
     hp_numSlots := hp_numSlots h;
     hp_numUsedSlots := hp_numUsedSlots h;
     hp_desc := hp_desc h;
     hp_file := hp_file h;
     hp_tuples := hp_tuples h |}.

(** The loop of both [toBuffer] methods: the non-nil tuples in slot order. *)
Fixpoint write_tuples (tuples : list (option Tuple)) (buf : list byte) : result (list byte) :=
  match tuples with
  | [] => Ok buf
  | None :: rest => write_tuples rest buf
  | Some tuple :: rest =>
      match Tuple_writeTo tuple buf with
      | Err e => Err e
      | Ok buf' => write_tuples rest buf'
      end
  end.

(** [heapPage.toBuffer]. *)
Definition heapPage_toBuffer (h : heapPage) : result (list byte) :=
  let buf := writeBinary [] (hp_numSlots h) in
  let buf := writeBinary buf (hp_numUsedSlots h) in
  match write_tuples (hp_tuples h) buf with
  | Err e => Err e
  | Ok buf => Ok (padBuffer buf PageSize)
  end.

(** The loop of [heapPage.initFromBuffer], [n] iterations from index
    [i]: a failed read leaves the loop ([break]); storing beyond the slice
    panics. *)
Fixpoint heapPage_init_loop (n : nat) (i : nat) (pageNumber : Z)
    (desc : TupleDesc) (buf : list byte) (tuples : list (option Tuple))
  : outcome (list (option Tuple)) :=
  match n with
  | O => Returns tuples
  | S n' =>
      match readTupleFrom buf desc with
      | Err _ => Returns tuples
      | Ok (tuple, buf') =>
          let tuple := {| Desc := desc; Fields := Fields tuple;
                          Rid := RidString (Sprintf_d_d pageNumber (Z.of_nat i)) |} in
          if (i <? length tuples)%nat then
            heapPage_init_loop n' (S i) pageNumber desc buf' (<[i := Some tuple]> tuples)
          else Panics "runtime error: index out of range"
      end
  end.

(** [heapPage.initFromBuffer].  The error returned after the loop is the
    outer [err], which is nil once both header reads succeeded. *)
Definition heapPage_initFromBuffer (h : heapPage) (buf : list byte)
  : outcome (heapPage * option error) :=
  match buf_read 4 buf with
  | Err e => Returns (h, Some e)
  | Ok (bs1, buf1) =>
      let numSlots := int32_of_bytes bs1 in
      let h1 := {| hp_Dirty := hp_Dirty h; hp_pageNumber := hp_pageNumber h;
                   hp_numSlots := numSlots; hp_numUsedSlots := hp_numUsedSlots h;
                   hp_desc := hp_desc h; hp_file := hp_file h;
                   hp_tuples := hp_tuples h |} in
      match buf_read 4 buf1 with
      | Err e => Returns (h1, Some e)
      | Ok (bs2, buf2) =>
          let numUsedSlots := int32_of_bytes bs2 in
          do tuples0 <- make_tuples numSlots;
          do tuples <- heapPage_init_loop (Z.to_nat numUsedSlots) 0
                         (hp_pageNumber h) (hp_desc h) buf2 tuples0;
          Returns ({| hp_Dirty := hp_Dirty h; hp_pageNumber := hp_pageNumber h;
                      hp_numSlots := numSlots; hp_numUsedSlots := numUsedSlots;
                      hp_desc := hp_desc h; hp_file := hp_file h;
                      hp_tuples := tuples |}, None)
      end
  end.

(** The tuples a page stores, in slot order ([tupleIter]). *)
Definition stored (tuples : list (option Tuple)) : list Tuple :=
  omap id tuples.

(** ** Column pages (column_store_page.go) *)

(** [cp_colFile] stands for the pointer to the owning column file: its
    map from column to backing file. *)
Record columnStorePage := {
  cp_Dirty : bool;
  cp_pageNumber : Z;
  cp_colNumber : Z;
  cp_numSlots : Z;
  cp_numUsedSlots : Z;
  cp_desc : TupleDesc;
  cp_colFile : gmap Z string;
  cp_tuples : list (option Tuple)
}.

Definition columnStorePage_getNumSlots (c : columnStorePage) : Z := cp_numSlots c.

(** [newColumnPage].  A column of unknown type leaves [tupleSize] zero,
    and the division panics. *)
Definition newColumnPage (desc : TupleDesc) (colNumber pageNumber : Z)
    (f : gmap Z string) : outcome columnStorePage :=
  if colNumber <? 0 then Panics "runtime error: index out of range" else
  match FieldTypes desc !! Z.to_nat colNumber with
  | None => Panics "runtime error: index out of range"
  | Some field =>
      let tupleSize :=
        match Ftype field with
        | IntType => 8
        | StringType => wrap_int32 (1 * wrap_int32 StringLength)
        | UnknownType => 0
        end in
      let headerSize := 8 in
      do numSlots <- int32_div (wrap_int32 (wrap_int32 PageSize - headerSize)) tupleSize;
      do tuples <- make_tuples numSlots;
      Returns {| cp_Dirty := false;
                 cp_pageNumber := wrap_int32 pageNumber;
                 cp_colNumber := wrap_int32 colNumber;
                 cp_numSlots := numSlots;
                 cp_numUsedSlots := 0;
                 cp_desc := {| FieldTypes := [field] |};
                 cp_colFile := f;
                 cp_tuples := tuples |}
  end.

(** [columnStorePage.insertTuple]: the projection of the tuple on the
    page's column goes to the first nil slot.  The error of [project] is
    dropped, so a failed projection stores nil. *)
Definition columnStorePage_insertTuple (c : columnStorePage) (t : Tuple)
  : outcome (columnStorePage * result recordID) :=
  if cp_numUsedSlots c >=? cp_numSlots c
  then Returns (c, Err (errors_New "page is full"))
  else
    do pr <- Tuple_project t (FieldTypes (cp_desc c));
    let toInsert := match pr with Ok t' => Some t' | Err _ => None end in
    match find_index is_nil (cp_tuples c) 0%nat with
    | Some i =>
        Returns ({| cp_Dirty := true;
                    cp_pageNumber := cp_pageNumber c;
                    cp_colNumber := cp_colNumber c;
                    cp_numSlots := cp_numSlots c;
                    cp_numUsedSlots := wrap_int32 (cp_numUsedSlots c + 1);
                    cp_desc := cp_desc c;
                    cp_colFile := cp_colFile c;
                    cp_tuples := <[i := toInsert]> (cp_tuples c) |},
                 Ok (RidInt (Z.of_nat i)))
    | None => Returns (c, Err (errors_New "no available slot found"))
    end.

(** [columnStorePage.deleteTuple]. *)
Definition columnStorePage_deleteTuple (c : columnStorePage) (rid : recordID)
  : outcome (columnStorePage * option error) :=
  match rid with
  | RidInt index =>
      if (index <? 0) || (index >=? cp_numSlots c)
      then Returns (c, Some (errors_New "tuple to delete does not exist in page"))
      else
        match cp_tuples c !! Z.to_nat index with
        | None => Panics "runtime error: index out of range"
        | Some None => Returns (c, Some (errors_New "tuple to delete does not exist in page"))
        | Some (Some _) =>
            Returns ({| cp_Dirty := true;
                        cp_pageNumber := cp_pageNumber c;
                        cp_colNumber := cp_colNumber c;
                        cp_numSlots := cp_numSlots c;
                        cp_numUsedSlots := wrap_int32 (cp_numUsedSlots c - 1);
                        cp_desc := cp_desc c;
                        cp_colFile := cp_colFile c;
                        cp_tuples := <[Z.to_nat index := None]> (cp_tuples c) |},
                     None)
        end
  | _ => Returns (c, Some (errors_New "invalid recordID"))
  end.

Definition columnStorePage_isDirty (c : columnStorePage) : bool := cp_Dirty c.

Definition columnStorePage_setDirty (c : columnStorePage) (Dirty : bool) : columnStorePage :=
  {| cp_Dirty := Dirty;
     cp_pageNumber := cp_pageNumber c;
     cp_colNumber := cp_colNumber c;
     cp_numSlots := cp_numSlots c;
     cp_numUsedSlots := cp_numUsedSlots c;
     cp_desc := cp_desc c;
     cp_colFile := cp_colFile c;
     cp_tuples := cp_tuples c |}.

(** [columnStorePage.toBuffer]: the header and the non-nil tuples; the
    buffer is returned as it is. *)
Definition columnStorePage_toBuffer (c : columnStorePage) : result (list byte) :=
  let writeToBuffer := fun (buf : list byte) (data : Z) => buf ++ le_bytes 4 data in
  let buf := writeToBuffer [] (cp_numSlots c) in
  let buf := writeToBuffer buf (cp_numUsedSlots c) in
  write_tuples (cp_tuples c) buf.

(** The loop of [columnStorePage.initFromBuffer]. *)
Fixpoint columnStorePage_init_loop (n : nat) (c : columnStorePage) (buf : list byte)
  : outcome (columnStorePage * option error) :=
  match n with
  | O => Returns (c, None)
  | S n' =>
      match readTupleFrom buf (cp_desc c) with
      | Err e => Returns (c, Some e)
      | Ok (tup, buf') =>
          do r <- columnStorePage_insertTuple c tup;
          match r with
          | (c', Err e) => Returns (c', Some e)
          | (c', Ok _) => columnStorePage_init_loop n' c' buf'
          end
      end
  end.

(** [columnStorePage.initFromBuffer]: [numSlots] is read into the page,
    [numUsedSlots] into a local; the tuples are re-inserted one by one. *)
Definition columnStorePage_initFromBuffer (c : columnStorePage) (buf : list byte)
  : outcome (columnStorePage * option error) :=
  match buf_read 4 buf with
  | Err e => Returns (c, Some e)
  | Ok (bs1, buf1) =>
      let c1 := {| cp_Dirty := cp_Dirty c; cp_pageNumber := cp_pageNumber c;
                   cp_colNumber := cp_colNumber c;
                   cp_numSlots := int32_of_bytes bs1;
                   cp_numUsedSlots := cp_numUsedSlots c;
                   cp_desc := cp_desc c; cp_colFile := cp_colFile c;
                   cp_tuples := cp_tuples c |} in
      match buf_read 4 buf1 with
      | Err e => Returns (c1, Some e)
      | Ok (bs2, buf2) =>
          let numUsedSlots := int32_of_bytes bs2 in
          do tuples0 <- make_tuples (cp_numSlots c1);
          let c2 := {| cp_Dirty := cp_Dirty c1; cp_pageNumber := cp_pageNumber c1;
                       cp_colNumber := cp_colNumber c1;
                       cp_numSlots := cp_numSlots c1;
                       cp_numUsedSlots := cp_numUsedSlots c1;
                       cp_desc := cp_desc c1; cp_colFile := cp_colFile c1;
                       cp_tuples := tuples0 |} in
          columnStorePage_init_loop (Z.to_nat numUsedSlots) c2 buf2
      end
  end.

(** ** Multisets of stored tuples *)

(** The number of stored tuples that [Tuple.equals] identifies with [t0]
    (the count the serialization tests compare). *)
Definition count_equals (t0 : Tuple) (ts : list Tuple) : nat :=
  length (filter (fun t => Tuple_equals (Some t0) (Some t) = true) ts).

(** Two pages store the same multiset of tuples: every probe has the same
    number of equals in both. *)
Definition same_tuple_multiset (ts1 ts2 : list Tuple) : Prop :=
  forall t0, count_equals t0 ts1 = count_equals t0 ts2.

(** ** The data model: values that fit their field, well-formed pages *)

(** A string value of the data model: at most [StringLength] bytes, and
    no trailing zero byte (those are padding). *)
Definition string_fits (s : string) : Prop :=
  Z.of_nat (length (list_byte_of_string s)) <= StringLength /\
  last (list_byte_of_string s) <> Some "000"%byte.

(** A value fits a field type: a string in a string field, a 64-bit
    integer in any other field (as [readTupleFrom] reads them). *)
Definition conforms (v : DBValue) (ft : FieldType) : Prop :=
  match v, Ftype ft with
  | StringField s, StringType => string_fits s
  | IntField z, IntType | IntField z, UnknownType => in_int64 z
  | _, _ => False
  end.

(** The payload of a field and of a tuple on the wire. *)
Definition field_bytes (v : DBValue) : list byte :=
  match v with
  | IntField z => le_bytes 8 z
  | StringField s =>
      let bytes := take (Z.to_nat StringLength) (list_byte_of_string s) in
      bytes ++ zeros (StringLength - Z.of_nat (length bytes))
  | NilValue => []
  end.

Definition tuple_bytes (fs : list DBValue) : list byte :=
  concat (map field_bytes fs).

(** The width of a tuple of a descriptor: 8 per integer field,
    [StringLength] per string field. *)
Definition field_width (ft : FieldType) : Z :=
  match Ftype ft with
  | StringType => StringLength
  | _ => 8
  end.

Definition bytes_per_tuple (desc : TupleDesc) : Z :=
  fold_right Z.add 0 (map field_width (FieldTypes desc)).

(** A row page of the data model: the slot array has [numSlots] entries,
    [numUsedSlots] of them are occupied, and every stored tuple carries
    the page's descriptor and values that fit it. *)
Record heapPage_wf (h : heapPage) : Prop := {
  hp_wf_slots : hp_numSlots h = Z.of_nat (length (hp_tuples h));
  hp_wf_used : hp_numUsedSlots h = Z.of_nat (length (stored (hp_tuples h)));
  hp_wf_int32 : in_int32 (hp_numSlots h);
  hp_wf_tuples : Forall (fun t => Desc t = hp_desc h /\
                                  Forall2 conforms (Fields t) (FieldTypes (hp_desc h)))
                        (stored (hp_tuples h))
}.

(** A column page of the data model: one field in the descriptor; every
    stored tuple has one field of that name and type and one value that
    fits it. *)
Record columnStorePage_wf (c : columnStorePage) : Prop := {
  cp_wf_slots : cp_numSlots c = Z.of_nat (length (cp_tuples c));
  cp_wf_used : cp_numUsedSlots c = Z.of_nat (length (stored (cp_tuples c)));
  cp_wf_int32 : in_int32 (cp_numSlots c);
  cp_wf_desc : exists fld, FieldTypes (cp_desc c) = [fld];
  cp_wf_tuples : Forall (fun t => exists d v fld,
                            FieldTypes (cp_desc c) = [fld] /\
                            FieldTypes (Desc t) = [d] /\ Fields t = [v] /\
                            Fname d = Fname fld /\ Ftype d = Ftype fld /\
                            conforms v fld)
                        (stored (cp_tuples c))
}.

(** The payload of the stored tuples, in slot order. *)
Definition page_payload (ts : list Tuple) : list byte :=
  concat (map (fun t => tuple_bytes (Fields t)) ts).

(** What [heapPage.initFromBuffer] makes of the [j]-th tuple it reads. *)
Definition reload_tuple (pageNumber : Z) (desc : TupleDesc) (j : nat) (t : Tuple) : Tuple :=
  {| Desc := desc; Fields := Fields t; Rid := RidString (Sprintf_d_d pageNumber (Z.of_nat j)) |}.

Fixpoint reload_from (pageNumber : Z) (desc : TupleDesc) (i : nat) (ts : list Tuple) : list Tuple :=
  match ts with
  | [] => []
  | t :: ts' => reload_tuple pageNumber desc i t :: reload_from pageNumber desc (S i) ts'
  end.

Definition same_field (d1 d2 : FieldType) : Prop :=
  Fname d1 = Fname d2 /\ Ftype d1 = Ftype d2.

(** Tuples that [Tuple.equals] cannot tell apart: the same values, and
    descriptors that agree on names and types. *)
Definition tuple_equiv (t1 t2 : Tuple) : Prop :=
  Fields t1 = Fields t2 /\
  Forall2 same_field (FieldTypes (Desc t1)) (FieldTypes (Desc t2)).

(** What [columnStorePage.initFromBuffer] makes of a tuple it reads: the
    projection on the page's field. *)
Definition reproject (fld : FieldType) (t : Tuple) : Tuple :=
  {| Desc := {| FieldTypes := [fld] |}; Fields := Fields t; Rid := RidNil |}.

(** ** The Page interface (heapPage and columnStorePage implement it) *)

Inductive Page :=
  | HeapPg (h : heapPage)
  | ColumnPg (c : columnStorePage).

Definition Page_isDirty (p : Page) : bool :=
  match p with
  | HeapPg h => heapPage_isDirty h
  | ColumnPg c => columnStorePage_isDirty c
  end.

Definition Page_setDirty (p : Page) (dirty : bool) : Page :=
  match p with
  | HeapPg h => HeapPg (heapPage_setDirty h dirty)
  | ColumnPg c => ColumnPg (columnStorePage_setDirty c dirty)
  end.

Definition Page_toBuffer (p : Page) : result (list byte) :=
  match p with
  | HeapPg h => heapPage_toBuffer h
  | ColumnPg c => columnStorePage_toBuffer c
  end.

Definition Page_initFromBuffer (p : Page) (buf : list byte) : outcome (Page * option error) :=
  match p with
  | HeapPg h => do r <- heapPage_initFromBuffer h buf; Returns (HeapPg (fst r), snd r)
  | ColumnPg c => do r <- columnStorePage_initFromBuffer c buf; Returns (ColumnPg (fst r), snd r)
  end.

Definition Page_tuples (p : Page) : list (option Tuple) :=
  match p with
  | HeapPg h => hp_tuples h
  | ColumnPg c => cp_tuples c
  end.

Definition Page_numSlots (p : Page) : Z :=
  match p with
  | HeapPg h => hp_numSlots h
  | ColumnPg c => cp_numSlots c
  end.

Definition Page_numUsedSlots (p : Page) : Z :=
  match p with
  | HeapPg h => hp_numUsedSlots h
  | ColumnPg c => cp_numUsedSlots c
  end.

Definition Page_wf (p : Page) : Prop :=
  match p with
  | HeapPg h => heapPage_wf h
  | ColumnPg c => columnStorePage_wf c
  end.

(** [p0] is a fresh page of the layout and descriptor of [p]: what
    [readPage] hands to [initFromBuffer] (for a column page, the result of
    [newColumnPage], which has no used slot). *)
Definition fresh_page_for (p0 p : Page) : Prop :=
  match p0, p with
  | HeapPg h0, HeapPg h => hp_desc h0 = hp_desc h
  | ColumnPg c0, ColumnPg c => cp_desc c0 = cp_desc c /\ cp_numUsedSlots c0 = 0
  | _, _ => False
  end.

(** ** Example data: the descriptor and tuples of the tests *)

Definition ex_td : TupleDesc :=
  {| FieldTypes := [ {| Fname := "name"; TableQualifier := ""; Ftype := StringType |};
                     {| Fname := "age"; TableQualifier := ""; Ftype := IntType |} ] |}.

Definition ex_t1 : Tuple :=
  {| Desc := ex_td; Fields := [StringField "josie"; IntField 20]; Rid := RidNil |}.

Definition ex_t2 : Tuple :=
  {| Desc := ex_td; Fields := [StringField "annie"; IntField 17]; Rid := RidNil |}.

(** A row page holding [ex_t1] and [ex_t2]. *)
Definition ex_heapPage : heapPage :=
  {| hp_Dirty := true; hp_pageNumber := 0; hp_numSlots := 102; hp_numUsedSlots := 2;
     hp_desc := ex_td; hp_file := "test.dat";
     hp_tuples :=
       Some {| Desc := ex_td; Fields := Fields ex_t1; Rid := RidString "0-0" |} ::
       Some {| Desc := ex_td; Fields := Fields ex_t2; Rid := RidString "0-1" |} ::
       replicate 100 None |}.

(** The page [readPage] starts from. *)
Definition ex_heapPage_blank : heapPage :=
  {| hp_Dirty := false; hp_pageNumber := 0; hp_numSlots := 0; hp_numUsedSlots := 0;
     hp_desc := ex_td; hp_file := "test.dat"; hp_tuples := [] |}.

(** The page [newColumnPage] makes for the age column (511 slots). *)
Definition ex_columnPage_new : columnStorePage :=
  {| cp_Dirty := false; cp_pageNumber := 1; cp_colNumber := 1;
     cp_numSlots := 511; cp_numUsedSlots := 0;
     cp_desc := {| FieldTypes := [ {| Fname := "age"; TableQualifier := ""; Ftype := IntType |} ] |};
     cp_colFile := ∅;
     cp_tuples := replicate 511 None |}.

(** The same page after [insertTuple] of [ex_t1]. *)
Definition ex_columnPage : columnStorePage :=
  {| cp_Dirty := true; cp_pageNumber := 1; cp_colNumber := 1;
     cp_numSlots := 511; cp_numUsedSlots := 1;
     cp_desc := {| FieldTypes := [ {| Fname := "age"; TableQualifier := ""; Ftype := IntType |} ] |};
     cp_colFile := ∅;
     cp_tuples :=
       Some {| Desc := {| FieldTypes := [ {| Fname := "age"; TableQualifier := ""; Ftype := IntType |} ] |};
               Fields := [IntField 20]; Rid := RidNil |} ::
       replicate 510 None |}.

(** ** Example data: pages outside the data model *)

(** A tuple whose name has 33 bytes, one more than [StringLength]. *)
Definition ex_long_tuple : Tuple :=
  {| Desc := ex_td;
     Fields := [StringField "aaaaaaaaaaaaaaaaaaaaaaaaaaaaaaaaa"; IntField 20];
     Rid := RidNil |}.

(** The page [newHeapPage] makes for [ex_td], after [insertTuple] of
    [ex_long_tuple]. *)
Definition ex_long_page : heapPage :=
  {| hp_Dirty := true; hp_pageNumber := 0; hp_numSlots := 102; hp_numUsedSlots := 1;
     hp_desc := ex_td; hp_file := "test.dat";
     hp_tuples :=
       Some {| Desc := ex_td; Fields := Fields ex_long_tuple; Rid := RidString "0-0" |} ::
       replicate 101 None |}.

(** A tuple without the column [age]. *)
Definition ex_name_tuple : Tuple :=
  {| Desc := {| FieldTypes := [ {| Fname := "name"; TableQualifier := "";
                                   Ftype := StringType |} ] |};
     Fields := [StringField "josie"]; Rid := RidNil |}.

(** The page [newColumnPage] makes for the age column, after [insertTuple]
    of [ex_name_tuple]: a slot is counted, nothing is stored. *)
Definition ex_columnPage_miscounted : columnStorePage :=
  {| cp_Dirty := true; cp_pageNumber := 1; cp_colNumber := 1;
     cp_numSlots := 511; cp_numUsedSlots := 1;
     cp_desc := {| FieldTypes := [ {| Fname := "age"; TableQualifier := ""; Ftype := IntType |} ] |};
     cp_colFile := ∅;
     cp_tuples := replicate 511 None |}.

(** ** The buffer pool (buffer_pool.go) *)

(** [TransactionID] is an integer type. *)
Abbreviation TransactionID := Z (only parsing).

(** Permissions. *)
Inductive RWPerm := ReadPerm | WritePerm.

(** The keys of the page cache: [heapHash] of heap_file.go and
    [columnHash] of the column file. *)
Inductive pageKey :=
  | heapHash (FileName : string) (PageNo : Z)
  | columnHash (filename : string) (pageNumber : Z).

#[global] Instance pageKey_eq_dec : EqDecision pageKey.
Proof. solve_decision. Defined.

#[global] Instance pageKey_countable : Countable pageKey :=
  inj_countable'
    (fun k => match k with
              | heapHash f n => (true, f, n)
              | columnHash f n => (false, f, n)
              end)
    (fun '(b, f, n) => if b : bool then heapHash f n else columnHash f n)
    (fun k => match k with heapHash _ _ => eq_refl | columnHash _ _ => eq_refl end).

(** The order in which [range] visits the keys of a map.  Go leaves it
    unspecified; every key is visited once. *)
Class RangeOrder := {
  range_set : forall {A} `{Countable A}, gset A -> list A;
  range_set_perm : forall {A} `{Countable A} (s : gset A), range_set s ≡ₚ elements s
}.

(** One admissible order: the order of [elements]. *)
#[global] Instance elements_order : RangeOrder :=
  {| range_set := fun A _ _ s => elements s;
     range_set_perm := fun A _ _ s => reflexivity (elements s) |}.

Record BufferPool := {
  Pages : gmap pageKey Page;
  NumPages : Z;
  transactionDependencies : gmap Z (gset Z);
  readPermissionLocks : gmap Z (gset pageKey);
  writePermissionLocks : gmap Z (gset pageKey);
  currentTransactions : gset Z
}.

Definition set_Pages (f : gmap pageKey Page -> gmap pageKey Page) (bp : BufferPool) :=
  {| Pages := f (Pages bp); NumPages := NumPages bp;
     transactionDependencies := transactionDependencies bp;
     readPermissionLocks := readPermissionLocks bp;
     writePermissionLocks := writePermissionLocks bp;
     currentTransactions := currentTransactions bp |}.

Definition set_NumPages (f : Z -> Z) (bp : BufferPool) :=
  {| Pages := Pages bp; NumPages := f (NumPages bp);
     transactionDependencies := transactionDependencies bp;
     readPermissionLocks := readPermissionLocks bp;
     writePermissionLocks := writePermissionLocks bp;
     currentTransactions := currentTransactions bp |}.

Definition set_transactionDependencies (f : gmap Z (gset Z) -> gmap Z (gset Z)) (bp : BufferPool) :=
  {| Pages := Pages bp; NumPages := NumPages bp;
     transactionDependencies := f (transactionDependencies bp);
     readPermissionLocks := readPermissionLocks bp;
     writePermissionLocks := writePermissionLocks bp;
     currentTransactions := currentTransactions bp |}.

Definition set_readPermissionLocks (f : gmap Z (gset pageKey) -> gmap Z (gset pageKey)) (bp : BufferPool) :=
  {| Pages := Pages bp; NumPages := NumPages bp;
     transactionDependencies := transactionDependencies bp;
     readPermissionLocks := f (readPermissionLocks bp);
     writePermissionLocks := writePermissionLocks bp;
     currentTransactions := currentTransactions bp |}.

Definition set_writePermissionLocks (f : gmap Z (gset pageKey) -> gmap Z (gset pageKey)) (bp : BufferPool) :=
  {| Pages := Pages bp; NumPages := NumPages bp;
     transactionDependencies := transactionDependencies bp;
     readPermissionLocks := readPermissionLocks bp;
     writePermissionLocks := f (writePermissionLocks bp);
     currentTransactions := currentTransactions bp |}.

Definition set_currentTransactions (f : gset Z -> gset Z) (bp : BufferPool) :=
  {| Pages := Pages bp; NumPages := NumPages bp;
     transactionDependencies := transactionDependencies bp;
     readPermissionLocks := readPermissionLocks bp;
     writePermissionLocks := writePermissionLocks bp;
     currentTransactions := f (currentTransactions bp) |}.

(** [NewBufferPool]. *)
Definition NewBufferPool (numPages : Z) : BufferPool :=
  {| Pages := ∅; NumPages := numPages;
     transactionDependencies := ∅;
     readPermissionLocks := ∅;
     writePermissionLocks := ∅;
     currentTransactions := ∅ |}.

(** [m[k]] on a map of sets: the empty (nil) set when [k] is absent. *)
Definition set_at {K A} `{Countable K} `{Countable A} (m : gmap K (gset A)) (k : K) : gset A :=
  default ∅ (m !! k).

(** The two [map[TransactionID]bool] of [hasCycle]; a map to [bool] read
    with default [false] is the set of keys mapped to [true]. *)
Record dfs_state := {
  current_iteration_visited : gset Z;
  visited : gset Z
}.

Section BufferPool.
Context `{!RangeOrder}.

(** The [for next := range ...] loop of [dfs], with the recursive call
    as a parameter. *)
Fixpoint dfs_loop (dfs : Z -> dfs_state -> option (bool * dfs_state))
    (tid : Z) (nexts : list Z) (st : dfs_state) : option (bool * dfs_state) :=
  match nexts with
  | [] =>
      Some (false, {| current_iteration_visited := current_iteration_visited st ∖ {[tid]};
                      visited := visited st |})
  | next :: rest =>
      if negb (bool_decide (next ∈ visited st)) then
        match dfs next st with
        | None => None
        | Some (true, st') => Some (true, st')
        | Some (false, st') => dfs_loop dfs tid rest st'
        end
      else if bool_decide (next ∈ current_iteration_visited st) then Some (true, st)
      else dfs_loop dfs tid rest st
  end.

(** The closure [dfs] of [hasCycle]; [None] when the fuel runs out. *)
Fixpoint dfs (fuel : nat) (deps : gmap Z (gset Z)) (tid : Z) (st : dfs_state)
  : option (bool * dfs_state) :=
  match fuel with
  | O => None
  | S fuel' =>
      dfs_loop (dfs fuel' deps) tid (range_set (set_at deps tid))
        {| current_iteration_visited := {[tid]} ∪ current_iteration_visited st;
           visited := {[tid]} ∪ visited st |}
  end.

(** The loop of [hasCycle] over the current transactions. *)
Fixpoint hasCycle_loop (fuel : nat) (deps : gmap Z (gset Z)) (tids : list Z)
    (st : dfs_state) : option bool :=
  match tids with
  | [] => Some false
  | tid :: rest =>
      if negb (bool_decide (tid ∈ visited st)) then
        match dfs fuel deps tid st with
        | None => None
        | Some (true, _) => Some true
        | Some (false, st') => hasCycle_loop fuel deps rest st'
        end
      else hasCycle_loop fuel deps rest st
  end.

(** Every transaction that occurs in the wait-for graph or is current. *)
Definition wait_nodes (bp : BufferPool) : gset Z :=
  currentTransactions bp ∪ dom (transactionDependencies bp) ∪
  ⋃ ((map_to_list (transactionDependencies bp)).*2).

(** Each call of [dfs] marks a transaction that was not visited, so one
    unit of fuel per transaction (and one more) is enough. *)
Definition hasCycle_fuel (bp : BufferPool) : nat := S (size (wait_nodes bp)).

Definition hasCycle_run (bp : BufferPool) : option bool :=
  hasCycle_loop (hasCycle_fuel bp) (transactionDependencies bp)
    (range_set (currentTransactions bp))
    {| current_iteration_visited := ∅; visited := ∅ |}.

(** [BufferPool.hasCycle]. *)
Definition hasCycle (bp : BufferPool) : bool := default false (hasCycle_run bp).

(** [BufferPool.rollbackTransactionPages]. *)
Definition rollbackTransactionPages (bp : BufferPool) (tid : TransactionID) : BufferPool :=
  foldl (fun bp pageKey =>
           match Pages bp !! pageKey with
           | Some page =>
               if Page_isDirty page
               then set_NumPages (fun n => wrap_int64 (n - 1)) (set_Pages (delete pageKey) bp)
               else bp
           | None => bp
           end)
        bp (range_set (set_at (writePermissionLocks bp) tid)).

(** [BufferPool.removeTransactionLocks]. *)
Definition removeTransactionLocks (bp : BufferPool) (tid : TransactionID) : BufferPool :=
  set_readPermissionLocks (delete tid)
    (set_currentTransactions (fun s => s ∖ {[tid]})
       (set_transactionDependencies (delete tid)
          (set_writePermissionLocks (delete tid) bp))).

(** [for _, dependencies := range bp.transactionDependencies
       { delete(dependencies, tid) }]. *)
Definition remove_from_dependencies (bp : BufferPool) (tid : TransactionID) : BufferPool :=
  set_transactionDependencies (fmap (fun dependencies => dependencies ∖ {[tid]})) bp.

(** [BufferPool.AbortTransaction]. *)
Definition AbortTransaction (bp : BufferPool) (tid : TransactionID) : BufferPool :=
  if negb (bool_decide (tid ∈ currentTransactions bp)) then bp
  else
    let bp := rollbackTransactionPages bp tid in
    let bp := removeTransactionLocks bp tid in
    remove_from_dependencies bp tid.

(** [BufferPool.BeginTransaction] (it always returns nil). *)
Definition BeginTransaction (bp : BufferPool) (tid : TransactionID) : BufferPool :=
  set_currentTransactions (fun s => {[tid]} ∪ s)
    (set_writePermissionLocks <[tid := ∅]>
       (set_readPermissionLocks <[tid := ∅]>
          (set_transactionDependencies <[tid := ∅]> bp))).

(** [BufferPool.addDependencyIfLocked]; writing into the dependency set
    of a transaction that has none panics (assignment to an entry of a
    nil map). *)
Definition addDependencyIfLocked (bp : BufferPool) (otherTID tid : TransactionID)
    (key : pageKey) (locks : gmap Z (gset pageKey)) : outcome (bool * BufferPool) :=
  if bool_decide (key ∈ set_at locks otherTID) then
    match transactionDependencies bp !! tid with
    | None => Panics "assignment to entry in nil map"
    | Some deps =>
        Returns (true, set_transactionDependencies <[tid := {[otherTID]} ∪ deps]> bp)
    end
  else Returns (false, bp).

(** The loop of [BufferPool.checkConflictingLocks]. *)
Fixpoint checkConflictingLocks_loop (others : list Z) (bp : BufferPool)
    (tid : TransactionID) (key : pageKey) (perm : RWPerm) : outcome (bool * BufferPool) :=
  match others with
  | [] => Returns (false, bp)
  | otherTID :: rest =>
      if bool_decide (otherTID = tid) then checkConflictingLocks_loop rest bp tid key perm
      else
        do (conflict, bp') <-
          match perm with
          | ReadPerm => addDependencyIfLocked bp otherTID tid key (writePermissionLocks bp)
          | WritePerm =>
              do (c1, bp1) <- addDependencyIfLocked bp otherTID tid key (readPermissionLocks bp);
              if c1 then Returns (true, bp1)
              else addDependencyIfLocked bp1 otherTID tid key (writePermissionLocks bp1)
          end;
        if conflict then Returns (true, bp')
        else checkConflictingLocks_loop rest bp' tid key perm
  end.

(** [BufferPool.checkConflictingLocks]. *)
Definition checkConflictingLocks (bp : BufferPool) (tid : TransactionID)
    (key : pageKey) (perm : RWPerm) : outcome (bool * BufferPool) :=
  checkConflictingLocks_loop (range_set (currentTransactions bp)) bp tid key perm.

(** The loop of [BufferPool.evictPage]: the first page that is not dirty
    goes. *)
Fixpoint evictPage_loop (keys : list pageKey) (pages : gmap pageKey Page)
  : result (gmap pageKey Page) :=
  match keys with
  | [] => Err (GoDBError BufferPoolFullError "buffer pool all dirty")
  | key_from_map :: rest =>
      match pages !! key_from_map with
      | Some specific_page =>
          if negb (Page_isDirty specific_page) then Ok (delete key_from_map pages)
          else evictPage_loop rest pages
      | None => evictPage_loop rest pages
      end
  end.

(** [BufferPool.evictPage]. *)
Definition evictPage (bp : BufferPool) : result BufferPool :=
  match evictPage_loop (range_set (dom (Pages bp))) (Pages bp) with
  | Ok pages => Ok (set_Pages (fun _ => pages) bp)
  | Err e => Err e
  end.

(** The file system: the contents of the files by name. *)
Abbreviation Disk := (gmap string (list byte)) (only parsing).

(** What the buffer pool uses of the [DBFile] interface. *)
Record DBFile := {
  DBFile_pageKey : Z -> outcome pageKey;
  DBFile_readPage : Z -> gmap string (list byte) -> outcome (result Page * gmap string (list byte))
}.

(** The buffer pool and the file system. *)
Record World := {
  bp : BufferPool;
  disk : gmap string (list byte)
}.

(** How a pass through the lock-acquisition loop of [GetPage] ends. *)
Inductive GetPageResult :=
  | GotPage (page : Page)
  | Failed (e : error)
  | Retry.

(** The requested lock is added to the lock set of [tid]. *)
Definition acquire_lock (bp : BufferPool) (tid : TransactionID) (key : pageKey)
    (perm : RWPerm) : outcome BufferPool :=
  match perm with
  | ReadPerm =>
      match readPermissionLocks bp !! tid with
      | None => Panics "assignment to entry in nil map"
      | Some locks => Returns (set_readPermissionLocks <[tid := {[key]} ∪ locks]> bp)
      end
  | WritePerm =>
      match writePermissionLocks bp !! tid with
      | None => Panics "assignment to entry in nil map"
      | Some locks => Returns (set_writePermissionLocks <[tid := {[key]} ∪ locks]> bp)
      end
  end.

(** [GetPage] after the loop: the lock is acquired, then the page comes
    from the cache or, after an eviction when the cache is full, from the
    file. *)
Definition GetPage_fetch (file : DBFile) (pageNumber : Z) (key : pageKey)
    (tid : TransactionID) (perm : RWPerm) (w : World) : outcome (GetPageResult * World) :=
  do bp1 <- acquire_lock (bp w) tid key perm;
  match Pages bp1 !! key with
  | Some specific_page => Returns (GotPage specific_page, {| bp := bp1; disk := disk w |})
  | None =>
      let evicted :=
        if Z.of_nat (size (Pages bp1)) >=? NumPages bp1 then evictPage bp1 else Ok bp1 in
      match evicted with
      | Err err => Returns (Failed err, {| bp := bp1; disk := disk w |})
      | Ok bp2 =>
          do (r, disk') <- DBFile_readPage file pageNumber (disk w);
          match r with
          | Err err => Returns (Failed err, {| bp := bp2; disk := disk' |})
          | Ok specific_page =>
              Returns (GotPage specific_page,
                       {| bp := set_Pages <[key := specific_page]> bp2; disk := disk' |})
          end
      end
  end.

(** One pass through the loop of [GetPage], and what follows it when the
    loop is left.  On a conflict with a cycle the transaction is aborted
    and the call fails; on a conflict without a cycle the call sleeps and
    goes through the loop again ([Retry]). *)
Definition GetPage_pass (file : DBFile) (pageNumber : Z) (key : pageKey)
    (tid : TransactionID) (perm : RWPerm) (w : World) : outcome (GetPageResult * World) :=
  do (conflict, bp1) <- checkConflictingLocks (bp w) tid key perm;
  if conflict then
    if hasCycle bp1 then
      Returns (Failed (errors_New "transaction aborted; there is a cycle"),
               {| bp := AbortTransaction bp1 tid; disk := disk w |})
    else Returns (Retry, {| bp := bp1; disk := disk w |})
  else GetPage_fetch file pageNumber key tid perm {| bp := bp1; disk := disk w |}.

(** [BufferPool.GetPage] up to the first pass through its loop. *)
Definition GetPage_first (file : DBFile) (pageNumber : Z) (tid : TransactionID)
    (perm : RWPerm) (w : World) : outcome (GetPageResult * World) :=
  do key <- DBFile_pageKey file pageNumber;
  if negb (bool_decide (tid ∈ currentTransactions (bp w)))
  then Returns (Failed (errors_New "invalid transaction"), w)
  else GetPage_pass file pageNumber key tid perm w.

(** [BufferPool.GetPage] when no other transaction runs: a pass that ends
    in [Retry] is followed by the same pass for ever, and the call
    blocks. *)
Definition GetPage (file : DBFile) (pageNumber : Z) (tid : TransactionID)
    (perm : RWPerm) (w : World) : outcome (result Page * World) :=
  do (r, w') <- GetPage_first file pageNumber tid perm w;
  match r with
  | GotPage page => Returns (Ok page, w')
  | Failed e => Returns (Err e, w')
  | Retry => Blocks
  end.

End BufferPool.

(** ** The row file (heap_file.go) *)

(** [bufPool] is a pointer to the buffer pool, which lives in the
    [World]. *)
Record HeapFile := {
  backingFile : string;
  tupleDesc : TupleDesc;
  pagesNum : Z;
  availablePages : list bool
}.

Definition set_pagesNum (n : Z) (f : HeapFile) : HeapFile :=
  {| backingFile := backingFile f; tupleDesc := tupleDesc f;
     pagesNum := n; availablePages := availablePages f |}.

Definition set_availablePages (a : list bool) (f : HeapFile) : HeapFile :=
  {| backingFile := backingFile f; tupleDesc := tupleDesc f;
     pagesNum := pagesNum f; availablePages := a |}.

(** [os.OpenFile(name, os.O_CREATE|os.O_RDWR, 0666)]: a missing file is
    created empty. *)
Definition open_create (name : string) (d : gmap string (list byte)) : gmap string (list byte) :=
  match d !! name with
  | Some _ => d
  | None => <[name := []]> d
  end.

(** Writing [data] at [offset]; a gap beyond the end of the file reads as
    zeros. *)
Definition write_at (content : list byte) (offset : Z) (data : list byte) : list byte :=
  let off := Z.to_nat offset in
  take off (content ++ replicate (off - length content) "000"%byte)
  ++ data ++ drop (off + length data) content.

(** [HeapFile.pageKey]. *)
Definition HeapFile_pageKey (f : HeapFile) (pgNo : Z) : pageKey :=
  heapHash (backingFile f) pgNo.

(** [HeapFile.readPage]. *)
Definition HeapFile_readPage (f : HeapFile) (pageNo : Z) (d : gmap string (list byte))
  : outcome (result Page * gmap string (list byte)) :=
  let offset := wrap_int64 (pageNo * PageSize) in
  let d := open_create (backingFile f) d in
  if offset <? 0 then Returns (Err (errors_New "failed to seek to page"), d)
  else
    let avail := take (Z.to_nat PageSize) (drop (Z.to_nat offset) (default [] (d !! backingFile f))) in
    if bool_decide (avail = []) then Returns (Err (errors_New "failed to read data from page"), d)
    else
      let data := avail ++ zeros (PageSize - Z.of_nat (length avail)) in
      let new_buf := data in
      let heap_page := {| hp_Dirty := false; hp_pageNumber := pageNo; hp_numSlots := 0;
                          hp_numUsedSlots := 0; hp_desc := tupleDesc f;
                          hp_file := backingFile f; hp_tuples := [] |} in
      do r <- heapPage_initFromBuffer heap_page new_buf;
      match r with
      | (_, Some _) => Returns (Err (errors_New "failed to initialize heap page"), d)
      | (heap_page, None) => Returns (Ok (HeapPg heap_page), d)
      end.

(** [HeapFile.flushPage]: the page, cleaned, the file system and the
    error. *)
Definition HeapFile_flushPage (f : HeapFile) (p : Page) (d : gmap string (list byte))
  : Page * gmap string (list byte) * option error :=
  match p with
  | ColumnPg _ => (p, d, Some (errors_New "invalid page type"))
  | HeapPg page =>
      let d := open_create (backingFile f) d in
      let offset := wrap_int64 (hp_pageNumber page * PageSize) in
      if offset <? 0 then (p, d, Some (errors_New "invalid argument"))
      else
        match heapPage_toBuffer page with
        | Err err => (p, d, Some err)
        | Ok buf =>
            (HeapPg (heapPage_setDirty page false),
             <[backingFile f := write_at (default [] (d !! backingFile f)) offset buf]> d,
             None)
        end
  end.

Section HeapFile.
Context `{!RangeOrder}.

(** A row file as a [DBFile]. *)
Definition HeapFile_DBFile (f : HeapFile) : DBFile :=
  {| DBFile_pageKey := fun pgNo => Returns (HeapFile_pageKey f pgNo);
     DBFile_readPage := HeapFile_readPage f |}.

(** [HeapFile.createNewPage]. *)
Definition HeapFile_createNewPage (f : HeapFile) (t : Tuple) (w : World)
  : outcome (option error * HeapFile * World) :=
  do r <- newHeapPage (tupleDesc f) (pagesNum f) (backingFile f);
  match r with
  | Err err => Returns (Some err, f, w)
  | Ok newPage =>
      match heapPage_insertTuple newPage t with
      | (_, Err err) => Returns (Some err, f, w)
      | (newPage, Ok _) =>
          match HeapFile_flushPage f (HeapPg newPage) (disk w) with
          | (_, d, Some err) => Returns (Some err, f, {| bp := bp w; disk := d |})
          | (newPage, d, None) =>
              let bp' :=
                if Z.of_nat (size (Pages (bp w))) <? NumPages (bp w)
                then set_Pages <[HeapFile_pageKey f (pagesNum f) := newPage]> (bp w)
                else bp w in
              Returns (None,
                       set_pagesNum (wrap_int64 (pagesNum f + 1))
                         (set_availablePages (availablePages f ++ [true]) f),
                       {| bp := bp'; disk := d |})
          end
      end
  end.

(** The loop of [HeapFile.insertTuple] over [availablePages], from page
    [pageNo] on: the first page that is marked idle and has a free slot
    ([Ok (Some _)]), or none ([Ok None]), or the error of [GetPage]. *)
Fixpoint insertTuple_loop (idles : list bool) (pageNo : nat) (f : HeapFile)
    (tid : TransactionID) (w : World)
  : outcome (result (option (Z * heapPage)) * HeapFile * World) :=
  match idles with
  | [] => Returns (Ok None, f, w)
  | idle :: rest =>
      if idle then
        do (r, w') <- GetPage (HeapFile_DBFile f) (Z.of_nat pageNo) tid WritePerm w;
        match r with
        | Err err => Returns (Err err, f, w')
        | Ok (ColumnPg _) => Panics "interface conversion: Page is not *heapPage"
        | Ok (HeapPg tmpPage) =>
            if hp_numUsedSlots tmpPage <? hp_numSlots tmpPage
            then Returns (Ok (Some (Z.of_nat pageNo, tmpPage)), f, w')
            else
              insertTuple_loop rest (S pageNo)
                (set_availablePages (<[pageNo := false]> (availablePages f)) f) tid w'
        end
      else insertTuple_loop rest (S pageNo) f tid w
  end.

(** [HeapFile.insertTuple].  The valid page is the cached page object, so
    the insertion shows in the cache. *)
Definition HeapFile_insertTuple (f : HeapFile) (t : Tuple) (tid : TransactionID) (w : World)
  : outcome (option error * HeapFile * World) :=
  if (length (Fields t) =? length (FieldTypes (Desc t)))%nat then
    do (r, w1) <- insertTuple_loop (availablePages f) 0 f tid w;
    match r with
    | (Err err, f1) => Returns (Some err, f1, w1)
    | (Ok None, f1) => HeapFile_createNewPage f1 t w1
    | (Ok (Some (pageNo, validPage)), f1) =>
        match heapPage_insertTuple validPage t with
        | (_, Err err) => Returns (Some err, f1, w1)
        | (validPage, Ok _) =>
            let validPage := heapPage_setDirty validPage true in
            Returns (None, f1,
                     {| bp := set_Pages <[HeapFile_pageKey f1 pageNo := HeapPg validPage]> (bp w1);
                        disk := disk w1 |})
        end
    end
  else Returns (Some (errors_New "invalid"), f, w).

(** [HeapFile.deleteTuple]. *)
Definition HeapFile_deleteTuple (f : HeapFile) (t : Tuple) (tid : TransactionID) (w : World)
  : outcome (option error * World) :=
  match Rid t with
  | RidNil => Returns (None, w)
  | RidString rid =>
      match strings_Split_dash rid with
      | [s0; s1] =>
          match strconv_Atoi s0 with
          | Err _ => Returns (Some (errors_New "invalid page number"), w)
          | Ok pageNumber =>
              match strconv_Atoi s1 with
              | Err _ => Returns (Some (errors_New "invalid slot number"), w)
              | Ok _ =>
                  do (r, w') <- GetPage (HeapFile_DBFile f) pageNumber tid WritePerm w;
                  match r with
                  | Err err => Returns (Some err, w')
                  | Ok (ColumnPg _) => Returns (Some (errors_New "invalid page type"), w')
                  | Ok (HeapPg page) =>
                      match heapPage_deleteTuple page (Rid t) with
                      | (page', err) =>
                          Returns (err,
                                   {| bp := set_Pages <[HeapFile_pageKey f pageNumber := HeapPg page']>
                                              (bp w');
                                      disk := disk w' |})
                      end
                  end
              end
          end
      | _ => Returns (Some (errors_New "invalid record ID format"), w)
      end
  | _ => Returns (Some (errors_New "invalid record ID type"), w)
  end.

End HeapFile.

(** ** Locks and the wait-for graph: the notions the claims use *)

(** The lock set the permission selects. *)
Definition locks_of (perm : RWPerm) (bp : BufferPool) : gmap Z (gset pageKey) :=
  match perm with
  | ReadPerm => readPermissionLocks bp
  | WritePerm => writePermissionLocks bp
  end.

(** [other] is a current transaction, not [tid], that holds a lock on
    [key] which conflicts with [perm]: a write lock, or a read lock when
    [perm] is [WritePerm]. *)
Definition conflicting (bp : BufferPool) (tid : TransactionID) (key : pageKey)
    (perm : RWPerm) (other : TransactionID) : Prop :=
  other ∈ currentTransactions bp /\ other <> tid /\
  (key ∈ set_at (writePermissionLocks bp) other \/
   (perm = WritePerm /\ key ∈ set_at (readPermissionLocks bp) other)).

(** Some current transaction holds a read or a write lock on [key]. *)
Definition locked_by_active (bp : BufferPool) (key : pageKey) : Prop :=
  exists t, t ∈ currentTransactions bp /\
            (key ∈ set_at (readPermissionLocks bp) t \/
             key ∈ set_at (writePermissionLocks bp) t).

(** An edge of the wait-for graph: [a] waits for [b]. *)
Definition waits_for (deps : gmap Z (gset Z)) (a b : Z) : Prop :=
  b ∈ set_at deps a.

(** The wait-for graph has a cycle through [t]. *)
Definition on_cycle (deps : gmap Z (gset Z)) (t : Z) : Prop :=
  tc (waits_for deps) t t.

(** The wait-for graph has a cycle. *)
Definition has_cycle (deps : gmap Z (gset Z)) : Prop :=
  exists t, on_cycle deps t.

(** The wait-for graph has a cycle that can be reached from a current
    transaction: what the search of [hasCycle] can meet. *)
Definition has_reachable_cycle (bp : BufferPool) : Prop :=
  exists r t, r ∈ currentTransactions bp /\
              rtc (waits_for (transactionDependencies bp)) r t /\
              on_cycle (transactionDependencies bp) t.

(** Every transaction with a dependency set is current (they are created
    together by [BeginTransaction] and removed together). *)
Definition deps_of_current (bp : BufferPool) : Prop :=
  dom (transactionDependencies bp) ⊆ currentTransactions bp.

(** [tid] has left the pool: it is not current, holds no lock, waits for
    nobody and nobody waits for it. *)
Definition aborted (bp : BufferPool) (tid : TransactionID) : Prop :=
  (tid ∉ currentTransactions bp) /\
  readPermissionLocks bp !! tid = None /\
  writePermissionLocks bp !! tid = None /\
  transactionDependencies bp !! tid = None /\
  forall t, ~ waits_for (transactionDependencies bp) t tid.

(** ** Example data: pools and files *)

Definition ex_k1 : pageKey := heapHash "a.dat" 0.
Definition ex_k2 : pageKey := heapHash "a.dat" 1.

(** A clean and a dirty page. *)
Definition ex_clean_page : Page := HeapPg (heapPage_setDirty ex_heapPage false).
Definition ex_dirty_page : Page := HeapPg ex_heapPage.

(** A file whose pages can all be read. *)
Definition ex_file : DBFile :=
  {| DBFile_pageKey := fun n => Returns (heapHash "a.dat" n);
     DBFile_readPage := fun n d => Returns (Ok ex_clean_page, d) |}.

(** A file that has no page to read. *)
Definition ex_empty_file : DBFile :=
  {| DBFile_pageKey := fun n => Returns (heapHash "a.dat" n);
     DBFile_readPage := fun n d => Returns (Err (errors_New "failed to read data from page"), d) |}.

(** A pool of capacity 1 whose only cached page is dirty and write-locked
    by transaction 1; transaction 2 is current too. *)
Definition ex_pool_dirty : BufferPool :=
  {| Pages := {[ ex_k1 := ex_dirty_page ]};
     NumPages := 1;
     transactionDependencies := {[ 1 := ∅; 2 := ∅ ]};
     readPermissionLocks := {[ 1 := ∅; 2 := ∅ ]};
     writePermissionLocks := {[ 1 := {[ ex_k1 ]}; 2 := ∅ ]};
     currentTransactions := {[ 1; 2 ]} |}.

(** A pool of capacity 1 whose only cached page is clean and read-locked
    by transaction 1; transaction 2 is current too. *)
Definition ex_pool_read_locked : BufferPool :=
  {| Pages := {[ ex_k1 := ex_clean_page ]};
     NumPages := 1;
     transactionDependencies := {[ 1 := ∅; 2 := ∅ ]};
     readPermissionLocks := {[ 1 := {[ ex_k1 ]}; 2 := ∅ ]};
     writePermissionLocks := {[ 1 := ∅; 2 := ∅ ]};
     currentTransactions := {[ 1; 2 ]} |}.

(** ** The invariant of the cycle search *)

(** The transactions the search has finished with: visited and no longer
    on the stack of the current iteration. *)
Definition finished (st : dfs_state) (t : Z) : Prop :=
  t ∈ visited st /\ t ∉ current_iteration_visited st.

(** The stack is visited; finished transactions wait only for finished
    transactions; no finished transaction is on a cycle. *)
Record dfs_inv (deps : gmap Z (gset Z)) (st : dfs_state) : Prop := {
  dfs_inv_stack : current_iteration_visited st ⊆ visited st;
  dfs_inv_closed : forall b c, finished st b -> waits_for deps b c -> finished st c;
  dfs_inv_acyclic : forall b, finished st b -> ~ on_cycle deps b
}.

(** What a call [dfs(t)] from state [st] establishes: a cycle that [t]
    reaches when it returns true; otherwise [t] is finished, the stack is
    as before and nothing visited is forgotten. *)
Definition dfs_post (deps : gmap Z (gset Z)) (t : Z) (st : dfs_state)
    (res : bool) (st' : dfs_state) : Prop :=
  if res then exists c, rtc (waits_for deps) t c /\ on_cycle deps c
  else dfs_inv deps st' /\
       current_iteration_visited st' = current_iteration_visited st /\
       visited st ⊆ visited st' /\ t ∈ visited st'.

Definition ex_k4 : pageKey := heapHash "a.dat" 3.

(** Transactions 1 and 2 hold the write locks of pages 0 and 1 and wait
    for each other; transaction 2 has just found the cycle and has not
    yet run [AbortTransaction].  Transaction 4 holds the write lock of
    page 3; transaction 3 holds nothing. *)
Definition ex_pool_deadlock : BufferPool :=
  {| Pages := {[ ex_k1 := ex_clean_page; ex_k2 := ex_clean_page; ex_k4 := ex_clean_page ]};
     NumPages := 10;
     transactionDependencies := {[ 1 := {[ 2 ]}; 2 := {[ 1 ]}; 3 := ∅; 4 := ∅ ]};
     readPermissionLocks := {[ 1 := ∅; 2 := ∅; 3 := ∅; 4 := ∅ ]};
     writePermissionLocks := {[ 1 := {[ ex_k1 ]}; 2 := {[ ex_k2 ]}; 3 := ∅; 4 := {[ ex_k4 ]} ]};
     currentTransactions := {[ 1; 2; 3; 4 ]} |}.

(** The calls that lead to [ex_pool_deadlock]: four transactions begin;
    1, 2 and 4 get the write locks of pages 0, 1 and 3; 1 asks for page 1
    and has to wait; 2 asks for page 0 and its conflict check records the
    edge that closes the cycle. *)
Definition ex_deadlock_history : outcome (bool * BufferPool) :=
  let bp0 := BeginTransaction (BeginTransaction (BeginTransaction (BeginTransaction
               (NewBufferPool 10) 1) 2) 3) 4 in
  do (_, w1) <- GetPage ex_file 0 1 WritePerm {| bp := bp0; disk := ∅ |};
  do (_, w2) <- GetPage ex_file 1 2 WritePerm w1;
  do (_, w3) <- GetPage ex_file 3 4 WritePerm w2;
  do (_, w4) <- GetPage_first ex_file 1 1 WritePerm w3;
  checkConflictingLocks (bp w4) 2 ex_k1 WritePerm.

(** ** The AVG aggregation state (agg_state.go) *)

(** What the aggregation states use of the [Expr] interface. *)
Record Expr := {
  EvalExpr : option Tuple -> DBValue * option error;
  GetExprType : FieldType
}.

(** [float32(z)] for a 64-bit integer [z], as the integer the float
    holds: [z] rounded to 24 significant bits, ties to even. *)
Definition float32_of_int64 (z : Z) : Z :=
  let a := Z.abs z in
  if a <? 2^24 then z
  else
    let e := Z.log2 a - 23 in
    let q := Z.shiftr a e in
    let r := a - Z.shiftl q e in
    let half := 2^(e - 1) in
    let q' := if (r >? half) || ((r =? half) && Z.odd q) then q + 1 else q in
    Z.sgn z * Z.shiftl q' e.

(** [avg_fun] is the field [fun func(DBValue) any], nil when not set. *)
Record AvgAggState := {
  avg_alias : string;
  avg_expr : Expr;
  avg_count : Z;
  avg_average : Z;
  avg_sum : Z;
  avg_fun : option (DBValue -> Z)
}.

(** [AvgAggState.Copy]. *)
Definition AvgAggState_Copy (a : AvgAggState) : AvgAggState :=
  {| avg_alias := avg_alias a; avg_expr := avg_expr a; avg_count := avg_count a;
     avg_average := avg_average a; avg_sum := avg_sum a; avg_fun := avg_fun a |}.

(** [AvgAggState.Init] (it returns nil). *)
Definition AvgAggState_Init (a : AvgAggState) (alias : string) (expr : Expr) : AvgAggState :=
  {| avg_alias := alias; avg_expr := expr; avg_count := 0;
     avg_average := 0; avg_sum := 0; avg_fun := avg_fun a |}.

(** [v, _ := get.(IntField)]: the zero [IntField] when [get] is not one. *)
Definition as_IntField (get : DBValue) : Z :=
  match get with
  | IntField v => v
  | _ => 0
  end.

(** [AvgAggState.AddTuple]: the sum is updated, then divided by the count
    of the tuples added before, then the count is incremented. *)
Definition AvgAggState_AddTuple (a : AvgAggState) (t : option Tuple) : outcome AvgAggState :=
  let get := fst (EvalExpr (avg_expr a) t) in
  let value := as_IntField get in
  let sum := wrap_int64 (avg_sum a + value) in
  do q <- int64_div sum (avg_count a);
  Returns {| avg_alias := avg_alias a; avg_expr := avg_expr a;
             avg_count := wrap_int64 (avg_count a + 1);
             avg_average := float32_of_int64 q;
             avg_sum := sum; avg_fun := avg_fun a |}.

(** [AvgAggState.GetTupleDesc]. *)
Definition AvgAggState_GetTupleDesc (a : AvgAggState) : TupleDesc :=
  {| FieldTypes := [ {| Fname := avg_alias a; TableQualifier := ""; Ftype := IntType |} ] |}.

(** [AvgAggState.Finalize]. *)
Definition AvgAggState_Finalize (a : AvgAggState) : outcome Tuple :=
  let td := AvgAggState_GetTupleDesc a in
  do q <- int64_div (avg_sum a) (avg_count a);
  Returns {| Desc := td; Fields := [IntField q]; Rid := RidNil |}.

(** [Init], then [AddTuple] for each tuple in turn, then [Finalize]. *)
Fixpoint AvgAggState_AddTuples (a : AvgAggState) (ts : list Tuple) : outcome AvgAggState :=
  match ts with
  | [] => Returns a
  | t :: rest => do a' <- AvgAggState_AddTuple a (Some t); AvgAggState_AddTuples a' rest
  end.

Definition AvgAggState_run (a : AvgAggState) (alias : string) (expr : Expr)
    (ts : list Tuple) : outcome Tuple :=
  do a' <- AvgAggState_AddTuples (AvgAggState_Init a alias expr) ts;
  AvgAggState_Finalize a'.

(** The expression that reads the field [age] of the example tuples. *)
Definition ex_age_expr : Expr :=
  {| EvalExpr := fun t =>
       match t with
       | Some t => (default NilValue (Fields t !! 1%nat), None)
       | None => (NilValue, Some (errors_New "nil tuple"))
       end;
     GetExprType := {| Fname := "age"; TableQualifier := ""; Ftype := IntType |} |}.

Definition ex_avg_state : AvgAggState :=
  {| avg_alias := ""; avg_expr := ex_age_expr; avg_count := 0; avg_average := 0;
     avg_sum := 0; avg_fun := None |}.

(** ** The Insert and Delete operators (insert_op.go, delete_op.go) *)

Section Operators.
(** The state the iterators act on: the buffer pool, the files and the
    captured variables of the child's iterator. *)
Context {Σ : Type}.

(** An iterator: a closure that returns a tuple pointer and an error. *)
Definition Iter : Type := Σ -> outcome ((option Tuple * option error) * Σ).

(** What the operators use of the [Operator] interface. *)
Record Operator := {
  Descriptor : TupleDesc;
  Iterator : TransactionID -> Σ -> outcome (result Iter * Σ)
}.

(** What the operators use of the [DBFile] interface. *)
Record OpFile := {
  insertTuple : Tuple -> TransactionID -> Σ -> outcome (option error * Σ);
  deleteTuple : Tuple -> TransactionID -> Σ -> outcome (option error * Σ)
}.

Record InsertOp := {
  insertFile : OpFile;
  iop_child : Operator;
  iop_res : TupleDesc
}.

(** The descriptor both operators return: one integer field "count". *)
Definition count_desc : TupleDesc :=
  {| FieldTypes := [ {| Fname := "count"; TableQualifier := ""; Ftype := IntType |} ] |}.

(** The tuple both operators yield. *)
Definition count_tuple (n : Z) : Tuple :=
  {| Desc := count_desc; Fields := [IntField n]; Rid := RidNil |}.

(** [NewInsertOp]. *)
Definition NewInsertOp (insertFile : OpFile) (child : Operator) : InsertOp :=
  {| insertFile := insertFile; iop_child := child; iop_res := count_desc |}.

(** [InsertOp.Descriptor]. *)
Definition InsertOp_Descriptor (iop : InsertOp) : TupleDesc := iop_res iop.

(** The closure [InsertOp.Iterator] returns, called with the captured
    [counter]: it pulls the child until nil, inserting each tuple, and
    returns the count tuple.  The result carries the new value of
    [counter]; [None] when the fuel runs out before the child does. *)
Fixpoint InsertOp_next (fuel : nat) (iop : InsertOp) (tid : TransactionID)
    (child_iter : Iter) (counter : Z) (σ : Σ)
  : option (outcome ((option Tuple * option error) * Z * Σ)) :=
  match fuel with
  | O => None
  | S fuel' =>
      match child_iter σ with
      | Panics msg => Some (Panics msg)
      | Blocks => Some Blocks
      | Returns ((_, Some err), σ1) => Some (Returns ((None, Some err), counter, σ1))
      | Returns ((None, None), σ1) =>
          Some (Returns ((Some {| Desc := InsertOp_Descriptor iop;
                                  Fields := [IntField counter]; Rid := RidNil |}, None),
                         counter, σ1))
      | Returns ((Some t, None), σ1) =>
          match insertTuple (insertFile iop) t tid σ1 with
          | Panics msg => Some (Panics msg)
          | Blocks => Some Blocks
          | Returns (Some err, σ2) => Some (Returns ((None, Some err), counter, σ2))
          | Returns (None, σ2) =>
              InsertOp_next fuel' iop tid child_iter (wrap_int64 (counter + 1)) σ2
          end
      end
  end.

(** [InsertOp.Iterator]: the child's iterator and the counter, at 0. *)
Definition InsertOp_Iterator (iop : InsertOp) (tid : TransactionID) (σ : Σ)
  : outcome (result (Iter * Z) * Σ) :=
  do (r, σ') <- Iterator (iop_child iop) tid σ;
  match r with
  | Err err => Returns (Err err, σ')
  | Ok child_iter => Returns (Ok (child_iter, 0), σ')
  end.

Record DeleteOp := {
  deleteFile : OpFile;
  dop_child : Operator;
  dop_res : TupleDesc
}.

(** [NewDeleteOp]. *)
Definition NewDeleteOp (deleteFile : OpFile) (child : Operator) : DeleteOp :=
  {| deleteFile := deleteFile; dop_child := child; dop_res := count_desc |}.

(** [DeleteOp.Descriptor]. *)
Definition DeleteOp_Descriptor (dop : DeleteOp) : TupleDesc := dop_res dop.

(** The loop of [DeleteOp.Iterator], which runs when the iterator is
    made: the final count, or the error. *)
Fixpoint DeleteOp_drain (fuel : nat) (dop : DeleteOp) (tid : TransactionID)
    (child_iter : Iter) (count : Z) (σ : Σ) : option (outcome (result Z * Σ)) :=
  match fuel with
  | O => None
  | S fuel' =>
      match child_iter σ with
      | Panics msg => Some (Panics msg)
      | Blocks => Some Blocks
      | Returns ((_, Some err), σ1) => Some (Returns (Err err, σ1))
      | Returns ((None, None), σ1) => Some (Returns (Ok count, σ1))
      | Returns ((Some t, None), σ1) =>
          match deleteTuple (deleteFile dop) t tid σ1 with
          | Panics msg => Some (Panics msg)
          | Blocks => Some Blocks
          | Returns (Some err, σ2) => Some (Returns (Err err, σ2))
          | Returns (None, σ2) =>
              DeleteOp_drain fuel' dop tid child_iter (wrap_int64 (count + 1)) σ2
          end
      end
  end.

(** The closure [DeleteOp.Iterator] returns, with the captured [count]. *)
Definition DeleteOp_next (dop : DeleteOp) (count : Z) (σ : Σ)
  : outcome ((option Tuple * option error) * Σ) :=
  Returns ((Some {| Desc := DeleteOp_Descriptor dop;
                    Fields := [IntField count]; Rid := RidNil |}, None), σ).

(** [DeleteOp.Iterator]: the count the closure captures. *)
Definition DeleteOp_Iterator (fuel : nat) (dop : DeleteOp) (tid : TransactionID) (σ : Σ)
  : option (outcome (result Z * Σ)) :=
  match Iterator (dop_child dop) tid σ with
  | Panics msg => Some (Panics msg)
  | Blocks => Some Blocks
  | Returns (Err err, σ') => Some (Returns (Err err, σ'))
  | Returns (Ok child_iter, σ') => DeleteOp_drain fuel dop tid child_iter 0 σ'
  end.

(** The child yields the tuples [ts] and then nil, and the file accepts
    each of them ([apply] is [insertTuple] or [deleteTuple]); the state
    goes from [σ] to [σ']. *)
Inductive drains (apply : Tuple -> TransactionID -> Σ -> outcome (option error * Σ))
    (tid : TransactionID) (child_iter : Iter) : Σ -> list Tuple -> Σ -> Prop :=
  | drains_nil σ σ' :
      child_iter σ = Returns ((None, None), σ') ->
      drains apply tid child_iter σ [] σ'
  | drains_cons σ t σ1 σ2 ts σ' :
      child_iter σ = Returns ((Some t, None), σ1) ->
      apply t tid σ1 = Returns (None, σ2) ->
      drains apply tid child_iter σ2 ts σ' ->
      drains apply tid child_iter σ (t :: ts) σ'.

End Operators.

Arguments Operator : clear implicits.
Arguments OpFile : clear implicits.
Arguments InsertOp : clear implicits.
Arguments DeleteOp : clear implicits.
Arguments Iter : clear implicits.

(** A child that yields the tuples of a list, and a file that collects
    what is inserted: the state is the list of the tuples still to come
    and the contents of the file. *)
Definition ex_list_iter : Iter (list Tuple * list Tuple) :=
  fun σ => match fst σ with
           | [] => Returns ((None, None), σ)
           | t :: rest => Returns ((Some t, None), (rest, snd σ))
           end.

Definition ex_list_child : Operator (list Tuple * list Tuple) :=
  {| Descriptor := ex_td;
     Iterator := fun tid σ => Returns (Ok ex_list_iter, σ) |}.

Definition ex_list_file : OpFile (list Tuple * list Tuple) :=
  {| insertTuple := fun t tid σ => Returns (None, (fst σ, snd σ ++ [t]));
     deleteTuple := fun t tid σ =>
       Returns (None, (fst σ, filter (fun t' => Fields t' <> Fields t) (snd σ))) |}.

(** ** Example data: a row file with one slot per page *)

(** 127 string fields: 4064 bytes per tuple, one slot per page. *)
Definition ex_wide_td : TupleDesc :=
  {| FieldTypes := replicate 127 {| Fname := "c"; TableQualifier := ""; Ftype := StringType |} |}.

Definition ex_wide_tuple (s : string) : Tuple :=
  {| Desc := ex_wide_td; Fields := replicate 127 (StringField s); Rid := RidNil |}.

(** The file [NewHeapFile] makes when the backing file does not exist. *)
Definition ex_heapFile : HeapFile :=
  {| backingFile := "t.dat"; tupleDesc := ex_wide_td; pagesNum := 0; availablePages := [] |}.

(** Transaction 1 inserts two tuples, which fill pages 0 and 1, and
    deletes the first, which frees the slot of page 0. *)
Definition ex_insert_history : outcome (HeapFile * World) :=
  let w0 := {| bp := BeginTransaction (NewBufferPool 10) 1; disk := ∅ |} in
  do (r1, w1) <- HeapFile_insertTuple ex_heapFile (ex_wide_tuple "a") 1 w0;
  do (r2, w2) <- HeapFile_insertTuple (snd r1) (ex_wide_tuple "b") 1 w1;
  do (_, w3) <- HeapFile_deleteTuple (snd r2)
                  {| Desc := ex_wide_td; Fields := Fields (ex_wide_tuple "a");
                     Rid := RidString "0-0" |} 1 w2;
  Returns (snd r2, w3).

(** The occupancy and the capacity of a cached page. *)
Definition cached_occupancy (w : World) (key : pageKey) : option (Z * Z) :=
  (fun p => (Page_numUsedSlots p, Page_numSlots p)) <$> Pages (bp w) !! key.

(** ** More of tuple.go: descriptors, field lookup, comparison, keys *)

(** The test of the loop of [findFieldInTd]: the same name, and the same
    type unless the type asked for is unknown. *)
Definition field_matches (field f : FieldType) : bool :=
  bool_decide (Fname f = Fname field) &&
  (bool_decide (Ftype f = Ftype field) || bool_decide (Ftype field = UnknownType)).

(** The loop of [findFieldInTd], from index [i] with the current [best]
    (-1 when there is none). *)
Fixpoint findFieldInTd_loop (field : FieldType) (fields : list FieldType) (i best : Z)
  : Z * option error :=
  match fields with
  | [] =>
      if negb (best =? -1) then (best, None)
      else (-1, Some (GoDBError IncompatibleTypesError
                        ("field " +:+ TableQualifier field +:+ "." +:+ Fname field
                         +:+ " not found")))
  | f :: rest =>
      if field_matches field f then
        if bool_decide (TableQualifier field = "") && negb (best =? -1)
        then (0, Some (GoDBError AmbiguousNameError
                         ("select name " +:+ Fname f +:+ " is ambiguous")))
        else if bool_decide (TableQualifier f = TableQualifier field) || (best =? -1)
             then findFieldInTd_loop field rest (i + 1) i
             else findFieldInTd_loop field rest (i + 1) best
      else findFieldInTd_loop field rest (i + 1) best
  end.

(** [findFieldInTd]: the index and the error, as the code returns them. *)
Definition findFieldInTd (field : FieldType) (desc : TupleDesc) : Z * option error :=
  findFieldInTd_loop field (FieldTypes desc) 0 (-1).

(** [orderByState]. *)
Inductive orderByState := OrderedLessThan | OrderedEqual | OrderedGreaterThan.

(** [%T] of a field value. *)
Definition Sprintf_T (v : DBValue) : string :=
  match v with
  | IntField _ => "godb.IntField"
  | StringField _ => "godb.StringField"
  | NilValue => "<nil>"
  end.

(** [compareFields]: integers by value, strings byte by byte; two values
    of different types are an error. *)
Definition compareFields (val1 val2 : DBValue) : orderByState * option error :=
  match val1, val2 with
  | IntField val_1, IntField val_2 =>
      if val_1 >? val_2 then (OrderedGreaterThan, None)
      else if val_1 =? val_2 then (OrderedEqual, None)
      else (OrderedLessThan, None)
  | StringField val_1, StringField val_2 =>
      match String.compare val_1 val_2 with
      | Gt => (OrderedGreaterThan, None)
      | Eq => (OrderedEqual, None)
      | Lt => (OrderedLessThan, None)
      end
  | _, _ =>
      (OrderedEqual,
       Some (errors_New ("unsupported field comparison between " +:+ Sprintf_T val1
                         +:+ " and " +:+ Sprintf_T val2)))
  end.

(** What [Tuple.writeTo] leaves in the buffer when it returns, with an
    error or without: the fields before the first one that is neither a
    string nor an int. *)
Fixpoint writeTo_buffer (fields : list DBValue) (b : list byte) : list byte :=
  match fields with
  | [] => b
  | StringField v :: rest => writeTo_buffer rest (writeStringField b v)
  | IntField v :: rest => writeTo_buffer rest (writeIntField b v)
  | NilValue :: _ => b
  end.

(** [Tuple.tupleKey]: the bytes [writeTo] wrote, as a string; the error
    of [writeTo] is dropped. *)
Definition Tuple_tupleKey (t : Tuple) : string :=
  string_of_list_byte (writeTo_buffer (Fields t) []).

(** ** More of heap_page.go: the page iterator *)

(** The loop of the closure [heapPage.tupleIter] returns, over the slots
    from index [i] on: the first tuple that is not nil and the index after
    it. *)
Fixpoint tupleIter_scan (slots : list (option Tuple)) (i : nat) : option Tuple * nat :=
  match slots with
  | [] => (None, i)
  | None :: rest => tupleIter_scan rest (S i)
  | Some res :: _ => (Some res, S i)
  end.

(** The closure [heapPage.tupleIter] returns, with the captured index [i];
    the page is read at each call. *)
Definition heapPage_tupleIter (p : heapPage) (i : nat) : option Tuple * nat :=
  if hp_numUsedSlots p =? 0 then (None, i)
  else tupleIter_scan (drop i (hp_tuples p)) i.

(** The tuples [n] calls of the closure return, up to the first nil. *)
Fixpoint heapPage_tupleIter_pulls (n : nat) (p : heapPage) (i : nat) : list Tuple :=
  match n with
  | O => []
  | S n' =>
      match heapPage_tupleIter p i with
      | (Some t, i') => t :: heapPage_tupleIter_pulls n' p i'
      | (None, _) => []
      end
  end.

(** ** Invariants of the buffer pool *)

#[global] Instance RWPerm_eq_dec : EqDecision RWPerm.
Proof. solve_decision. Defined.

(** No current transaction holds a lock on a page that another current
    transaction has locked for writing. *)
Definition locks_compatible (bp : BufferPool) : Prop :=
  forall t1 t2 key,
    t1 ∈ currentTransactions bp -> t2 ∈ currentTransactions bp -> t1 <> t2 ->
    key ∈ set_at (writePermissionLocks bp) t1 ->
    (key ∉ set_at (readPermissionLocks bp) t2) /\
    (key ∉ set_at (writePermissionLocks bp) t2).

(** The cache holds no more pages than the pool has room for. *)
Definition within_capacity (bp : BufferPool) : Prop :=
  Z.of_nat (size (Pages bp)) <= NumPages bp /\ NumPages bp < 2 ^ 63.

(** ** More of heap_file.go: the size of the file *)

(** [HeapFile.NumPages]: the size of the backing file in pages, rounded
    up; 0 when the file does not exist ([os.Stat] fails). *)
Definition HeapFile_NumPages (f : HeapFile) (d : gmap string (list byte)) : Z :=
  match d !! backingFile f with
  | None => 0
  | Some content =>
      let size := Z.of_nat (length content) in
      let num_pages := Z.quot size PageSize in
      let remainder := Z.rem size PageSize in
      if negb (remainder =? 0) then wrap_int64 (num_pages + 1) else num_pages
  end.

(** The row file of the example page. *)
Definition ex_rowFile : HeapFile :=
  {| backingFile := "test.dat"; tupleDesc := ex_td; pagesNum := 0; availablePages := [] |}.

(** ** The SUM aggregation state (agg_state.go) *)

Record SumAggState := {
  sum_sum : Z;
  sum_alias : string;
  sum_expr : Expr
}.

(** [SumAggState.Init] (it returns nil). *)
Definition SumAggState_Init (a : SumAggState) (alias : string) (expr : Expr) : SumAggState :=
  {| sum_sum := 0; sum_alias := alias; sum_expr := expr |}.

(** [SumAggState.AddTuple]: the error of the expression is dropped, and
    a value that is no integer counts as zero. *)
Definition SumAggState_AddTuple (a : SumAggState) (t : option Tuple) : SumAggState :=
  let get := fst (EvalExpr (sum_expr a) t) in
  let add := as_IntField get in
  {| sum_sum := wrap_int64 (sum_sum a + add); sum_alias := sum_alias a;
     sum_expr := sum_expr a |}.

(** [SumAggState.GetTupleDesc]. *)
Definition SumAggState_GetTupleDesc (a : SumAggState) : TupleDesc :=
  {| FieldTypes := [ {| Fname := sum_alias a; TableQualifier := ""; Ftype := IntType |} ] |}.

(** [SumAggState.Finalize]. *)
Definition SumAggState_Finalize (a : SumAggState) : Tuple :=
  {| Desc := SumAggState_GetTupleDesc a; Fields := [IntField (sum_sum a)]; Rid := RidNil |}.

(** [Init], then [AddTuple] for each tuple in turn, then [Finalize]. *)
Definition SumAggState_run (a : SumAggState) (alias : string) (expr : Expr)
    (ts : list Tuple) : Tuple :=
  SumAggState_Finalize
    (foldl (fun a t => SumAggState_AddTuple a (Some t)) (SumAggState_Init a alias expr) ts).

Section MoreOperators.
Context {Σ : Type}.

(** The next calls of an iterator return the tuples [ts], without
    error; the state goes from [σ] to [σ']. *)
Inductive yields (child_iter : Iter Σ) : Σ -> list Tuple -> Σ -> Prop :=
  | yields_nil σ : yields child_iter σ [] σ
  | yields_cons σ t σ1 ts σ' :
      child_iter σ = Returns ((Some t, None), σ1) ->
      yields child_iter σ1 ts σ' ->
      yields child_iter σ (t :: ts) σ'.

(** ** The Limit operator (limit_op.go) *)

Record LimitOp := {
  lop_child : Operator Σ;
  limitTups : Expr
}.

(** [NewLimitOp]. *)
Definition NewLimitOp (lim : Expr) (child : Operator Σ) : LimitOp :=
  {| lop_child := child; limitTups := lim |}.

(** [LimitOp.Iterator]: what the closure captures, the child's iterator
    and the value of the limit; the errors of both calls are dropped, and
    a child that fails leaves a nil iterator.  The counter starts at 0
    and the error returned is nil. *)
Definition LimitOp_Iterator (l : LimitOp) (tid : TransactionID) (σ : Σ)
  : outcome ((option (Iter Σ) * DBValue) * Σ) :=
  let expr := fst (EvalExpr (limitTups l) None) in
  do (r, σ') <- Iterator (lop_child l) tid σ;
  let child_iter := match r with Ok child_iter => Some child_iter | Err _ => None end in
  Returns ((child_iter, expr), σ').

(** The closure [LimitOp.Iterator] returns, called with the captured
    [count]; the result carries the new value of [count].  The child is
    asked for a tuple before the count is looked at. *)
Definition LimitOp_next (child_iter : option (Iter Σ)) (expr : DBValue) (count : Z) (σ : Σ)
  : outcome ((option Tuple * option error) * Z * Σ) :=
  match child_iter with
  | None => Panics "runtime error: invalid memory address or nil pointer dereference"
  | Some child_iter =>
      do (r, σ1) <- child_iter σ;
      match r with
      | (_, Some err) => Returns ((None, Some err), count, σ1)
      | (None, None) => Returns ((None, None), count, σ1)
      | (Some tuple, None) =>
          match expr with
          | IntField Value =>
              if count >=? Value then Returns ((None, None), count, σ1)
              else Returns ((Some tuple, None), wrap_int64 (count + 1), σ1)
          | _ => Panics "interface conversion: DBValue is not godb.IntField"
          end
      end
  end.

(** The results of [n] calls of the closure in a row. *)
Fixpoint LimitOp_pulls (n : nat) (child_iter : option (Iter Σ)) (expr : DBValue)
    (count : Z) (σ : Σ) : outcome (list (option Tuple * option error) * Z * Σ) :=
  match n with
  | O => Returns ([], count, σ)
  | S n' =>
      do (r, σ1) <- LimitOp_next child_iter expr count σ;
      do (rs, σ2) <- LimitOp_pulls n' child_iter expr (snd r) σ1;
      Returns (fst r :: fst rs, snd rs, σ2)
  end.

(** ** The Project operator (project_op.go) *)

Record Project := {
  selectFields : list Expr;
  outputNames : list string;
  prj_child : Operator Σ;
  distinct : bool
}.

(** [NewProjectOp]. *)
Definition NewProjectOp (selectFields : list Expr) (outputNames : list string)
    (distinct : bool) (child : Operator Σ) : result Project :=
  if negb (length selectFields =? length outputNames)%nat
  then Err (errors_New "these should be the same length")
  else Ok {| selectFields := selectFields; outputNames := outputNames;
             prj_child := child; distinct := distinct |}.

(** The loop of [Project.Descriptor] from index [i]: the type of each
    expression under the output name of the same index; a missing name
    panics. *)
Fixpoint Project_Descriptor_loop (exprs : list Expr) (names : list string) (i : nat)
  : outcome (list FieldType) :=
  match exprs with
  | [] => Returns []
  | e :: rest =>
      let get := GetExprType e in
      match names !! i with
      | None => Panics "runtime error: index out of range"
      | Some name =>
          do fields <- Project_Descriptor_loop rest names (S i);
          Returns ({| Fname := name; TableQualifier := TableQualifier get;
                      Ftype := Ftype get |} :: fields)
      end
  end.

(** [Project.Descriptor]. *)
Definition Project_Descriptor (p : Project) : outcome TupleDesc :=
  do fields <- Project_Descriptor_loop (selectFields p) (outputNames p) 0;
  Returns {| FieldTypes := fields |}.

(** The loop that fills [new.Fields]: the values of the expressions on
    the tuple, or the first error. *)
Fixpoint Project_eval (exprs : list Expr) (tuple : Tuple) : result (list DBValue) :=
  match exprs with
  | [] => Ok []
  | field :: rest =>
      match EvalExpr field (Some tuple) with
      | (_, Some err) => Err err
      | (temp, None) =>
          match Project_eval rest tuple with
          | Err err => Err err
          | Ok vs => Ok (temp :: vs)
          end
      end
  end.

(** [Project.Iterator]: what the closure captures, the child's iterator
    (nil when the child fails: its error is dropped), the descriptor and
    the map of the keys seen, nil unless the projection is distinct. *)
Definition Project_Iterator (p : Project) (tid : TransactionID) (σ : Σ)
  : outcome ((option (Iter Σ) * TupleDesc * option (gset string)) * Σ) :=
  do (r, σ') <- Iterator (prj_child p) tid σ;
  let child_iter := match r with Ok child_iter => Some child_iter | Err _ => None end in
  do proj_desc <- Project_Descriptor p;
  let seenKeys := if distinct p then Some ∅ else None in
  Returns ((child_iter, proj_desc, seenKeys), σ').

(** The closure [Project.Iterator] returns, called with the captured
    [seenKeys]; the result carries the new value of [seenKeys].  The error
    of the child is dropped.  Each unit of fuel is one iteration of the
    loop; [None] when the fuel runs out. *)
Fixpoint Project_next (fuel : nat) (p : Project) (child_iter : option (Iter Σ))
    (proj_desc : TupleDesc) (seenKeys : option (gset string)) (σ : Σ)
  : option (outcome ((option Tuple * option error) * option (gset string) * Σ)) :=
  match fuel with
  | O => None
  | S fuel' =>
      match child_iter with
      | None => Some (Panics "runtime error: invalid memory address or nil pointer dereference")
      | Some iter =>
          match iter σ with
          | Panics msg => Some (Panics msg)
          | Blocks => Some Blocks
          | Returns ((None, _), σ1) => Some (Returns ((None, None), seenKeys, σ1))
          | Returns ((Some tuple, _), σ1) =>
              match Project_eval (selectFields p) tuple with
              | Err err => Some (Returns ((None, Some err), seenKeys, σ1))
              | Ok fields =>
                  let new := {| Desc := proj_desc; Fields := fields; Rid := RidNil |} in
                  if distinct p then
                    let tupleKey := Tuple_tupleKey new in
                    if bool_decide (tupleKey ∈ default ∅ seenKeys)
                    then Project_next fuel' p child_iter proj_desc seenKeys σ1
                    else
                      match seenKeys with
                      | None => Some (Panics "assignment to entry in nil map")
                      | Some seen =>
                          Some (Returns ((Some new, None), Some ({[tupleKey]} ∪ seen), σ1))
                      end
                  else Some (Returns ((Some new, None), seenKeys, σ1))
              end
          end
      end
  end.

(** The results of [n] calls of the closure in a row, each with [fuel]
    iterations at most. *)
Fixpoint Project_pulls (n fuel : nat) (p : Project) (child_iter : option (Iter Σ))
    (proj_desc : TupleDesc) (seenKeys : option (gset string)) (σ : Σ)
  : option (outcome (list (option Tuple * option error) * option (gset string) * Σ)) :=
  match n with
  | O => Some (Returns ([], seenKeys, σ))
  | S n' =>
      match Project_next fuel p child_iter proj_desc seenKeys σ with
      | None => None
      | Some (Panics msg) => Some (Panics msg)
      | Some Blocks => Some Blocks
      | Some (Returns (r, seenKeys1, σ1)) =>
          match Project_pulls n' fuel p child_iter proj_desc seenKeys1 σ1 with
          | None => None
          | Some (Panics msg) => Some (Panics msg)
          | Some Blocks => Some Blocks
          | Some (Returns (rs, seenKeys2, σ2)) => Some (Returns (r :: rs, seenKeys2, σ2))
          end
      end
  end.

End MoreOperators.

Arguments LimitOp : clear implicits.
Arguments Project : clear implicits.

(** A constant integer expression, as the parser makes it for a limit. *)
Definition ex_const_expr (n : Z) : Expr :=
  {| EvalExpr := fun _ => (IntField n, None);
     GetExprType := {| Fname := "const"; TableQualifier := ""; Ftype := IntType |} |}.

(** The expression that reads the field [name] of the example tuples. *)
Definition ex_name_expr : Expr :=
  {| EvalExpr := fun t =>
       match t with
       | Some t => (default NilValue (Fields t !! 0%nat), None)
       | None => (NilValue, Some (errors_New "nil tuple"))
       end;
     GetExprType := {| Fname := "name"; TableQualifier := ""; Ftype := StringType |} |}.

(* ------------------------------------------------------------------ *)
(** * Proofs *)

(** Closes an equation between closed terms by evaluating both sides. *)
Ltac vm_refl :=
  lazymatch goal with
  | |- ?a = ?b => vm_cast_no_check (@eq_refl _ b)
  end.

Example le_bytes_ex : le_bytes 4 511 = ["255"; "001"; "000"; "000"]%byte.
Proof. reflexivity. Qed.

(** ** The wire format: integers *)

Lemma Z_of_byte_range b : 0 <= Z_of_byte b < 256.
Proof.
  unfold Z_of_byte. pose proof (Byte.to_N_bounded b). lia.
Qed.

Lemma Z_of_byte_of_Z z : Z_of_byte (byte_of_Z z) = z mod 256.
Proof.
  unfold Z_of_byte, byte_of_Z.
  change 255 with (Z.ones 8). rewrite Z.land_ones by lia.
  change (2 ^ 8) with 256.
  pose proof (Z.mod_pos_bound z 256 ltac:(lia)) as Hb.
  destruct (Byte.of_N (Z.to_N (z mod 256))) as [b|] eqn:E; simpl.
  - apply Byte.to_of_N in E. rewrite E. lia.
  - apply Byte.of_N_None_iff in E. lia.
Qed.

Lemma byte_of_Z_of_byte b : byte_of_Z (Z_of_byte b) = b.
Proof.
  unfold Z_of_byte, byte_of_Z.
  change 255 with (Z.ones 8). rewrite Z.land_ones by lia.
  change (2 ^ 8) with 256.
  pose proof (Byte.to_N_bounded b).
  rewrite Z.mod_small by lia. rewrite N2Z.id, Byte.of_to_N. reflexivity.
Qed.

Lemma length_le_bytes n z : length (le_bytes n z) = n.
Proof. revert z. induction n as [|n IH]; intros z; simpl; [done|]. by rewrite IH. Qed.

Lemma le_value_le_bytes n z : le_value (le_bytes n z) = z mod 2 ^ (8 * Z.of_nat n).
Proof.
  revert z. induction n as [|n IH]; intros z.
  - simpl. by rewrite Z.mod_1_r.
  - cbn [le_bytes le_value]. rewrite IH, Z_of_byte_of_Z.
    rewrite Z.shiftl_mul_pow2, Z.shiftr_div_pow2 by lia.
    change (2 ^ 8) with 256.
    replace (8 * Z.of_nat (S n)) with (8 + 8 * Z.of_nat n) by lia.
    rewrite Z.pow_add_r by lia. change (2 ^ 8) with 256.
    rewrite Z.rem_mul_r by lia. lia.
Qed.

Lemma wrap_int32_mod z : in_int32 z -> wrap_int32 (z mod 2 ^ 32) = z.
Proof.
  unfold wrap_int32, in_int32. intros Hz.
  rewrite Zplus_mod_idemp_l.
  rewrite Z.mod_small; lia.
Qed.

Lemma wrap_int64_mod z : in_int64 z -> wrap_int64 (z mod 2 ^ 64) = z.
Proof.
  unfold wrap_int64, in_int64. intros Hz.
  rewrite Zplus_mod_idemp_l.
  rewrite Z.mod_small; lia.
Qed.

Lemma wrap_int32_id z : in_int32 z -> wrap_int32 z = z.
Proof. unfold wrap_int32, in_int32. intros Hz. rewrite Z.mod_small; lia. Qed.

Lemma int32_of_le_bytes z : in_int32 z -> int32_of_bytes (le_bytes 4 z) = z.
Proof.
  intros Hz. unfold int32_of_bytes. rewrite le_value_le_bytes.
  by apply wrap_int32_mod.
Qed.

Lemma int64_of_le_bytes z : in_int64 z -> int64_of_bytes (le_bytes 8 z) = z.
Proof.
  intros Hz. unfold int64_of_bytes. rewrite le_value_le_bytes.
  by apply wrap_int64_mod.
Qed.

(** Reading back what was written in front of the buffer. *)
Lemma buf_read_app (n : Z) (xs rest : list byte) :
  0 < n -> Z.of_nat (length xs) = n -> buf_read n (xs ++ rest) = Ok (xs, rest).
Proof.
  intros Hn Hlen. unfold buf_read.
  destruct xs as [|x xs]; [simpl in Hlen; lia|].
  rewrite bool_decide_eq_false_2 by done.
  rewrite length_app.
  destruct (Z.ltb_spec (Z.of_nat (length (x :: xs) + length rest)) n); [lia|].
  replace (Z.to_nat n) with (length (x :: xs)) by lia.
  by rewrite take_app_length, drop_app_length.
Qed.

(** ** The wire format: strings and tuples *)

Lemma trim_right_zeros_replicate k : trim_right_zeros (replicate k "000"%byte) = [].
Proof. induction k as [|k IH]; simpl; [done|]. by rewrite IH. Qed.

Lemma trim_right_zeros_app_zeros bs k :
  trim_right_zeros (bs ++ replicate k "000"%byte) = trim_right_zeros bs.
Proof.
  induction bs as [|b bs IH]; simpl.
  - apply trim_right_zeros_replicate.
  - by rewrite IH.
Qed.

Lemma trim_right_zeros_id bs :
  last bs <> Some "000"%byte -> trim_right_zeros bs = bs.
Proof.
  induction bs as [|b bs IH]; [done|].
  intros Hlast. simpl.
  destruct bs as [|b' bs'].
  - simpl. simpl in Hlast. rewrite bool_decide_eq_false_2; [done|congruence].
  - rewrite IH; [done|]. exact Hlast.
Qed.

Lemma StringLength_pos : 0 < StringLength.
Proof. reflexivity. Qed.

Lemma length_zeros n : 0 <= n -> Z.of_nat (length (zeros n)) = n.
Proof. intros Hn. unfold zeros. rewrite length_replicate. lia. Qed.

Lemma length_field_bytes v ft :
  conforms v ft -> Z.of_nat (length (field_bytes v)) = field_width ft.
Proof.
  unfold conforms, field_width.
  destruct v as [z|s|]; destruct (Ftype ft); try done; simpl; intros Hc.
  - destruct Hc as [Hlen _].
    rewrite take_ge by lia.
    rewrite length_app, Nat2Z.inj_add, length_zeros; lia.
Qed.

Lemma field_bytes_string_fits s :
  string_fits s ->
  field_bytes (StringField s) =
    list_byte_of_string s ++ zeros (StringLength - Z.of_nat (length (list_byte_of_string s))).
Proof. intros [Hlen _]. simpl. by rewrite take_ge by lia. Qed.

Lemma readStringField_roundtrip s rest :
  string_fits s ->
  readStringField (field_bytes (StringField s) ++ rest) = Ok (StringField s, rest).
Proof.
  intros Hs. pose proof Hs as [Hlen Hlast].
  unfold readStringField.
  rewrite buf_read_app.
  - rewrite field_bytes_string_fits by done.
    unfold zeros. rewrite trim_right_zeros_app_zeros.
    rewrite trim_right_zeros_id by done.
    by rewrite string_of_list_byte_of_string.
  - apply StringLength_pos.
  - rewrite field_bytes_string_fits by done.
    rewrite length_app, Nat2Z.inj_add, length_zeros; lia.
Qed.

Lemma readIntField_roundtrip z rest :
  in_int64 z ->
  readIntField (field_bytes (IntField z) ++ rest) = Ok (IntField z, rest).
Proof.
  intros Hz. unfold readIntField.
  change (field_bytes (IntField z)) with (le_bytes 8 z).
  rewrite buf_read_app; [|lia|by rewrite length_le_bytes].
  by rewrite int64_of_le_bytes.
Qed.

Lemma writeTo_fields_ok fs descs b :
  Forall2 conforms fs descs ->
  writeTo_fields fs b = Ok (b ++ tuple_bytes fs).
Proof.
  intros Hf. revert b. induction Hf as [|v ft fs descs Hc Hf IH]; intros b.
  - simpl. unfold tuple_bytes. simpl. by rewrite app_nil_r.
  - unfold tuple_bytes. simpl.
    destruct v as [z|s|].
    + rewrite IH. unfold writeIntField, tuple_bytes. simpl. by rewrite <- app_assoc.
    + rewrite IH. unfold writeStringField, tuple_bytes. simpl. by rewrite <- app_assoc.
    + unfold conforms in Hc. by destruct (Ftype ft).
Qed.

Lemma readTupleFrom_fields_roundtrip fs descs rest :
  Forall2 conforms fs descs ->
  readTupleFrom_fields descs (tuple_bytes fs ++ rest) = Ok (fs, rest).
Proof.
  intros Hf. revert rest. induction Hf as [|v ft fs descs Hc Hf IH]; intros rest.
  - done.
  - unfold tuple_bytes. cbn [map concat readTupleFrom_fields].
    rewrite <- app_assoc. fold (tuple_bytes fs).
    unfold conforms in Hc.
    destruct v as [z|s|]; destruct (Ftype ft) eqn:Hty; try done.
    + rewrite readIntField_roundtrip by done. by rewrite IH.
    + rewrite readIntField_roundtrip by done. by rewrite IH.
    + rewrite readStringField_roundtrip by done. by rewrite IH.
Qed.

Lemma length_tuple_bytes fs desc :
  Forall2 conforms fs (FieldTypes desc) ->
  Z.of_nat (length (tuple_bytes fs)) = bytes_per_tuple desc.
Proof.
  unfold bytes_per_tuple. generalize (FieldTypes desc) as descs.
  intros descs Hf. induction Hf as [|v ft fs descs Hc Hf IH]; [done|].
  unfold tuple_bytes. simpl. rewrite length_app, Nat2Z.inj_add.
  fold (tuple_bytes fs). rewrite IH. by rewrite (length_field_bytes v ft).
Qed.

(** ** Pages on the wire *)

Lemma stored_cons_None tuples : stored (None :: tuples) = stored tuples.
Proof. done. Qed.

Lemma stored_cons_Some t tuples : stored (Some t :: tuples) = t :: stored tuples.
Proof. done. Qed.

Lemma stored_app l1 l2 : stored (l1 ++ l2) = stored l1 ++ stored l2.
Proof. unfold stored. apply omap_app. Qed.

Lemma stored_map_Some ts : stored (map Some ts) = ts.
Proof. induction ts as [|t ts IH]; [done|]. cbn [map]. by rewrite stored_cons_Some, IH. Qed.

Lemma stored_replicate_None k : stored (replicate k None) = [].
Proof. induction k as [|k IH]; [done|]. cbn [replicate]. by rewrite stored_cons_None. Qed.

Lemma write_tuples_ok tuples buf :
  Forall (fun t => exists descs, Forall2 conforms (Fields t) descs) (stored tuples) ->
  write_tuples tuples buf = Ok (buf ++ page_payload (stored tuples)).
Proof.
  revert buf. induction tuples as [|[t|] tuples IH]; intros buf Hwf.
  - simpl. unfold page_payload. simpl. by rewrite app_nil_r.
  - rewrite stored_cons_Some in Hwf. apply Forall_cons in Hwf as [[descs Ht] Hwf].
    cbn [write_tuples]. unfold Tuple_writeTo. rewrite (writeTo_fields_ok _ descs) by done.
    rewrite IH by done. rewrite stored_cons_Some.
    unfold page_payload. simpl. by rewrite <- app_assoc.
  - rewrite stored_cons_None in Hwf. cbn [write_tuples]. rewrite stored_cons_None.
    by apply IH.
Qed.

Lemma length_page_payload ts desc :
  Forall (fun t => Forall2 conforms (Fields t) (FieldTypes desc)) ts ->
  Z.of_nat (length (page_payload ts)) = Z.of_nat (length ts) * bytes_per_tuple desc.
Proof.
  intros Hwf. induction Hwf as [|t ts Ht Hwf IH]; [done|].
  unfold page_payload. cbn [map concat]. fold (page_payload ts).
  rewrite length_app, Nat2Z.inj_add, IH, (length_tuple_bytes _ desc) by done.
  cbn [length]. lia.
Qed.

Lemma find_index_is_nil_app {A} (done : list A) k i :
  (0 < k)%nat ->
  find_index is_nil (map Some done ++ replicate k None) i = Some (i + length done)%nat.
Proof.
  intros Hk. revert i. induction done as [|x done IH]; intros i.
  - destruct k; [lia|]. simpl. f_equal. lia.
  - simpl. rewrite IH. f_equal. lia.
Qed.

Lemma insert_first_free {A} (done : list A) k (x : A) :
  <[length done := Some x]> (map Some done ++ replicate (S k) None)
  = map Some (done ++ [x]) ++ replicate k None.
Proof.
  rewrite insert_app_r_alt by (rewrite length_map; lia).
  rewrite length_map, Nat.sub_diag. simpl.
  rewrite map_app. simpl. by rewrite <- app_assoc.
Qed.

Lemma heapPage_init_loop_ok ts : forall pageNumber desc done k rest,
  Forall (fun t => Forall2 conforms (Fields t) (FieldTypes desc)) ts ->
  (length ts <= k)%nat ->
  heapPage_init_loop (length ts) (length done) pageNumber desc
    (page_payload ts ++ rest) (map Some done ++ replicate k None)
  = Returns (map Some (done ++ reload_from pageNumber desc (length done) ts)
             ++ replicate (k - length ts) None).
Proof.
  induction ts as [|t ts IH]; intros pageNumber desc done k rest Hwf Hk.
  - simpl. by rewrite app_nil_r, Nat.sub_0_r.
  - apply Forall_cons in Hwf as [Ht Hwf]. simpl in Hk.
    destruct k as [|k]; [lia|].
    cbn [length heapPage_init_loop].
    unfold readTupleFrom, page_payload. cbn [map concat]. fold (page_payload ts).
    rewrite <- app_assoc, readTupleFrom_fields_roundtrip by done.
    cbn [Fields].
    destruct (Nat.ltb_spec (length done) (length (map Some done ++ replicate (S k) None)))
      as [_|Hge]; [|rewrite length_app, length_map, length_replicate in Hge; lia].
    rewrite insert_first_free.
    replace (S (length done)) with (length (done ++ [reload_tuple pageNumber desc (length done) t]))
      by (rewrite length_app; simpl; lia).
    unfold reload_tuple at 1.
    rewrite (IH pageNumber desc _ k rest Hwf) by lia.
    rewrite <- app_assoc. cbn [app reload_from].
    rewrite length_app. cbn [length].
    replace (length done + 1)%nat with (S (length done)) by lia.
    done.
Qed.

(** ** Multisets of tuples *)

Lemma TupleDesc_equals_fields_compat d0 d1 d2 :
  Forall2 same_field d1 d2 ->
  TupleDesc_equals_fields d0 d1 = TupleDesc_equals_fields d0 d2.
Proof.
  intros Hf. revert d0. induction Hf as [|f1 f2 d1 d2 [Hn Ht] Hf IH]; intros d0.
  - done.
  - destruct d0 as [|f0 d0]; [done|]. simpl. by rewrite Hn, Ht, IH.
Qed.

Lemma Tuple_equals_compat t0 t1 t2 :
  tuple_equiv t1 t2 ->
  Tuple_equals (Some t0) (Some t1) = Tuple_equals (Some t0) (Some t2).
Proof.
  intros [Hf Hd]. unfold Tuple_equals, TupleDesc_equals.
  by rewrite Hf, (TupleDesc_equals_fields_compat _ _ _ Hd).
Qed.

Lemma same_tuple_multiset_Forall2 ts1 ts2 :
  Forall2 tuple_equiv ts1 ts2 -> same_tuple_multiset ts1 ts2.
Proof.
  intros Hf t0. unfold count_equals.
  induction Hf as [|t1 t2 ts1 ts2 Ht Hf IH]; [done|].
  rewrite !filter_cons. rewrite (Tuple_equals_compat t0 t1 t2 Ht).
  destruct (decide (Tuple_equals (Some t0) (Some t2) = true));
    [cbn [length]; f_equal|]; exact IH.
Qed.

Lemma same_field_refl d : same_field d d.
Proof. done. Qed.

Lemma Forall2_same_field_refl ds : Forall2 same_field ds ds.
Proof. induction ds; constructor; done. Qed.

Lemma reload_from_equiv pageNumber desc i ts :
  Forall (fun t => Desc t = desc) ts ->
  Forall2 tuple_equiv ts (reload_from pageNumber desc i ts).
Proof.
  intros Hwf. revert i. induction Hwf as [|t ts Ht Hwf IH]; intros i; simpl.
  - constructor.
  - constructor; [|apply IH].
    split; [done|]. simpl. rewrite Ht. apply Forall2_same_field_refl.
Qed.

Lemma length_stored_le tuples : (length (stored tuples) <= length tuples)%nat.
Proof.
  induction tuples as [|[t|] tuples IH]; [simpl; lia| |].
  - rewrite stored_cons_Some. simpl. lia.
  - rewrite stored_cons_None. simpl. lia.
Qed.

Lemma padBuffer_app buf n : padBuffer buf n = buf ++ zeros (n - Z.of_nat (length buf)).
Proof.
  unfold padBuffer. destruct (Z.ltb_spec (Z.of_nat (length buf)) n); [done|].
  unfold zeros. replace (Z.to_nat (n - Z.of_nat (length buf))) with 0%nat by lia.
  simpl. by rewrite app_nil_r.
Qed.

Lemma heapPage_wf_used_int32 h : heapPage_wf h -> in_int32 (hp_numUsedSlots h).
Proof.
  intros [Hs Hu Hi _]. unfold in_int32 in *.
  pose proof (length_stored_le (hp_tuples h)). lia.
Qed.

Lemma heapPage_wf_conforms h :
  heapPage_wf h ->
  Forall (fun t => Forall2 conforms (Fields t) (FieldTypes (hp_desc h))) (stored (hp_tuples h)).
Proof. intros [_ _ _ Ht]. eapply Forall_impl; [exact Ht|]. by intros t [_ ?]. Qed.

(** The bytes [heapPage.toBuffer] produces for a well-formed page. *)
Lemma heapPage_toBuffer_ok h :
  heapPage_wf h ->
  heapPage_toBuffer h =
    Ok (padBuffer (le_bytes 4 (hp_numSlots h) ++ le_bytes 4 (hp_numUsedSlots h) ++
                   page_payload (stored (hp_tuples h))) PageSize).
Proof.
  intros Hwf. unfold heapPage_toBuffer, writeBinary.
  rewrite write_tuples_ok.
  - by rewrite app_nil_l, <- app_assoc.
  - eapply Forall_impl; [apply (heapPage_wf_conforms h Hwf)|].
    intros t Ht. eexists. exact Ht.
Qed.

(** Serializing a well-formed row page and loading the bytes into a page
    of the same descriptor gives the stored tuples back, in slot order and
    with fresh record ids. *)
Lemma heapPage_roundtrip h h0 :
  heapPage_wf h -> hp_desc h0 = hp_desc h ->
  exists buf h',
    heapPage_toBuffer h = Ok buf /\
    heapPage_initFromBuffer h0 buf = Returns (h', None) /\
    hp_numSlots h' = hp_numSlots h /\
    hp_numUsedSlots h' = hp_numUsedSlots h /\
    stored (hp_tuples h') =
      reload_from (hp_pageNumber h0) (hp_desc h) 0 (stored (hp_tuples h)).
Proof.
  intros Hwf Hdesc. pose proof Hwf as [Hs Hu Hi Ht].
  eexists _, _. split; [by apply heapPage_toBuffer_ok|].
  rewrite padBuffer_app. unfold heapPage_initFromBuffer.
  rewrite <- !app_assoc.
  rewrite buf_read_app by (rewrite ?length_le_bytes; lia).
  rewrite buf_read_app by (rewrite ?length_le_bytes; lia).
  rewrite !int32_of_le_bytes by (by apply heapPage_wf_used_int32 || done).
  unfold make_tuples.
  destruct (Z.ltb_spec (hp_numSlots h) 0) as [Hneg|_]; [exfalso; lia|].
  cbn [obind].
  rewrite Hu, Nat2Z.id, Hdesc.
  pose proof (heapPage_init_loop_ok (stored (hp_tuples h)) (hp_pageNumber h0) (hp_desc h)
                [] (Z.to_nat (hp_numSlots h))) as Hloop.
  cbn [length map app] in Hloop. rewrite Hloop; clear Hloop.
  - cbn [obind]. split; [reflexivity|]. cbn [hp_numSlots hp_numUsedSlots hp_tuples].
    split; [done|]. split; [done|].
    by rewrite stored_app, stored_map_Some, stored_replicate_None, app_nil_r.
  - by apply heapPage_wf_conforms.
  - pose proof (length_stored_le (hp_tuples h)). lia.
Qed.

Lemma heapPage_roundtrip_multiset h h0 :
  heapPage_wf h -> hp_desc h0 = hp_desc h ->
  exists buf h',
    heapPage_toBuffer h = Ok buf /\
    heapPage_initFromBuffer h0 buf = Returns (h', None) /\
    same_tuple_multiset (stored (hp_tuples h)) (stored (hp_tuples h')).
Proof.
  intros Hwf Hdesc.
  destruct (heapPage_roundtrip h h0 Hwf Hdesc) as (buf & h' & Hb & Hi & _ & _ & Hst).
  exists buf, h'. split; [done|]. split; [done|].
  rewrite Hst. apply same_tuple_multiset_Forall2, reload_from_equiv.
  destruct Hwf as [_ _ _ Ht]. eapply Forall_impl; [exact Ht|]. by intros t [? _].
Qed.

Lemma Tuple_project_single fld v :
  Tuple_project {| Desc := {| FieldTypes := [fld] |}; Fields := [v]; Rid := RidNil |} [fld]
  = Returns (Ok {| Desc := {| FieldTypes := [fld] |}; Fields := [v]; Rid := RidNil |}).
Proof.
  unfold Tuple_project, project_fields, project_match. cbn.
  by rewrite !bool_decide_eq_true_2 by done.
Qed.

Lemma columnStorePage_init_loop_ok fld ts : forall c done k rest,
  cp_desc c = {| FieldTypes := [fld] |} ->
  cp_tuples c = map Some done ++ replicate k None ->
  cp_numUsedSlots c = Z.of_nat (length done) ->
  cp_numSlots c = Z.of_nat (length done + k) ->
  in_int32 (cp_numSlots c) ->
  Forall (fun t => exists v, Fields t = [v] /\ conforms v fld) ts ->
  (length ts <= k)%nat ->
  exists c',
    columnStorePage_init_loop (length ts) c (page_payload ts ++ rest) = Returns (c', None) /\
    cp_tuples c' = map Some (done ++ map (reproject fld) ts) ++ replicate (k - length ts) None /\
    cp_numUsedSlots c' = Z.of_nat (length done + length ts) /\
    cp_numSlots c' = cp_numSlots c.
Proof.
  induction ts as [|t ts IH]; intros c done k rest Hdesc Htup Hused Hslots Hi32 Hwf Hk.
  - exists c. simpl. rewrite app_nil_r, Nat.sub_0_r, Nat.add_0_r. done.
  - apply Forall_cons in Hwf as [(v & Hv & Hc) Hwf]. simpl in Hk.
    destruct k as [|k]; [lia|].
    cbn [length columnStorePage_init_loop].
    unfold readTupleFrom, page_payload. cbn [map concat]. fold (page_payload ts).
    rewrite Hdesc. cbn [FieldTypes]. rewrite Hv.
    rewrite <- app_assoc, (readTupleFrom_fields_roundtrip [v] [fld]) by (by repeat constructor).
    unfold columnStorePage_insertTuple.
    destruct (Z.geb_spec (cp_numUsedSlots c) (cp_numSlots c)) as [Hge|_]; [exfalso; lia|].
    rewrite Hdesc. cbn [FieldTypes]. rewrite Tuple_project_single. cbn [obind].
    rewrite Htup, find_index_is_nil_app by lia. cbn [Nat.add obind].
    rewrite insert_first_free.
    set (c1 := {| cp_Dirty := true; cp_tuples := _ |}).
    destruct (IH c1 (done ++ [reproject fld t]) k rest) as (c' & Hloop & Ht' & Hu' & Hs');
      subst c1; cbn [cp_desc cp_tuples cp_numUsedSlots cp_numSlots]; try done.
    + unfold reproject. by rewrite Hv.
    + rewrite Hused, length_app. cbn [length].
      unfold in_int32 in Hi32. rewrite wrap_int32_id; [lia|]. unfold in_int32. lia.
    + rewrite Hslots, length_app. cbn [length]. lia.
    + lia.
    + exists c'. split; [exact Hloop|].
      cbn [cp_numSlots] in Hs'. rewrite Ht', Hu', Hs'.
      rewrite <- app_assoc, length_app. cbn [length app map].
      split; [done|]. split; [|done]. lia.
Qed.

(** Serializing a well-formed column page and loading the bytes into a
    fresh page of the same descriptor gives the stored values back, in
    slot order. *)
Lemma columnStorePage_roundtrip c c0 :
  columnStorePage_wf c -> cp_desc c0 = cp_desc c -> cp_numUsedSlots c0 = 0 ->
  exists buf c' fld,
    FieldTypes (cp_desc c) = [fld] /\
    columnStorePage_toBuffer c = Ok buf /\
    buf = le_bytes 4 (cp_numSlots c) ++ le_bytes 4 (cp_numUsedSlots c) ++
          page_payload (stored (cp_tuples c)) /\
    columnStorePage_initFromBuffer c0 buf = Returns (c', None) /\
    cp_numSlots c' = cp_numSlots c /\
    cp_numUsedSlots c' = cp_numUsedSlots c /\
    stored (cp_tuples c') = map (reproject fld) (stored (cp_tuples c)).
Proof.
  intros [Hs Hu Hi [fld Hfld] Ht] Hdesc Hfresh.
  assert (Hconf : Forall (fun t => exists v, Fields t = [v] /\ conforms v fld)
                    (stored (cp_tuples c))).
  { eapply Forall_impl; [exact Ht|]. intros t (d & v & fld' & Hf' & _ & Hv & _ & _ & Hc).
    exists v. split; [done|]. congruence. }
  assert (Hused32 : in_int32 (cp_numUsedSlots c)).
  { unfold in_int32 in *. pose proof (length_stored_le (cp_tuples c)). lia. }
  pose proof (length_stored_le (cp_tuples c)) as Hle.
  set (c2 := {| cp_Dirty := cp_Dirty c0; cp_pageNumber := cp_pageNumber c0;
                cp_colNumber := cp_colNumber c0;
                cp_numSlots := cp_numSlots c;
                cp_numUsedSlots := cp_numUsedSlots c0;
                cp_desc := cp_desc c0; cp_colFile := cp_colFile c0;
                cp_tuples := replicate (Z.to_nat (cp_numSlots c)) None |}).
  destruct (columnStorePage_init_loop_ok fld (stored (cp_tuples c)) c2 []
              (Z.to_nat (cp_numSlots c)) [])
    as (c' & Hloop & Ht' & Hu' & Hs');
    subst c2; cbn [cp_desc cp_tuples cp_numUsedSlots cp_numSlots length map app Nat.add];
    try done.
  { rewrite Hdesc. destruct (cp_desc c) as [fs]. simpl in Hfld. by subst fs. }
  { lia. }
  { lia. }
  cbn [cp_numSlots] in Hs'. cbn [length Nat.add app] in Hu', Ht'.
  rewrite app_nil_r in Hloop.
  exists (le_bytes 4 (cp_numSlots c) ++ le_bytes 4 (cp_numUsedSlots c) ++
          page_payload (stored (cp_tuples c))), c', fld.
  split; [done|]. split.
  { unfold columnStorePage_toBuffer. rewrite write_tuples_ok.
    - by rewrite app_nil_l, <- !app_assoc.
    - eapply Forall_impl; [exact Hconf|]. intros t (v & Hv & Hc).
      exists [fld]. rewrite Hv. by repeat constructor. }
  split; [reflexivity|].
  unfold columnStorePage_initFromBuffer.
  rewrite buf_read_app by (rewrite ?length_le_bytes; lia).
  rewrite buf_read_app by (rewrite ?length_le_bytes; lia).
  rewrite !int32_of_le_bytes by done.
  cbn [cp_numSlots]. unfold make_tuples.
  destruct (Z.ltb_spec (cp_numSlots c) 0) as [Hneg|_]; [exfalso; lia|].
  cbn [obind cp_Dirty cp_pageNumber cp_colNumber cp_numSlots cp_numUsedSlots cp_desc
       cp_colFile cp_tuples].
  rewrite Hu, Nat2Z.id. rewrite Hloop. split; [reflexivity|].
  split; [done|]. split; [by rewrite Hu'|].
  by rewrite Ht', stored_app, stored_map_Some, stored_replicate_None, app_nil_r.
Qed.

Lemma columnStorePage_roundtrip_multiset c c0 :
  columnStorePage_wf c -> cp_desc c0 = cp_desc c -> cp_numUsedSlots c0 = 0 ->
  exists buf c',
    columnStorePage_toBuffer c = Ok buf /\
    columnStorePage_initFromBuffer c0 buf = Returns (c', None) /\
    same_tuple_multiset (stored (cp_tuples c)) (stored (cp_tuples c')).
Proof.
  intros Hwf Hdesc Hfresh.
  destruct (columnStorePage_roundtrip c c0 Hwf Hdesc Hfresh)
    as (buf & c' & fld & Hfld & Hb & _ & Hi & _ & _ & Hst).
  exists buf, c'. split; [done|]. split; [done|].
  rewrite Hst. apply same_tuple_multiset_Forall2.
  destruct Hwf as [_ _ _ _ Ht].
  clear Hst Hi Hb.
  induction Ht as [|t ts (d & v & fld' & Hf' & Hd & Hv & Hn & Hty & Hc) Ht IH];
    cbn [map]; [constructor|].
  constructor; [|exact IH].
  split; [done|]. cbn [reproject Desc FieldTypes]. rewrite Hd.
  assert (fld' = fld) by congruence. subst fld'.
  by repeat constructor.
Qed.

(** ** Serialization of pages: the claims *)

Example ex_columnPage_new_is_newColumnPage :
  newColumnPage ex_td 1 1 ∅ = Returns ex_columnPage_new.
Proof. reflexivity. Qed.

Example ex_columnPage_is_insertTuple :
  columnStorePage_insertTuple ex_columnPage_new ex_t1
  = Returns (ex_columnPage, Ok (RidInt 0)).
Proof. reflexivity. Qed.

Lemma bytes_per_tuple_nonneg desc : 0 <= bytes_per_tuple desc.
Proof.
  unfold bytes_per_tuple. induction (FieldTypes desc) as [|ft fts IH]; [done|].
  cbn [map fold_right].
  assert (0 <= field_width ft)
    by (unfold field_width; destruct (Ftype ft); unfold StringLength; lia).
  lia.
Qed.

(** A well-formed row page that fits its slots into the page serializes to
    exactly [PageSize] bytes: the two header integers, the payloads of the
    used slots in slot order, and zero padding. *)
Lemma heapPage_toBuffer_layout h :
  heapPage_wf h ->
  8 + hp_numSlots h * bytes_per_tuple (hp_desc h) <= PageSize ->
  exists buf,
    heapPage_toBuffer h = Ok buf /\
    Z.of_nat (length buf) = PageSize /\
    buf = le_bytes 4 (hp_numSlots h) ++ le_bytes 4 (hp_numUsedSlots h) ++
          page_payload (stored (hp_tuples h)) ++
          zeros (PageSize - 8 - hp_numUsedSlots h * bytes_per_tuple (hp_desc h)).
Proof.
  intros Hwf Hfit. pose proof Hwf as [Hs Hu Hi Ht].
  pose proof (length_page_payload _ _ (heapPage_wf_conforms h Hwf)) as Hlen.
  rewrite <- Hu in Hlen.
  pose proof (length_stored_le (hp_tuples h)) as Hle.
  pose proof (bytes_per_tuple_nonneg (hp_desc h)) as Hbpt.
  assert (Hlen8 : Z.of_nat (length (le_bytes 4 (hp_numSlots h) ++ le_bytes 4 (hp_numUsedSlots h) ++
                     page_payload (stored (hp_tuples h))))
                  = 8 + hp_numUsedSlots h * bytes_per_tuple (hp_desc h)).
  { rewrite !length_app, !length_le_bytes, !Nat2Z.inj_add, Hlen. lia. }
  assert (hp_numUsedSlots h * bytes_per_tuple (hp_desc h)
          <= hp_numSlots h * bytes_per_tuple (hp_desc h)) as Hmul
    by (apply Z.mul_le_mono_nonneg_r; lia).
  eexists. split; [by apply heapPage_toBuffer_ok|].
  rewrite padBuffer_app, Hlen8. split.
  - rewrite length_app, Nat2Z.inj_add, Hlen8, length_zeros; lia.
  - rewrite <- !app_assoc. do 3 f_equal. f_equal. lia.
Qed.

(** A column page serializes to the header and the payloads only: the
    buffer has [8 + numUsedSlots * width] bytes and no padding. *)
Lemma columnStorePage_toBuffer_length c :
  columnStorePage_wf c ->
  exists buf,
    columnStorePage_toBuffer c = Ok buf /\
    Z.of_nat (length buf) = 8 + cp_numUsedSlots c * bytes_per_tuple (cp_desc c).
Proof.
  intros Hwf.
  assert (exists c0, cp_desc c0 = cp_desc c /\ cp_numUsedSlots c0 = 0) as (c0 & Hd & Hf).
  { exists (columnStorePage_setDirty
              {| cp_Dirty := false; cp_pageNumber := 0; cp_colNumber := 0; cp_numSlots := 0;
                 cp_numUsedSlots := 0; cp_desc := cp_desc c; cp_colFile := ∅;
                 cp_tuples := [] |} false). done. }
  destruct (columnStorePage_roundtrip c c0 Hwf Hd Hf)
    as (buf & c' & fld & Hfld & Hb & Hbuf & _).
  exists buf. split; [done|]. subst buf.
  destruct Hwf as [Hs Hu Hi _ Ht].
  rewrite !length_app, !length_le_bytes, !Nat2Z.inj_add.
  rewrite (length_page_payload _ (cp_desc c)).
  - rewrite Hu. lia.
  - eapply Forall_impl; [exact Ht|].
    intros t (d & v & fld' & Hf' & _ & Hv & _ & _ & Hc).
    rewrite Hv, Hf'. by repeat constructor.
Qed.

(** C1 (fails for column pages): the column page holding one integer has
    [0 <= numUsedSlots <= numSlots], and [columnStorePage.toBuffer] returns
    16 bytes for it, the header and one payload, not [PageSize] bytes. *)
Theorem columnStorePage_toBuffer_not_padded :
  columnStorePage_wf ex_columnPage /\
  0 <= cp_numUsedSlots ex_columnPage <= cp_numSlots ex_columnPage /\
  exists buf,
    columnStorePage_toBuffer ex_columnPage = Ok buf /\
    buf = le_bytes 4 511 ++ le_bytes 4 1 ++ le_bytes 8 20 /\
    Z.of_nat (length buf) = 16 /\
    Z.of_nat (length buf) <> PageSize.
Proof.
  split.
  { constructor; cbn [ex_columnPage cp_numSlots cp_numUsedSlots cp_tuples cp_desc].
    - reflexivity.
    - reflexivity.
    - unfold in_int32. lia.
    - by eexists.
    - rewrite stored_cons_Some, stored_replicate_None.
      repeat constructor. eexists _, _, _. cbn.
      repeat split; try reflexivity; unfold in_int64; lia. }
  split; [cbn; lia|].
  eexists. split; [reflexivity|]. split; [reflexivity|].
  split; [reflexivity|]. unfold PageSize. cbn. lia.
Qed.

(** C2, as the code has it: for a page of either layout that is a page
    of the data model ([Page_wf]: the slot array has [numSlots] entries,
    [numUsedSlots] of them are occupied, and every stored tuple carries
    the page's descriptor and values that fit it, 64-bit integers and
    strings of at most [StringLength] bytes that do not end in a zero
    byte), serializing with [toBuffer] and loading the bytes with
    [initFromBuffer] into a fresh page of the same descriptor succeeds
    and yields a page with the same multiset of stored tuples (as
    [Tuple.equals] counts them); slot indices and record ids may
    differ. *)
Theorem serialize_deserialize_multiset (p p0 : Page) :
  Page_wf p -> fresh_page_for p0 p ->
  exists buf p',
    Page_toBuffer p = Ok buf /\
    Page_initFromBuffer p0 buf = Returns (p', None) /\
    same_tuple_multiset (stored (Page_tuples p)) (stored (Page_tuples p')).
Proof.
  destruct p as [h|c], p0 as [h0|c0]; cbn [Page_wf fresh_page_for]; try done.
  - intros Hwf Hd.
    destruct (heapPage_roundtrip_multiset h h0 Hwf Hd) as (buf & h' & Hb & Hi & Hm).
    exists buf, (HeapPg h'). cbn [Page_toBuffer Page_initFromBuffer Page_tuples].
    by rewrite Hi.
  - intros Hwf [Hd Hf].
    destruct (columnStorePage_roundtrip_multiset c c0 Hwf Hd Hf) as (buf & c' & Hb & Hi & Hm).
    exists buf, (ColumnPg c'). cbn [Page_toBuffer Page_initFromBuffer Page_tuples].
    by rewrite Hi.
Qed.

Lemma ex_heapPage_wf : heapPage_wf ex_heapPage.
Proof.
  constructor; cbn [ex_heapPage hp_numSlots hp_numUsedSlots hp_tuples hp_desc].
  - reflexivity.
  - reflexivity.
  - unfold in_int32. lia.
  - rewrite !stored_cons_Some, stored_replicate_None.
    repeat constructor; cbn; unfold in_int64; try lia; try discriminate.
Defined.

Lemma serialize_deserialize_multiset_witness :
  exists buf p',
    Page_toBuffer (HeapPg ex_heapPage) = Ok buf /\
    Page_initFromBuffer (HeapPg ex_heapPage_blank) buf = Returns (p', None) /\
    same_tuple_multiset (stored (Page_tuples (HeapPg ex_heapPage)))
                        (stored (Page_tuples p')).
Proof.
  apply (serialize_deserialize_multiset (HeapPg ex_heapPage) (HeapPg ex_heapPage_blank)).
  - exact ex_heapPage_wf.
  - reflexivity.
Defined.

(** C2 as stated fails.  On the row page that [newHeapPage] and
    [insertTuple] make of a tuple with a string of 33 bytes, [toBuffer]
    writes 32 bytes of the string, and the page [initFromBuffer] loads
    stores a tuple that [Tuple.equals] tells from the one inserted: the
    multisets differ.  On the column page that [newColumnPage] and
    [insertTuple] make of a tuple without the column, which counts a used
    slot and stores nothing, [toBuffer] writes the header alone and
    [initFromBuffer] returns the end-of-file error. *)
Theorem serialize_deserialize_not_every_page :
  ((exists h0,
      newHeapPage ex_td 0 "test.dat" = Returns (Ok h0) /\
      heapPage_insertTuple h0 ex_long_tuple = (ex_long_page, Ok (RidString "0-0"))) /\
   fresh_page_for (HeapPg ex_heapPage_blank) (HeapPg ex_long_page) /\
   exists buf p',
     Page_toBuffer (HeapPg ex_long_page) = Ok buf /\
     Page_initFromBuffer (HeapPg ex_heapPage_blank) buf = Returns (p', None) /\
     count_equals ex_long_tuple (stored (Page_tuples (HeapPg ex_long_page))) = 1%nat /\
     count_equals ex_long_tuple (stored (Page_tuples p')) = 0%nat /\
     ~ same_tuple_multiset (stored (Page_tuples (HeapPg ex_long_page)))
                           (stored (Page_tuples p'))) /\
  (newColumnPage ex_td 1 1 ∅ = Returns ex_columnPage_new /\
   columnStorePage_insertTuple ex_columnPage_new ex_name_tuple
   = Returns (ex_columnPage_miscounted, Ok (RidInt 0)) /\
   fresh_page_for (ColumnPg ex_columnPage_new) (ColumnPg ex_columnPage_miscounted) /\
   exists buf p',
     Page_toBuffer (ColumnPg ex_columnPage_miscounted) = Ok buf /\
     length buf = 8%nat /\
     Page_initFromBuffer (ColumnPg ex_columnPage_new) buf = Returns (p', Some io_EOF)).
Proof.
  split.
  - split; [|split; [reflexivity|]].
    + eexists. split; [reflexivity|]. vm_refl.
    + exists (match Page_toBuffer (HeapPg ex_long_page) with Ok buf => buf | Err _ => [] end).
      exists (match Page_initFromBuffer (HeapPg ex_heapPage_blank)
                      (match Page_toBuffer (HeapPg ex_long_page) with
                       | Ok buf => buf | Err _ => [] end) with
              | Returns (p', _) => p'
              | _ => HeapPg ex_heapPage_blank
              end).
      split; [vm_refl|]. split; [vm_refl|]. split; [vm_refl|]. split; [vm_refl|].
      intros Hsame. specialize (Hsame ex_long_tuple). vm_compute in Hsame. discriminate.
  - split; [vm_refl|]. split; [vm_refl|]. split; [by split|].
    exists (match Page_toBuffer (ColumnPg ex_columnPage_miscounted) with
            | Ok buf => buf | Err _ => [] end).
    exists (match Page_initFromBuffer (ColumnPg ex_columnPage_new)
                    (match Page_toBuffer (ColumnPg ex_columnPage_miscounted) with
                     | Ok buf => buf | Err _ => [] end) with
            | Returns (p', _) => p'
            | _ => ColumnPg ex_columnPage_new
            end).
    split; [vm_refl|]. split; [vm_refl|]. vm_refl.
Qed.

(** ** The buffer pool: iteration order, conflicts, eviction *)

Section BufferPoolProofs.
Context `{!RangeOrder}.

Lemma elem_of_range_set `{Countable A} (s : gset A) x : x ∈ range_set s <-> x ∈ s.
Proof. rewrite (range_set_perm s). apply elem_of_elements. Qed.

Lemma range_set_empty `{Countable A} : range_set (∅ : gset A) = [].
Proof.
  apply Permutation_nil_r. rewrite (range_set_perm (∅ : gset A)).
  by rewrite elements_empty.
Qed.

Lemma range_set_singleton `{Countable A} (x : A) : range_set ({[x]} : gset A) = [x].
Proof.
  apply Permutation_singleton_r. rewrite (range_set_perm ({[x]} : gset A)).
  by rewrite elements_singleton.
Qed.

Lemma NoDup_range_set `{Countable A} (s : gset A) : NoDup (range_set s).
Proof. rewrite (range_set_perm s). apply NoDup_elements. Qed.

(** *** checkConflictingLocks *)

Lemma addDependencyIfLocked_free bp otherTID tid key locks :
  key ∉ set_at locks otherTID ->
  addDependencyIfLocked bp otherTID tid key locks = Returns (false, bp).
Proof. intros Hk. unfold addDependencyIfLocked. by rewrite bool_decide_eq_false_2. Qed.

Lemma checkConflictingLocks_loop_free others bp tid key perm :
  (forall other, other ∈ others -> ~ conflicting bp tid key perm other) ->
  others ⊆ elements (currentTransactions bp) ->
  checkConflictingLocks_loop others bp tid key perm = Returns (false, bp).
Proof.
  induction others as [|o others IH]; intros Hfree Hsub; [done|].
  cbn [checkConflictingLocks_loop].
  assert (Hrest : checkConflictingLocks_loop others bp tid key perm = Returns (false, bp)).
  { apply IH; [intros other Ho; apply Hfree; by right | set_solver]. }
  destruct (bool_decide_reflect (o = tid)) as [->|Hne]; [done|].
  assert (Ho : o ∈ currentTransactions bp).
  { apply elem_of_elements, Hsub. by left. }
  assert (Hw : key ∉ set_at (writePermissionLocks bp) o).
  { intros Hin. apply (Hfree o); [by left|]. split; [done|]. split; [done|]. by left. }
  destruct perm.
  - rewrite addDependencyIfLocked_free by done. cbn [obind]. done.
  - assert (Hr : key ∉ set_at (readPermissionLocks bp) o).
    { intros Hin. apply (Hfree o); [by left|]. split; [done|]. split; [done|]. by right. }
    rewrite addDependencyIfLocked_free by done. cbn [obind].
    rewrite addDependencyIfLocked_free by done. cbn [obind]. done.
Qed.

(** Without a conflicting lock the check reports no conflict and leaves
    the pool as it is. *)
Lemma checkConflictingLocks_free bp tid key perm :
  (forall other, ~ conflicting bp tid key perm other) ->
  checkConflictingLocks bp tid key perm = Returns (false, bp).
Proof.
  intros Hfree. unfold checkConflictingLocks.
  apply checkConflictingLocks_loop_free; [by intros other _|].
  intros x Hx. by apply elem_of_elements, elem_of_range_set.
Qed.

(** *** evictPage *)

Lemma evictPage_loop_Ok keys pages pages' :
  evictPage_loop keys pages = Ok pages' ->
  exists k p, k ∈ keys /\ pages !! k = Some p /\ Page_isDirty p = false /\
              pages' = delete k pages.
Proof.
  induction keys as [|k keys IH]; [done|].
  cbn [evictPage_loop]. destruct (pages !! k) as [p|] eqn:Hk.
  - destruct (Page_isDirty p) eqn:Hd; cbn [negb].
    + intros (k' & p' & Hin & ?)%IH. exists k', p'. split; [by right|done].
    + intros [= <-]. exists k, p. split; [by left|done].
  - intros (k' & p' & Hin & ?)%IH. exists k', p'. split; [by right|done].
Qed.

Lemma evictPage_loop_Err keys pages e :
  evictPage_loop keys pages = Err e ->
  e = GoDBError BufferPoolFullError "buffer pool all dirty" /\
  forall k p, k ∈ keys -> pages !! k = Some p -> Page_isDirty p = true.
Proof.
  induction keys as [|k keys IH]; cbn [evictPage_loop].
  - intros [= <-]. split; [done|]. intros k p Hin. by apply elem_of_nil in Hin.
  - destruct (pages !! k) as [p|] eqn:Hk.
    + destruct (Page_isDirty p) eqn:Hd; cbn [negb]; [|done].
      intros [-> Hall]%IH. split; [done|].
      intros k' p' [->|Hin]%elem_of_cons Hk'; [congruence|by eapply Hall].
    + intros [-> Hall]%IH. split; [done|].
      intros k' p' [->|Hin]%elem_of_cons Hk'; [congruence|by eapply Hall].
Qed.

Lemma evictPage_loop_all_dirty keys pages :
  (forall k p, pages !! k = Some p -> Page_isDirty p = true) ->
  evictPage_loop keys pages = Err (GoDBError BufferPoolFullError "buffer pool all dirty").
Proof.
  intros Hall. induction keys as [|k keys IH]; [done|].
  cbn [evictPage_loop]. destruct (pages !! k) as [p|] eqn:Hk; [|done].
  by rewrite (Hall k p Hk).
Qed.

(** [evictPage] removes one page, and that page is not dirty; nothing
    else in the pool changes. *)
Lemma evictPage_Ok bp bp' :
  evictPage bp = Ok bp' ->
  exists k p, Pages bp !! k = Some p /\ Page_isDirty p = false /\
              bp' = set_Pages (delete k) bp.
Proof.
  unfold evictPage.
  destruct (evictPage_loop _ _) as [pages|] eqn:Hl; [|done].
  intros [= <-]. apply evictPage_loop_Ok in Hl as (k & p & _ & Hk & Hd & ->).
  by exists k, p.
Qed.

(** [evictPage] fails only when every cached page is dirty. *)
Lemma evictPage_Err bp e :
  evictPage bp = Err e ->
  e = GoDBError BufferPoolFullError "buffer pool all dirty" /\
  forall k p, Pages bp !! k = Some p -> Page_isDirty p = true.
Proof.
  unfold evictPage.
  destruct (evictPage_loop _ _) as [pages|] eqn:Hl; [done|].
  intros [= <-]. apply evictPage_loop_Err in Hl as [-> Hall]. split; [done|].
  intros k p Hk. apply (Hall k p); [|done].
  apply elem_of_range_set, elem_of_dom. by eexists.
Qed.

Lemma evictPage_all_dirty bp :
  (forall k p, Pages bp !! k = Some p -> Page_isDirty p = true) ->
  evictPage bp = Err (GoDBError BufferPoolFullError "buffer pool all dirty").
Proof. intros Hall. unfold evictPage. by rewrite evictPage_loop_all_dirty. Qed.

(** *** GetPage after the wait *)

Lemma acquire_lock_Returns bp tid key perm bp1 :
  acquire_lock bp tid key perm = Returns bp1 ->
  key ∈ set_at (locks_of perm bp1) tid /\
  Pages bp1 = Pages bp /\ NumPages bp1 = NumPages bp /\
  currentTransactions bp1 = currentTransactions bp.
Proof.
  unfold acquire_lock. destruct perm.
  - destruct (readPermissionLocks bp !! tid) as [locks|] eqn:Hl; [|done].
    intros [= <-]. cbn. unfold set_at. rewrite lookup_insert_eq. cbn.
    split; [set_solver|done].
  - destruct (writePermissionLocks bp !! tid) as [locks|] eqn:Hl; [|done].
    intros [= <-]. cbn. unfold set_at. rewrite lookup_insert_eq. cbn.
    split; [set_solver|done].
Qed.

Lemma acquire_lock_is_Some bp tid key perm :
  is_Some (locks_of perm bp !! tid) -> exists bp1, acquire_lock bp tid key perm = Returns bp1.
Proof.
  intros [locks Hl]. unfold acquire_lock. destruct perm; cbn in Hl; rewrite Hl; by eexists.
Qed.

(** What a failure of [GetPage] after the wait leaves behind. *)
Lemma GetPage_fetch_Failed file pageNumber key tid perm w e w' :
  GetPage_fetch file pageNumber key tid perm w = Returns (Failed e, w') ->
  key ∈ set_at (locks_of perm (bp w')) tid /\
  Pages (bp w') !! key = None /\
  currentTransactions (bp w') = currentTransactions (bp w) /\
  (e = GoDBError BufferPoolFullError "buffer pool all dirty" \/
   exists d', DBFile_readPage file pageNumber (disk w) = Returns (Err e, d')).
Proof.
  unfold GetPage_fetch.
  destruct (acquire_lock (bp w) tid key perm) as [bp1| |] eqn:Ha; cbn [obind]; try done.
  apply acquire_lock_Returns in Ha as (Hlock & Hp & Hn & Hc).
  destruct (Pages bp1 !! key) as [pg|] eqn:Hk; [done|].
  destruct (Z.of_nat (size (Pages bp1)) >=? NumPages bp1).
  - destruct (evictPage bp1) as [bp2|err] eqn:He.
    + apply evictPage_Ok in He as (k & p & Hkp & Hd & ->).
      destruct (DBFile_readPage file pageNumber (disk w)) as [[[pg|err] d']| |] eqn:Hr;
        cbn [obind]; try done.
      intros [= <- <-]. cbn. split; [done|]. split.
      * destruct (decide (k = key)) as [->|Hne];
          [by rewrite lookup_delete_eq|by rewrite lookup_delete_ne].
      * split; [done|]. right. by eexists.
    + apply evictPage_Err in He as [-> _].
      intros [= <- <-]. cbn. split; [done|]. split; [done|]. split; [done|]. by left.
  - destruct (DBFile_readPage file pageNumber (disk w)) as [[[pg|err] d']| |] eqn:Hr;
      cbn [obind]; try done.
    intros [= <- <-]. cbn. split; [done|]. split; [done|]. split; [done|]. right. by eexists.
Qed.

(** No dirty page leaves the cache in [GetPage] after the wait. *)
Lemma GetPage_fetch_keeps_dirty file pageNumber key tid perm w r w' :
  GetPage_fetch file pageNumber key tid perm w = Returns (r, w') ->
  forall k p, Pages (bp w) !! k = Some p -> Page_isDirty p = true ->
              Pages (bp w') !! k = Some p.
Proof.
  unfold GetPage_fetch.
  destruct (acquire_lock (bp w) tid key perm) as [bp1| |] eqn:Ha; cbn [obind]; try done.
  apply acquire_lock_Returns in Ha as (Hlock & Hp & Hn & Hc).
  destruct (Pages bp1 !! key) as [pg|] eqn:Hk.
  { intros [= <- <-] k p Hkp Hd. cbn. by rewrite Hp. }
  assert (Hread : forall bp2,
    (forall k p, Pages (bp w) !! k = Some p -> Page_isDirty p = true ->
                 Pages bp2 !! k = Some p) ->
    (do (r0, disk') <- DBFile_readPage file pageNumber (disk w);
     match r0 with
     | Ok specific_page =>
         Returns (GotPage specific_page,
                  {| bp := set_Pages <[key:=specific_page]> bp2; disk := disk' |})
     | Err err => Returns (Failed err, {| bp := bp2; disk := disk' |})
     end) = Returns (r, w') ->
    forall k p, Pages (bp w) !! k = Some p -> Page_isDirty p = true ->
                Pages (bp w') !! k = Some p).
  { intros bp2 Hkeep.
    destruct (DBFile_readPage file pageNumber (disk w)) as [[[pg|err] d']| |];
      cbn [obind]; try done.
    - intros [= <- <-] k p Hkp Hd. cbn.
      destruct (decide (key = k)) as [<-|Hne]; [rewrite <- Hp in Hkp; congruence|].
      rewrite lookup_insert_ne by done. by apply Hkeep.
    - intros [= <- <-] k p Hkp Hd. cbn. by apply Hkeep. }
  destruct (Z.of_nat (size (Pages bp1)) >=? NumPages bp1).
  - destruct (evictPage bp1) as [bp2|err] eqn:He.
    + apply evictPage_Ok in He as (k0 & p0 & Hkp0 & Hd0 & ->).
      apply Hread. intros k p Hkp Hd. cbn. rewrite Hp.
      destruct (decide (k0 = k)) as [->|Hne]; [congruence|].
      by rewrite lookup_delete_ne.
    + intros [= <- <-] k p Hkp Hd. cbn. by rewrite Hp.
  - apply Hread. intros k p Hkp Hd. by rewrite Hp.
Qed.

(** When the cache is full of dirty pages and the page is not cached,
    [GetPage] after the wait fails with the buffer-pool-full error. *)
Lemma GetPage_fetch_full file pageNumber key tid perm w :
  is_Some (locks_of perm (bp w) !! tid) ->
  Pages (bp w) !! key = None ->
  NumPages (bp w) <= Z.of_nat (size (Pages (bp w))) ->
  (forall k p, Pages (bp w) !! k = Some p -> Page_isDirty p = true) ->
  exists bp1,
    acquire_lock (bp w) tid key perm = Returns bp1 /\
    GetPage_fetch file pageNumber key tid perm w =
      Returns (Failed (GoDBError BufferPoolFullError "buffer pool all dirty"),
               {| bp := bp1; disk := disk w |}).
Proof.
  intros Hl Hk Hfull Hdirty.
  destruct (acquire_lock_is_Some (bp w) tid key perm Hl) as [bp1 Ha].
  exists bp1. split; [done|]. unfold GetPage_fetch. rewrite Ha. cbn [obind].
  apply acquire_lock_Returns in Ha as (Hlock & Hp & Hn & Hc).
  rewrite Hp, Hk, Hn.
  destruct (Z.geb_spec (Z.of_nat (size (Pages (bp w)))) (NumPages (bp w))); [|lia].
  rewrite evictPage_all_dirty; [done|]. by rewrite Hp.
Qed.

(** Without a conflict, [GetPage] is the lock acquisition and the fetch. *)
Lemma GetPage_first_free file pageNumber key tid perm w :
  DBFile_pageKey file pageNumber = Returns key ->
  tid ∈ currentTransactions (bp w) ->
  (forall other, ~ conflicting (bp w) tid key perm other) ->
  GetPage_first file pageNumber tid perm w = GetPage_fetch file pageNumber key tid perm w.
Proof.
  intros Hkey Hin Hfree. unfold GetPage_first, GetPage_pass.
  rewrite Hkey. cbn [obind]. rewrite bool_decide_eq_true_2 by done. cbn [negb].
  rewrite checkConflictingLocks_free by done. cbn [obind].
  by destruct w.
Qed.

(** C10: when [GetPage] fails after the conflict check has let the call
    through, with the buffer-pool-full error or with the error of
    [readPage], the requested lock is in the lock set of the transaction,
    which is still current, and the page is not in the cache: the failed
    call leaves the transaction holding a lock on a page it never
    received. *)
Theorem GetPage_failure_keeps_lock file pageNumber key tid perm w e w' :
  DBFile_pageKey file pageNumber = Returns key ->
  tid ∈ currentTransactions (bp w) ->
  checkConflictingLocks (bp w) tid key perm = Returns (false, bp w) ->
  GetPage file pageNumber tid perm w = Returns (Err e, w') ->
  (e = GoDBError BufferPoolFullError "buffer pool all dirty" \/
   exists d', DBFile_readPage file pageNumber (disk w) = Returns (Err e, d')) /\
  key ∈ set_at (locks_of perm (bp w')) tid /\
  tid ∈ currentTransactions (bp w') /\
  Pages (bp w') !! key = None.
Proof.
  intros Hkey Hin Hfree. unfold GetPage, GetPage_first, GetPage_pass.
  rewrite Hkey. cbn [obind]. rewrite bool_decide_eq_true_2 by done. cbn [negb].
  rewrite Hfree. cbn [obind].
  replace {| bp := bp w; disk := disk w |} with w by (by destruct w).
  destruct (GetPage_fetch file pageNumber key tid perm w) as [[[pg|e0|] w0]| |] eqn:Hf;
    cbn [obind]; try done.
  intros [= <- <-].
  apply GetPage_fetch_Failed in Hf as (Hlock & Hnone & Hcur & Hkind).
  split; [done|]. split; [done|]. split; [by rewrite Hcur|done].
Qed.

(** C3, as the code has it: [evictPage] and [GetPage] never take a dirty
    page out of the cache, whoever holds a lock on the clean page that
    goes; and when the conflict check lets the call through, the page is
    not cached, the cache is full and every cached page is dirty,
    [GetPage] fails with the buffer-pool-full error. *)
Theorem GetPage_never_evicts_dirty file pageNumber key tid perm w :
  DBFile_pageKey file pageNumber = Returns key ->
  tid ∈ currentTransactions (bp w) ->
  checkConflictingLocks (bp w) tid key perm = Returns (false, bp w) ->
  (forall bp', evictPage (bp w) = Ok bp' ->
     exists k p, Pages (bp w) !! k = Some p /\ Page_isDirty p = false /\
                 bp' = set_Pages (delete k) (bp w)) /\
  (forall r w', GetPage file pageNumber tid perm w = Returns (r, w') ->
     forall k p, Pages (bp w) !! k = Some p -> Page_isDirty p = true ->
                 Pages (bp w') !! k = Some p) /\
  (is_Some (locks_of perm (bp w) !! tid) ->
   Pages (bp w) !! key = None ->
   NumPages (bp w) <= Z.of_nat (size (Pages (bp w))) ->
   (forall k p, Pages (bp w) !! k = Some p -> Page_isDirty p = true) ->
   exists w', GetPage file pageNumber tid perm w =
                Returns (Err (GoDBError BufferPoolFullError "buffer pool all dirty"), w')).
Proof.
  intros Hkey Hin Hfree.
  assert (Hget : GetPage file pageNumber tid perm w =
                 do (r, w') <- GetPage_fetch file pageNumber key tid perm w;
                 match r with
                 | GotPage page => Returns (Ok page, w')
                 | Failed e => Returns (Err e, w')
                 | Retry => Blocks
                 end).
  { unfold GetPage, GetPage_first, GetPage_pass.
    rewrite Hkey. cbn [obind]. rewrite bool_decide_eq_true_2 by done. cbn [negb].
    rewrite Hfree. cbn [obind]. by destruct w. }
  split; [apply evictPage_Ok|]. split.
  - intros r w'. rewrite Hget.
    destruct (GetPage_fetch file pageNumber key tid perm w) as [[r0 w0]| |] eqn:Hf;
      cbn [obind]; try done.
    intros Hr. assert (w0 = w') as -> by (destruct r0; congruence).
    by eapply GetPage_fetch_keeps_dirty.
  - intros Hl Hk Hfull Hdirty.
    destruct (GetPage_fetch_full file pageNumber key tid perm w Hl Hk Hfull Hdirty)
      as (bp1 & _ & Hf).
    rewrite Hget, Hf. cbn [obind]. by eexists.
Qed.

End BufferPoolProofs.

Lemma GetPage_failure_keeps_lock_witness :
  let w := {| bp := ex_pool_dirty; disk := ∅ |} in
  let w' := {| bp := set_readPermissionLocks <[2 := {[ex_k2]}]> ex_pool_dirty; disk := ∅ |} in
  let e := GoDBError BufferPoolFullError "buffer pool all dirty" in
  (e = GoDBError BufferPoolFullError "buffer pool all dirty" \/
   exists d', DBFile_readPage ex_file 1 (disk w) = Returns (Err e, d')) /\
  ex_k2 ∈ set_at (locks_of ReadPerm (bp w')) 2 /\
  2 ∈ currentTransactions (bp w') /\
  Pages (bp w') !! ex_k2 = None.
Proof.
  intros w w' e.
  apply (@GetPage_failure_keeps_lock elements_order ex_file 1 ex_k2 2 ReadPerm w e w').
  - reflexivity.
  - vm_compute. reflexivity.
  - vm_compute. reflexivity.
  - vm_compute. reflexivity.
Defined.

Lemma GetPage_never_evicts_dirty_witness :
  let w := {| bp := ex_pool_dirty; disk := ∅ |} in
  exists w', GetPage ex_file 1 2 ReadPerm w =
               Returns (Err (GoDBError BufferPoolFullError "buffer pool all dirty"), w').
Proof.
  intros w.
  apply (@GetPage_never_evicts_dirty elements_order ex_file 1 ex_k2 2 ReadPerm w).
  - reflexivity.
  - vm_compute. reflexivity.
  - vm_compute. reflexivity.
  - vm_compute. eexists. reflexivity.
  - vm_compute. reflexivity.
  - vm_compute. discriminate.
  - intros k p Hk. unfold w, ex_pool_dirty in Hk. cbn [bp Pages] in Hk.
    apply lookup_singleton_Some in Hk as [_ <-]. reflexivity.
Defined.

(** In a pool of capacity 1 whose cached page is clean and read-locked
    by the current transaction 1, [GetPage] of another page for
    transaction 2 evicts the locked page, whatever the iteration order. *)
Lemma GetPage_evicts_locked_page_any_order :
  forall (O : RangeOrder),
    let w := {| bp := ex_pool_read_locked; disk := ∅ |} in
    exists p w',
      GetPage ex_file 1 2 ReadPerm w = Returns (Ok p, w') /\
      1 ∈ currentTransactions (bp w) /\
      ex_k1 ∈ set_at (readPermissionLocks (bp w)) 1 /\
      Pages (bp w) !! ex_k1 = Some ex_clean_page /\
      Page_isDirty ex_clean_page = false /\
      Pages (bp w') !! ex_k1 = None /\
      1 ∈ currentTransactions (bp w') /\
      ex_k1 ∈ set_at (readPermissionLocks (bp w')) 1.
Proof.
  intros O w.
  assert (Hfree : forall other, ~ conflicting (bp w) 2 ex_k2 ReadPerm other).
  { intros other (Hin & Hne & Hlock).
    unfold w, ex_pool_read_locked in Hin. cbn [bp currentTransactions] in Hin.
    apply elem_of_union in Hin as [->%elem_of_singleton| ->%elem_of_singleton]; [|done].
    destruct Hlock as [Hl|[? _]]; [|done]. by vm_compute in Hl. }
  unfold GetPage.
  rewrite (GetPage_first_free ex_file 1 ex_k2 2 ReadPerm w eq_refl) by (done || by vm_compute).
  unfold GetPage_fetch.
  set (bp1 := set_readPermissionLocks <[2 := {[ex_k2]}]> ex_pool_read_locked).
  assert (Ha : acquire_lock (bp w) 2 ex_k2 ReadPerm = Returns bp1) by vm_refl.
  assert (Hk2 : Pages bp1 !! ex_k2 = None) by vm_refl.
  assert (Hfull : (Z.of_nat (size (Pages bp1)) >=? NumPages bp1) = true) by vm_refl.
  rewrite Ha. cbn [obind]. rewrite Hk2, Hfull.
  destruct (evictPage bp1) as [bp2|e] eqn:He.
  - apply evictPage_Ok in He as (k & p & Hk & _ & ->).
    unfold bp1, set_readPermissionLocks, ex_pool_read_locked in Hk. cbn [Pages] in Hk.
    apply lookup_singleton_Some in Hk as [<- _].
    eexists _, _. split; [reflexivity|].
    repeat split; by vm_compute.
  - apply evictPage_Err in He as [_ Hall].
    specialize (Hall ex_k1 ex_clean_page ltac:(by vm_compute)). done.
Qed.

(** C3 as stated fails: the page that [GetPage] evicts for transaction 2
    is read-locked by transaction 1, which is current before and after
    the call. *)
Lemma GetPage_evicts_locked_page :
  let w := {| bp := ex_pool_read_locked; disk := ∅ |} in
  exists p w',
    GetPage ex_file 1 2 ReadPerm w = Returns (Ok p, w') /\
    1 ∈ currentTransactions (bp w) /\
    ex_k1 ∈ set_at (readPermissionLocks (bp w)) 1 /\
    Pages (bp w) !! ex_k1 = Some ex_clean_page /\
    Page_isDirty ex_clean_page = false /\
    Pages (bp w') !! ex_k1 = None /\
    1 ∈ currentTransactions (bp w') /\
    ex_k1 ∈ set_at (readPermissionLocks (bp w')) 1.
Proof. exact (GetPage_evicts_locked_page_any_order elements_order). Qed.

(** C9 (the code differs): aborting transaction 1, which holds the write
    lock of the one dirty cached page, drops the page from the cache and
    lowers [NumPages] from 1 to 0, whatever the iteration order. *)
Theorem AbortTransaction_lowers_NumPages :
  forall (O : RangeOrder),
    NumPages ex_pool_dirty = 1 /\
    NumPages (AbortTransaction ex_pool_dirty 1) = 0 /\
    Pages (AbortTransaction ex_pool_dirty 1) = ∅.
Proof.
  intros O. split; [reflexivity|].
  unfold AbortTransaction, rollbackTransactionPages.
  assert (Hlocks : set_at (writePermissionLocks ex_pool_dirty) 1 = {[ex_k1]}) by vm_refl.
  rewrite Hlocks, range_set_singleton.
  split; vm_refl.
Qed.

(** ** The cycle search of [hasCycle] *)

#[local] Set Warnings "-clear-no-such-hyp".

Section WaitForGraph.
Context `{!RangeOrder}.
Variable deps : gmap Z (gset Z).
Variable U : gset Z.
Hypothesis U_closed : forall a b, waits_for deps a b -> b ∈ U.

Lemma tc_first_step {A} (R : relation A) a b :
  tc R a b -> exists x, R a x /\ rtc R x b.
Proof.
  intros Htc. inversion Htc as [? ? HR|? x ? HR Hx]; subst.
  - exists b. split; [done|apply rtc_refl].
  - exists x. split; [done|by apply tc_rtc].
Qed.

Lemma finished_rtc st b c :
  dfs_inv deps st -> finished st b -> rtc (waits_for deps) b c -> finished st c.
Proof.
  intros Hinv Hb Hrtc. induction Hrtc as [|b x c Hbx _ IH]; [done|].
  apply IH. by eapply dfs_inv_closed.
Qed.

Lemma size_unvisited_mono (V V' : gset Z) :
  V ⊆ V' -> (size (U ∖ V') <= size (U ∖ V))%nat.
Proof. intros HV. apply subseteq_size. set_solver. Qed.

Lemma size_unvisited_visit (V : gset Z) t :
  t ∈ U -> t ∉ V -> (size (U ∖ ({[t]} ∪ V)) < size (U ∖ V))%nat.
Proof.
  intros HtU HtV. apply subset_size. split; [set_solver|].
  intros Hsub. assert (t ∈ U ∖ ({[t]} ∪ V)) by (apply Hsub; set_solver). set_solver.
Qed.

(** Leaving [tid] once all the transactions it waits for are finished. *)
Lemma dfs_inv_leave st tid :
  dfs_inv deps st ->
  tid ∈ current_iteration_visited st ->
  (forall x, waits_for deps tid x -> finished st x) ->
  dfs_inv deps {| current_iteration_visited := current_iteration_visited st ∖ {[tid]};
                  visited := visited st |}.
Proof.
  intros [Hstack Hclosed Hacyc] Htid Hsucc.
  assert (Hfin : forall b,
    finished {| current_iteration_visited := current_iteration_visited st ∖ {[tid]};
                visited := visited st |} b <-> finished st b \/ b = tid).
  { intros b. unfold finished. cbn. split.
    - intros [Hv Hs]. destruct (decide (b = tid)) as [->|Hne]; [by right|].
      left. split; [done|]. set_solver.
    - intros [[Hv Hs]| ->]; [split; [done|set_solver]|].
      split; [set_solver|set_solver]. }
  constructor.
  - cbn. set_solver.
  - intros b c Hb Hbc. apply Hfin. left.
    apply Hfin in Hb as [Hb| ->]; [by eapply Hclosed|by apply Hsucc].
  - intros b Hb. apply Hfin in Hb as [Hb| ->]; [by apply Hacyc|].
    intros (x & Hx & Hrtc)%tc_first_step.
    assert (finished st tid) as [_ Hnot].
    { eapply finished_rtc; [by constructor|by apply Hsucc|done]. }
    done.
Qed.

(** Entering [tid]. *)
Lemma dfs_inv_enter st tid :
  dfs_inv deps st -> tid ∉ visited st ->
  dfs_inv deps {| current_iteration_visited := {[tid]} ∪ current_iteration_visited st;
                  visited := {[tid]} ∪ visited st |}.
Proof.
  intros [Hstack Hclosed Hacyc] Htid.
  assert (Hfin : forall b,
    finished {| current_iteration_visited := {[tid]} ∪ current_iteration_visited st;
                visited := {[tid]} ∪ visited st |} b <-> finished st b).
  { intros b. unfold finished. cbn. set_solver. }
  constructor.
  - cbn. set_solver.
  - intros b c Hb Hbc. apply Hfin. apply Hfin in Hb. by eapply Hclosed.
  - intros b Hb. apply Hfin in Hb. by apply Hacyc.
Qed.

(** The specification of the recursive call, for states with at most [n]
    transactions left to visit. *)
Definition dfs_spec (n : nat) (rec : Z -> dfs_state -> option (bool * dfs_state)) : Prop :=
  forall t st,
    dfs_inv deps st -> t ∈ U -> t ∉ visited st ->
    (size (U ∖ visited st) <= n)%nat ->
    (forall s, s ∈ current_iteration_visited st -> rtc (waits_for deps) s t) ->
    exists res st', rec t st = Some (res, st') /\ dfs_post deps t st res st'.

Lemma dfs_loop_spec n rec tid nexts : forall st,
  dfs_spec n rec ->
  dfs_inv deps st ->
  tid ∈ current_iteration_visited st ->
  (size (U ∖ visited st) <= n)%nat ->
  (forall s, s ∈ current_iteration_visited st -> rtc (waits_for deps) s tid) ->
  (forall x, x ∈ nexts -> waits_for deps tid x) ->
  (forall x, waits_for deps tid x -> x ∈ nexts \/ finished st x) ->
  exists res st',
    dfs_loop rec tid nexts st = Some (res, st') /\
    if res then exists c, rtc (waits_for deps) tid c /\ on_cycle deps c
    else dfs_inv deps st' /\
         current_iteration_visited st' = current_iteration_visited st ∖ {[tid]} /\
         visited st ⊆ visited st'.
Proof.
  induction nexts as [|next rest IH]; intros st Hrec Hinv Htid Hsize Hpath Hsub Hall.
  - exists false. eexists. split; [reflexivity|]. cbn.
    split; [|done]. apply dfs_inv_leave; [done..|].
    intros x Hx. destruct (Hall x Hx) as [Hin|Hf]; [by apply elem_of_nil in Hin|done].
  - assert (Hedge : waits_for deps tid next) by (apply Hsub; by left).
    cbn [dfs_loop].
    destruct (bool_decide_reflect (next ∈ visited st)) as [Hv|Hnv]; cbn [negb].
    + destruct (bool_decide_reflect (next ∈ current_iteration_visited st)) as [Hs|Hns].
      * exists true, st. split; [done|]. exists next. split; [by apply rtc_once|].
        eapply tc_rtc_l; [by apply Hpath|by apply tc_once].
      * apply IH; try done.
        -- intros x Hx. apply Hsub. by right.
        -- intros x Hx. destruct (Hall x Hx) as [[->|Hin]%elem_of_cons|Hf];
             [by right|by left|by right].
    + destruct (Hrec next st) as (res & st1 & Hcall & Hpost); try done.
      { by eapply U_closed. }
      { intros s Hs. eapply rtc_r; [by apply Hpath|done]. }
      rewrite Hcall. destruct res; cbn [dfs_post] in Hpost.
      * destruct Hpost as (c & Hc & Hcyc).
        exists true, st1. split; [done|]. exists c. split; [|done].
        by eapply rtc_l.
      * destruct Hpost as (Hinv1 & Hs1 & Hv1 & Hnext).
        destruct (IH st1) as (res & st' & Hloop & Hpost'); try done.
        -- by rewrite Hs1.
        -- etrans; [by apply size_unvisited_mono|done].
        -- intros s Hs. apply Hpath. by rewrite <- Hs1.
        -- intros x Hx. apply Hsub. by right.
        -- intros x Hx.
           assert (Hmono : forall y, finished st y -> finished st1 y).
           { intros y [Hy1 Hy2]. split; [by apply Hv1|by rewrite Hs1]. }
           destruct (Hall x Hx) as [[->|Hin]%elem_of_cons|Hf]; [|by left|by right; apply Hmono].
           right. split; [done|].
           rewrite Hs1. intros Hs. apply Hnv. by apply (dfs_inv_stack _ _ Hinv).
        -- exists res, st'. split; [done|]. destruct res; [done|].
           destruct Hpost' as (Hinv' & Hs' & Hv'). split; [done|].
           split; [by rewrite Hs', Hs1|]. by etrans.
Qed.

Lemma dfs_spec_fuel n : dfs_spec n (dfs n deps).
Proof.
  induction n as [|n IH]; intros t st Hinv HtU Htv Hsize Hpath.
  - exfalso. assert (t ∈ U ∖ visited st) as Hin by set_solver.
    assert (size (U ∖ visited st) = 0)%nat as Hz%size_empty_inv by lia.
    set_solver.
  - cbn [dfs].
    set (st1 := {| current_iteration_visited := {[t]} ∪ current_iteration_visited st;
                   visited := {[t]} ∪ visited st |}).
    destruct (dfs_loop_spec n (dfs n deps) t (range_set (set_at deps t)) st1)
      as (res & st' & Hloop & Hpost); try done.
    + by apply dfs_inv_enter.
    + cbn. set_solver.
    + cbn. pose proof (size_unvisited_visit (visited st) t HtU Htv). lia.
    + cbn. intros s [->%elem_of_singleton|Hs]%elem_of_union; [apply rtc_refl|by apply Hpath].
    + intros x Hx. by apply elem_of_range_set in Hx.
    + intros x Hx. left. by apply elem_of_range_set.
    + exists res, st'. split; [done|]. destruct res; [done|].
      destruct Hpost as (Hinv' & Hs' & Hv'). cbn in Hs', Hv'.
      split; [done|]. split; [|split; set_solver].
      rewrite Hs'. pose proof (dfs_inv_stack _ _ Hinv). set_solver.
Qed.

Lemma hasCycle_loop_spec n tids : forall st,
  dfs_inv deps st ->
  current_iteration_visited st = ∅ ->
  (size (U ∖ visited st) <= n)%nat ->
  (forall t, t ∈ tids -> t ∈ U) ->
  exists res,
    hasCycle_loop n deps tids st = Some res /\
    if res then exists r c, r ∈ tids /\ rtc (waits_for deps) r c /\ on_cycle deps c
    else exists st', dfs_inv deps st' /\ current_iteration_visited st' = ∅ /\
                     visited st ⊆ visited st' /\ forall t, t ∈ tids -> t ∈ visited st'.
Proof.
  induction tids as [|tid rest IH]; intros st Hinv Hs Hsize HU.
  - exists false. split; [done|]. exists st. split; [done|]. split; [done|].
    split; [done|]. intros t Ht. by apply elem_of_nil in Ht.
  - cbn [hasCycle_loop].
    destruct (bool_decide_reflect (tid ∈ visited st)) as [Hv|Hnv]; cbn [negb].
    + destruct (IH st) as (res & Hloop & Hpost); try done.
      { intros t Ht. apply HU. by right. }
      exists res. split; [done|]. destruct res.
      * destruct Hpost as (r & c & Hr & Hrest). exists r, c. split; [by right|done].
      * destruct Hpost as (st' & Hinv' & Hs' & Hv' & Hall).
        exists st'. split; [done|]. split; [done|]. split; [done|].
        intros t [->|Ht]%elem_of_cons; [by apply Hv'|by apply Hall].
    + destruct (dfs_spec_fuel n tid st) as (res & st1 & Hcall & Hpost); try done.
      { apply HU. by left. }
      { intros s. rewrite Hs. set_solver. }
      rewrite Hcall. destruct res; cbn [dfs_post] in Hpost.
      * exists true. split; [done|]. destruct Hpost as (c & Hc & Hcyc).
        exists tid, c. split; [by left|done].
      * destruct Hpost as (Hinv1 & Hs1 & Hv1 & Htid).
        destruct (IH st1) as (res & Hloop & Hpost'); try done.
        { by rewrite Hs1. }
        { etrans; [by apply size_unvisited_mono|done]. }
        { intros t Ht. apply HU. by right. }
        exists res. split; [done|]. destruct res.
        -- destruct Hpost' as (r & c & Hr & Hrest). exists r, c. split; [by right|done].
        -- destruct Hpost' as (st' & Hinv' & Hs' & Hv' & Hall).
           exists st'. split; [done|]. split; [done|]. split; [by etrans|].
           intros t [->|Ht]%elem_of_cons; [by apply Hv'|by apply Hall].
Qed.

End WaitForGraph.

Section Deadlock.
Context `{!RangeOrder}.

Lemma wait_nodes_closed bp a b :
  waits_for (transactionDependencies bp) a b -> b ∈ wait_nodes bp.
Proof.
  unfold waits_for, set_at, wait_nodes.
  destruct (transactionDependencies bp !! a) as [s|] eqn:Ha; cbn; [|set_solver].
  intros Hb. apply elem_of_union_r, elem_of_union_list.
  exists s. split; [|done].
  apply list_elem_of_fmap. exists (a, s). split; [done|].
  by apply elem_of_map_to_list.
Qed.

Lemma dfs_inv_init deps :
  dfs_inv deps {| current_iteration_visited := ∅; visited := ∅ |}.
Proof.
  constructor; cbn; [done|intros b c [Hb _]; set_solver|intros b [Hb _]; set_solver].
Qed.

(** The search of [hasCycle] terminates within its fuel, and it answers
    true exactly when a current transaction reaches a cycle of the
    wait-for graph. *)
Lemma hasCycle_run_spec bp :
  exists res, hasCycle_run bp = Some res /\ (res = true <-> has_reachable_cycle bp).
Proof.
  unfold hasCycle_run, hasCycle_fuel.
  destruct (hasCycle_loop_spec (transactionDependencies bp) (wait_nodes bp)
              (wait_nodes_closed bp) (S (size (wait_nodes bp)))
              (range_set (currentTransactions bp))
              {| current_iteration_visited := ∅; visited := ∅ |})
    as (res & Hrun & Hpost).
  - apply dfs_inv_init.
  - done.
  - cbn. etrans; [apply subseteq_size|apply Nat.le_succ_diag_r]. set_solver.
  - intros t Ht%elem_of_range_set. unfold wait_nodes. set_solver.
  - exists res. split; [done|]. destruct res.
    + split; [|done]. intros _. destruct Hpost as (r & c & Hr%elem_of_range_set & Hrc & Hc).
      by exists r, c.
    + split; [done|]. intros (r & c & Hr & Hrc & Hc). exfalso.
      destruct Hpost as (st' & Hinv & Hs & _ & Hall).
      assert (finished st' r) as Hfr.
      { split; [by apply Hall, elem_of_range_set|]. rewrite Hs. set_solver. }
      eapply (dfs_inv_acyclic _ _ Hinv c); [|done].
      by eapply finished_rtc.
Qed.

Lemma hasCycle_true_iff bp : hasCycle bp = true <-> has_reachable_cycle bp.
Proof.
  unfold hasCycle. destruct (hasCycle_run_spec bp) as (res & -> & Hres). done.
Qed.

(** When every transaction with a dependency set is current, each cycle
    can be reached from a current transaction. *)
Lemma has_reachable_cycle_iff bp :
  deps_of_current bp ->
  has_reachable_cycle bp <-> has_cycle (transactionDependencies bp).
Proof.
  intros Hdom. split.
  - intros (r & t & _ & _ & Ht). by exists t.
  - intros (t & Ht). exists t, t. split; [|split; [apply rtc_refl|done]].
    apply tc_first_step in Ht as (x & Hx & _).
    apply Hdom, elem_of_dom. unfold waits_for, set_at in Hx.
    destruct (transactionDependencies bp !! t); [done|]. cbn in Hx. set_solver.
Qed.

(** *** A conflict recorded by checkConflictingLocks *)

Lemma addDependencyIfLocked_locked bp otherTID tid key locks ds :
  transactionDependencies bp !! tid = Some ds ->
  key ∈ set_at locks otherTID ->
  addDependencyIfLocked bp otherTID tid key locks =
    Returns (true, set_transactionDependencies <[tid := {[otherTID]} ∪ ds]> bp).
Proof.
  intros Hds Hk. unfold addDependencyIfLocked.
  by rewrite bool_decide_eq_true_2, Hds.
Qed.

Lemma checkConflictingLocks_loop_spec others bp tid key perm ds :
  transactionDependencies bp !! tid = Some ds ->
  (forall o, o ∈ others -> o ∈ currentTransactions bp) ->
  ((forall o, o ∈ others -> ~ conflicting bp tid key perm o) /\
   checkConflictingLocks_loop others bp tid key perm = Returns (false, bp)) \/
  (exists other, other ∈ others /\ conflicting bp tid key perm other /\
     checkConflictingLocks_loop others bp tid key perm =
       Returns (true, set_transactionDependencies <[tid := {[other]} ∪ ds]> bp)).
Proof.
  intros Hds. induction others as [|o others IH]; intros Hcur.
  - left. split; [|done]. intros o Ho. by apply elem_of_nil in Ho.
  - assert (Hcur' : forall o', o' ∈ others -> o' ∈ currentTransactions bp)
      by (intros o' Ho'; apply Hcur; by right).
    assert (Ho : o ∈ currentTransactions bp) by (apply Hcur; by left).
    cbn [checkConflictingLocks_loop].
    destruct (bool_decide_reflect (o = tid)) as [->|Hne].
    { destruct (IH Hcur') as [[Hfree Hres]|(other & Hin & Hconf & Hres)].
      - left. split; [|done].
        intros o' [->|Ho']%elem_of_cons; [by intros (_ & ? & _)|by apply Hfree].
      - right. exists other. split; [by right|done]. }
    assert (Hcase :
      (~ conflicting bp tid key perm o /\
       match perm with
       | ReadPerm => addDependencyIfLocked bp o tid key (writePermissionLocks bp)
       | WritePerm =>
           do (c1, bp1) <- addDependencyIfLocked bp o tid key (readPermissionLocks bp);
           if c1 then Returns (true, bp1)
           else addDependencyIfLocked bp1 o tid key (writePermissionLocks bp1)
       end = Returns (false, bp)) \/
      (conflicting bp tid key perm o /\
       match perm with
       | ReadPerm => addDependencyIfLocked bp o tid key (writePermissionLocks bp)
       | WritePerm =>
           do (c1, bp1) <- addDependencyIfLocked bp o tid key (readPermissionLocks bp);
           if c1 then Returns (true, bp1)
           else addDependencyIfLocked bp1 o tid key (writePermissionLocks bp1)
       end = Returns (true, set_transactionDependencies <[tid := {[o]} ∪ ds]> bp))).
    { destruct (decide (key ∈ set_at (writePermissionLocks bp) o)) as [Hw|Hw];
        destruct perm.
      - right. split; [by repeat split; try left|].
        by apply addDependencyIfLocked_locked.
      - right. split; [by repeat split; try left|].
        destruct (decide (key ∈ set_at (readPermissionLocks bp) o)) as [Hr|Hr].
        + by rewrite (addDependencyIfLocked_locked _ _ _ _ _ ds).
        + rewrite addDependencyIfLocked_free by done. cbn [obind].
          by apply addDependencyIfLocked_locked.
      - left. split; [by intros (_ & _ & [?|[? _]])|].
        by apply addDependencyIfLocked_free.
      - destruct (decide (key ∈ set_at (readPermissionLocks bp) o)) as [Hr|Hr].
        + right. split; [by repeat split; try right|].
          by rewrite (addDependencyIfLocked_locked _ _ _ _ _ ds).
        + left. split; [by intros (_ & _ & [?|[_ ?]])|].
          rewrite addDependencyIfLocked_free by done. cbn [obind].
          by apply addDependencyIfLocked_free. }
    destruct Hcase as [[Hfree ->]|[Hconf ->]]; cbn [obind].
    + destruct (IH Hcur') as [[Hfree' Hres]|(other & Hin & Hconf & Hres)].
      * left. split; [|done].
        intros o' [->|Ho']%elem_of_cons; [done|by apply Hfree'].
      * right. exists other. split; [by right|done].
    + right. exists o. split; [by left|done].
Qed.

(** [checkConflictingLocks] reports no conflict when no current
    transaction holds a conflicting lock; otherwise it reports a conflict
    and records one wait-for edge from [tid] to such a transaction. *)
Lemma checkConflictingLocks_spec bp tid key perm ds :
  transactionDependencies bp !! tid = Some ds ->
  ((forall o, ~ conflicting bp tid key perm o) /\
   checkConflictingLocks bp tid key perm = Returns (false, bp)) \/
  (exists other, conflicting bp tid key perm other /\
     checkConflictingLocks bp tid key perm =
       Returns (true, set_transactionDependencies <[tid := {[other]} ∪ ds]> bp)).
Proof.
  intros Hds. unfold checkConflictingLocks.
  destruct (checkConflictingLocks_loop_spec (range_set (currentTransactions bp))
              bp tid key perm ds Hds) as [[Hfree Hres]|(other & _ & Hconf & Hres)].
  - intros o Ho. by apply elem_of_range_set.
  - left. split; [|done]. intros o Hconf. apply (Hfree o); [|done].
    apply elem_of_range_set. by destruct Hconf.
  - right. by exists other.
Qed.

(** *** AbortTransaction *)

Lemma rollbackTransactionPages_frame bp tid :
  transactionDependencies (rollbackTransactionPages bp tid) = transactionDependencies bp /\
  readPermissionLocks (rollbackTransactionPages bp tid) = readPermissionLocks bp /\
  writePermissionLocks (rollbackTransactionPages bp tid) = writePermissionLocks bp /\
  currentTransactions (rollbackTransactionPages bp tid) = currentTransactions bp.
Proof.
  unfold rollbackTransactionPages.
  generalize (range_set (set_at (writePermissionLocks bp) tid)) as keys.
  intros keys. revert bp. induction keys as [|k keys IH]; intros bp; [done|].
  cbn [foldl]. destruct (Pages bp !! k) as [pg|]; [|apply IH].
  destruct (Page_isDirty pg); [|apply IH].
  destruct (IH (set_NumPages (fun n => wrap_int64 (n - 1)) (set_Pages (delete k) bp)))
    as (-> & -> & -> & ->). done.
Qed.

(** After [AbortTransaction] a current transaction has left the pool. *)
Lemma AbortTransaction_aborted bp tid :
  tid ∈ currentTransactions bp -> aborted (AbortTransaction bp tid) tid.
Proof.
  intros Hin. unfold AbortTransaction.
  rewrite bool_decide_eq_true_2 by done. cbn [negb].
  destruct (rollbackTransactionPages_frame bp tid) as (Hd & Hr & Hw & Hc).
  unfold aborted, remove_from_dependencies, removeTransactionLocks. cbn.
  rewrite Hd, Hr, Hw, Hc.
  split; [set_solver|]. split; [by rewrite lookup_delete_eq|].
  split; [by rewrite lookup_delete_eq|].
  split; [by rewrite lookup_fmap, lookup_delete_eq|].
  intros t. unfold waits_for, set_at. rewrite lookup_fmap.
  destruct (delete tid (transactionDependencies bp) !! t); cbn; set_solver.
Qed.

End Deadlock.

Section DeadlockClaims.
Context `{!RangeOrder}.

Lemma checkConflictingLocks_loop_nodeps others bp tid key perm :
  transactionDependencies bp !! tid = None ->
  checkConflictingLocks_loop others bp tid key perm = Returns (false, bp) \/
  exists msg, checkConflictingLocks_loop others bp tid key perm = Panics msg.
Proof.
  intros Hnone. induction others as [|o others IH]; [by left|].
  cbn [checkConflictingLocks_loop].
  destruct (bool_decide (o = tid)); [done|].
  assert (Hadd : forall locks,
    addDependencyIfLocked bp o tid key locks = Returns (false, bp) \/
    exists msg, addDependencyIfLocked bp o tid key locks = Panics msg).
  { intros locks. unfold addDependencyIfLocked. rewrite Hnone.
    destruct (bool_decide _); [right; by eexists|by left]. }
  destruct perm.
  - destruct (Hadd (writePermissionLocks bp)) as [->|[msg ->]]; cbn [obind];
      [done|right; by eexists].
  - destruct (Hadd (readPermissionLocks bp)) as [->|[msg ->]]; cbn [obind];
      [|right; by eexists].
    destruct (Hadd (writePermissionLocks bp)) as [->|[msg ->]]; cbn [obind];
      [done|right; by eexists].
Qed.

(** A reported conflict is a real one, and what it changes is one edge
    of the wait-for graph. *)
Lemma checkConflictingLocks_true bp tid key perm bp1 :
  checkConflictingLocks bp tid key perm = Returns (true, bp1) ->
  exists other ds,
    conflicting bp tid key perm other /\
    transactionDependencies bp !! tid = Some ds /\
    bp1 = set_transactionDependencies <[tid := {[other]} ∪ ds]> bp.
Proof.
  intros Hres.
  destruct (transactionDependencies bp !! tid) as [ds|] eqn:Hds.
  - destruct (checkConflictingLocks_spec bp tid key perm ds Hds)
      as [[_ Hr]|(other & Hconf & Hr)]; [congruence|].
    exists other, ds. split; [done|]. split; [done|]. congruence.
  - unfold checkConflictingLocks in Hres.
    destruct (checkConflictingLocks_loop_nodeps (range_set (currentTransactions bp))
                bp tid key perm Hds) as [Hr|[msg Hr]]; congruence.
Qed.

(** What a conflicted call of [GetPage] does: when the conflict check
    reports a conflict, the transaction is aborted and the call fails
    with the deadlock error exactly when the wait-for graph, with the
    edge the check recorded, contains a cycle -- any cycle, through the
    transaction or not; without a cycle the call sleeps and goes through
    the loop again; and when the deadlock error comes back the
    transaction has been aborted: it is not current, holds no lock and
    occurs in no wait-for edge. *)
Theorem GetPage_conflict_deadlock file pageNumber key tid perm w bp1 :
  DBFile_pageKey file pageNumber = Returns key ->
  tid ∈ currentTransactions (bp w) ->
  deps_of_current (bp w) ->
  checkConflictingLocks (bp w) tid key perm = Returns (true, bp1) ->
  let deadlock := Failed (errors_New "transaction aborted; there is a cycle") in
  (has_cycle (transactionDependencies bp1) <->
   exists w', GetPage_first file pageNumber tid perm w = Returns (deadlock, w')) /\
  (~ has_cycle (transactionDependencies bp1) <->
   GetPage_first file pageNumber tid perm w = Returns (Retry, {| bp := bp1; disk := disk w |})) /\
  (forall w', GetPage_first file pageNumber tid perm w = Returns (deadlock, w') ->
     w' = {| bp := AbortTransaction bp1 tid; disk := disk w |} /\
     aborted (bp w') tid).
Proof.
  intros Hkey Hin Hdom Hccl deadlock.
  destruct (checkConflictingLocks_true _ _ _ _ _ Hccl) as (other & ds & Hconf & Hds & Hbp1).
  assert (Hin1 : tid ∈ currentTransactions bp1) by (by subst bp1).
  assert (Hdom1 : deps_of_current bp1).
  { subst bp1. unfold deps_of_current in *. cbn. rewrite dom_insert.
    assert (tid ∈ dom (transactionDependencies (bp w))) by (apply elem_of_dom; by eexists).
    set_solver. }
  assert (Hget : GetPage_first file pageNumber tid perm w =
                 if hasCycle bp1
                 then Returns (deadlock, {| bp := AbortTransaction bp1 tid; disk := disk w |})
                 else Returns (Retry, {| bp := bp1; disk := disk w |})).
  { unfold GetPage_first, GetPage_pass. rewrite Hkey. cbn [obind].
    rewrite bool_decide_eq_true_2 by done. cbn [negb]. by rewrite Hccl. }
  pose proof (hasCycle_true_iff bp1) as Hcyc.
  rewrite (has_reachable_cycle_iff bp1 Hdom1) in Hcyc.
  rewrite Hget. destruct (hasCycle bp1).
  - assert (has_cycle (transactionDependencies bp1)) as Hc by (by apply Hcyc).
    split; [split; [by eexists|done]|]. split; [split; [done|discriminate]|].
    intros w' [= <-]. split; [done|]. by apply AbortTransaction_aborted.
  - assert (~ has_cycle (transactionDependencies bp1)) as Hc.
    { intros Hc%Hcyc. discriminate. }
    split; [split; [done|by intros [w' ?]]|]. split; [done|]. discriminate.
Qed.

End DeadlockClaims.

Example ex_deadlock_history_reaches :
  ex_deadlock_history = Returns (true, ex_pool_deadlock).
Proof. vm_refl. Qed.

(** Transaction 2 asks for the page that transaction 1 has write-locked:
    a conflict without a cycle, and the call goes round its loop. *)
Lemma GetPage_conflict_deadlock_witness :
  let w := {| bp := ex_pool_dirty; disk := ∅ |} in
  let bp1 := set_transactionDependencies <[2 := {[1]} ∪ ∅]> ex_pool_dirty in
  let deadlock := Failed (errors_New "transaction aborted; there is a cycle") in
  (has_cycle (transactionDependencies bp1) <->
   exists w', GetPage_first ex_file 0 2 ReadPerm w = Returns (deadlock, w')) /\
  (~ has_cycle (transactionDependencies bp1) <->
   GetPage_first ex_file 0 2 ReadPerm w = Returns (Retry, {| bp := bp1; disk := disk w |})) /\
  (forall w', GetPage_first ex_file 0 2 ReadPerm w = Returns (deadlock, w') ->
     w' = {| bp := AbortTransaction bp1 2; disk := disk w |} /\
     aborted (bp w') 2).
Proof.
  intros w bp1.
  apply (@GetPage_conflict_deadlock elements_order ex_file 0 ex_k1 2 ReadPerm w bp1).
  - reflexivity.
  - vm_compute. reflexivity.
  - unfold deps_of_current. apply (bool_decide_unpack _). vm_compute. reflexivity.
  - vm_compute. reflexivity.
Defined.

(** With the cycle between transactions 1 and 2 still in the graph,
    [GetPage] of page 3 for transaction 3, which conflicts with
    transaction 4 only, aborts transaction 3 and fails with the deadlock
    error, whatever the iteration order, although no cycle of the
    wait-for graph goes through transaction 3. *)
Lemma GetPage_aborts_off_cycle_any_order :
  forall (O : RangeOrder),
    let w := {| bp := ex_pool_deadlock; disk := ∅ |} in
    let bp1 := set_transactionDependencies <[3 := {[4]} ∪ ∅]> ex_pool_deadlock in
    checkConflictingLocks (bp w) 3 ex_k4 ReadPerm = Returns (true, bp1) /\
    GetPage_first ex_file 3 3 ReadPerm w =
      Returns (Failed (errors_New "transaction aborted; there is a cycle"),
               {| bp := AbortTransaction bp1 3; disk := ∅ |}) /\
    aborted (AbortTransaction bp1 3) 3 /\
    ~ on_cycle (transactionDependencies bp1) 3.
Proof.
  intros O w bp1.
  assert (Hccl : checkConflictingLocks (bp w) 3 ex_k4 ReadPerm = Returns (true, bp1)).
  { assert (Hds : transactionDependencies (bp w) !! 3 = Some ∅) by vm_refl.
    destruct (checkConflictingLocks_spec (bp w) 3 ex_k4 ReadPerm ∅ Hds)
      as [[Hfree _]|(other & (Hin & Hne & Hlock) & Hres)].
    - exfalso. apply (Hfree 4). split; [by vm_compute|]. split; [done|]. left. by vm_compute.
    - destruct Hlock as [Hl|[? _]]; [|done].
      unfold w, ex_pool_deadlock in Hin. cbn [bp currentTransactions] in Hin.
      rewrite !elem_of_union, !elem_of_singleton in Hin.
      destruct Hin as [[[-> | ->] | ->] | ->]; try done; by vm_compute in Hl. }
  assert (Hnot : ~ on_cycle (transactionDependencies bp1) 3).
  { assert (H3 : set_at (transactionDependencies bp1) 3 = {[4]}) by vm_refl.
    assert (H4 : set_at (transactionDependencies bp1) 4 = ∅) by vm_refl.
    intros (x & Hx & Hrtc)%tc_first_step.
    unfold waits_for in Hx. rewrite H3 in Hx. apply elem_of_singleton in Hx as ->.
    inversion Hrtc as [|? y ? Hy _]; subst.
    unfold waits_for in Hy. rewrite H4 in Hy. by apply elem_of_empty in Hy. }
  assert (Hcyc : hasCycle bp1 = true).
  { apply hasCycle_true_iff. exists 1, 1. split; [by vm_compute|]. split; [apply rtc_refl|].
    apply (tc_l _ 1 2 1); [by vm_compute|]. apply tc_once. by vm_compute. }
  split; [done|]. split.
  - unfold GetPage_first, GetPage_pass.
    change (DBFile_pageKey ex_file 3) with (Returns (A:=pageKey) ex_k4). cbn [obind].
    rewrite bool_decide_eq_true_2 by (by vm_compute). cbn [negb].
    rewrite Hccl. cbn [obind]. by rewrite Hcyc.
  - split; [|done]. apply AbortTransaction_aborted. by vm_compute.
Qed.

(** C4 (the code differs): in the pool that [ex_deadlock_history]
    reaches, where transactions 1 and 2 wait for each other and
    transaction 2 has not yet been aborted, transaction 3 asks for the
    page that transaction 4 has write-locked.  It is aborted and its call
    fails with the deadlock error, although the wait-for graph, with the
    edge from 3 to 4 that the conflict check recorded, has no cycle
    through transaction 3. *)
Lemma GetPage_aborts_off_cycle :
  let w := {| bp := ex_pool_deadlock; disk := ∅ |} in
  let bp1 := set_transactionDependencies <[3 := {[4]} ∪ ∅]> ex_pool_deadlock in
  ex_deadlock_history = Returns (true, ex_pool_deadlock) /\
  checkConflictingLocks (bp w) 3 ex_k4 ReadPerm = Returns (true, bp1) /\
  GetPage_first ex_file 3 3 ReadPerm w =
    Returns (Failed (errors_New "transaction aborted; there is a cycle"),
             {| bp := AbortTransaction bp1 3; disk := ∅ |}) /\
  aborted (AbortTransaction bp1 3) 3 /\
  ~ on_cycle (transactionDependencies bp1) 3.
Proof.
  split; [exact ex_deadlock_history_reaches|].
  exact (GetPage_aborts_off_cycle_any_order elements_order).
Qed.

(** ** The AVG aggregation state *)

(** C5 (the code differs): after [Init] the count is 0, and [AddTuple]
    divides the sum by it before incrementing it, so the first [AddTuple]
    panics, and so does the run over any non-empty sequence of tuples. *)
Theorem AvgAggState_first_AddTuple_panics a alias expr (t : Tuple) (ts : list Tuple) :
  AvgAggState_AddTuple (AvgAggState_Init a alias expr) (Some t)
    = Panics "runtime error: integer divide by zero" /\
  AvgAggState_run a alias expr (t :: ts)
    = Panics "runtime error: integer divide by zero".
Proof.
  assert (AvgAggState_AddTuple (AvgAggState_Init a alias expr) (Some t)
          = Panics "runtime error: integer divide by zero") as Hadd by reflexivity.
  split; [exact Hadd|].
  unfold AvgAggState_run. cbn [AvgAggState_AddTuples]. by rewrite Hadd.
Qed.

Example ex_avg_run :
  AvgAggState_run ex_avg_state "avg" ex_age_expr [ex_t1; ex_t2]
  = Panics "runtime error: integer divide by zero".
Proof. reflexivity. Qed.

(** ** The row file *)

(** C8, as the code has it: [deleteTuple] on a tuple whose record id is
    nil returns nil, without an error, and touches neither the pool nor
    the file system. *)
Theorem HeapFile_deleteTuple_nil_rid `{!RangeOrder} f t tid w :
  Rid t = RidNil ->
  HeapFile_deleteTuple f t tid w = Returns (None, w).
Proof. intros Hrid. unfold HeapFile_deleteTuple. by rewrite Hrid. Qed.

Lemma HeapFile_deleteTuple_nil_rid_witness :
  HeapFile_deleteTuple ex_heapFile ex_t1 1 {| bp := ex_pool_dirty; disk := ∅ |}
  = Returns (None, {| bp := ex_pool_dirty; disk := ∅ |}).
Proof.
  apply (@HeapFile_deleteTuple_nil_rid elements_order). reflexivity.
Defined.

(** C8 as stated fails: the call returns nil (success) for the example
    tuple, whose record id is nil. *)
Lemma HeapFile_deleteTuple_nil_rid_no_error :
  Rid ex_t1 = RidNil /\
  HeapFile_deleteTuple ex_heapFile ex_t1 1 {| bp := ex_pool_dirty; disk := ∅ |}
  = Returns (None, {| bp := ex_pool_dirty; disk := ∅ |}).
Proof. split; reflexivity. Qed.

(** C7 (the code differs): after the history [ex_insert_history] the file
    has two pages, page 0 has its one slot free and is marked not
    available, page 1 is full.  [insertTuple] skips page 0 without
    looking at it, finds page 1 full, and allocates and flushes page 2,
    while the slot of page 0 stays free. *)
Theorem HeapFile_insertTuple_skips_free_slot :
  match ex_insert_history with
  | Returns (f, w) =>
      pagesNum f = 2 /\ availablePages f = [false; true] /\
      cached_occupancy w (HeapFile_pageKey f 0) = Some (0, 1) /\
      cached_occupancy w (HeapFile_pageKey f 1) = Some (1, 1) /\
      length <$> disk w !! backingFile f = Some (2 * Z.to_nat PageSize)%nat /\
      match HeapFile_insertTuple f (ex_wide_tuple "c") 1 w with
      | Returns (err, f', w') =>
          err = None /\
          pagesNum f' = 3 /\ availablePages f' = [false; false; true] /\
          cached_occupancy w' (HeapFile_pageKey f 0) = Some (0, 1) /\
          cached_occupancy w' (HeapFile_pageKey f 2) = Some (1, 1) /\
          length <$> disk w' !! backingFile f = Some (3 * Z.to_nat PageSize)%nat
      | _ => False
      end
  | _ => False
  end.
Proof. vm_compute. repeat split. Qed.

(** When no page is marked available, [insertTuple] looks at no page at
    all and goes on to allocate a new one. *)
Lemma insertTuple_loop_none_idle `{!RangeOrder} idles pageNo f tid w :
  Forall (fun idle => idle = false) idles ->
  insertTuple_loop idles pageNo f tid w = Returns (Ok None, f, w).
Proof.
  intros Hall. revert pageNo. induction Hall as [|idle idles -> _ IH]; intros pageNo; [done|].
  cbn [insertTuple_loop]. apply IH.
Qed.

(** ** The Insert and Delete operators *)

Lemma wrap_int64_add_l a b : wrap_int64 (wrap_int64 a + b) = wrap_int64 (a + b).
Proof.
  unfold wrap_int64. f_equal.
  replace ((a + 2 ^ 63) mod 2 ^ 64 - 2 ^ 63 + b + 2 ^ 63)
    with ((a + 2 ^ 63) mod 2 ^ 64 + b) by lia.
  rewrite Zplus_mod_idemp_l. f_equal. lia.
Qed.

Lemma wrap_int64_range z : in_int64 (wrap_int64 z).
Proof.
  unfold in_int64, wrap_int64.
  pose proof (Z.mod_pos_bound (z + 2 ^ 63) (2 ^ 64) ltac:(lia)). lia.
Qed.

Lemma wrap_int64_id z : in_int64 z -> wrap_int64 z = z.
Proof. unfold wrap_int64, in_int64. intros Hz. rewrite Z.mod_small; lia. Qed.

Section OperatorProofs.
Context {Σ : Type}.
Implicit Types (σ : Σ) (child_iter : Iter Σ).

Lemma InsertOp_next_drains (ifile : OpFile Σ) child tid child_iter σ ts σ' :
  drains (insertTuple ifile) tid child_iter σ ts σ' ->
  forall fuel counter, (length ts < fuel)%nat -> in_int64 counter ->
    InsertOp_next fuel (NewInsertOp ifile child) tid child_iter counter σ
    = Some (Returns ((Some (count_tuple (wrap_int64 (counter + Z.of_nat (length ts)))), None),
                     wrap_int64 (counter + Z.of_nat (length ts)), σ')).
Proof.
  induction 1 as [σ σ' Hnil|σ t σ1 σ2 ts σ' Hpull Hins _ IH]; intros fuel counter Hfuel Hc.
  - destruct fuel as [|fuel]; [simpl in Hfuel; lia|].
    cbn [InsertOp_next]. rewrite Hnil.
    cbn [length Z.of_nat]. by rewrite Z.add_0_r, wrap_int64_id.
  - destruct fuel as [|fuel]; [simpl in Hfuel; lia|].
    cbn [InsertOp_next]. rewrite Hpull. cbn [NewInsertOp insertFile]. rewrite Hins.
    rewrite (IH fuel (wrap_int64 (counter + 1))) by (simpl in Hfuel; lia || apply wrap_int64_range).
    rewrite wrap_int64_add_l. cbn [length].
    by replace (counter + 1 + Z.of_nat (length ts)) with (counter + Z.of_nat (S (length ts))) by lia.
Qed.

Lemma InsertOp_next_never_nil (ifile : OpFile Σ) child tid child_iter fuel :
  forall counter σ r c' σ',
    InsertOp_next fuel (NewInsertOp ifile child) tid child_iter counter σ
      = Some (Returns ((r, None), c', σ')) ->
    r = Some (count_tuple c').
Proof.
  induction fuel as [|fuel IH]; intros counter σ r c' σ'; [done|].
  cbn [InsertOp_next].
  destruct (child_iter σ) as [[[[t|] [err|]] σ1]| |]; try done.
  - cbn [NewInsertOp insertFile].
    destruct (insertTuple ifile t tid σ1) as [[[err|] σ2]| |]; try done.
    apply IH.
  - by intros [= <- <- <-].
Qed.

Lemma DeleteOp_drain_drains (dfile : OpFile Σ) child tid child_iter σ ts σ' :
  drains (deleteTuple dfile) tid child_iter σ ts σ' ->
  forall fuel count, (length ts < fuel)%nat -> in_int64 count ->
    DeleteOp_drain fuel (NewDeleteOp dfile child) tid child_iter count σ
    = Some (Returns (Ok (wrap_int64 (count + Z.of_nat (length ts))), σ')).
Proof.
  induction 1 as [σ σ' Hnil|σ t σ1 σ2 ts σ' Hpull Hdel _ IH]; intros fuel count Hfuel Hc.
  - destruct fuel as [|fuel]; [simpl in Hfuel; lia|].
    cbn [DeleteOp_drain]. rewrite Hnil.
    cbn [length Z.of_nat]. by rewrite Z.add_0_r, wrap_int64_id.
  - destruct fuel as [|fuel]; [simpl in Hfuel; lia|].
    cbn [DeleteOp_drain]. rewrite Hpull. cbn [NewDeleteOp deleteFile]. rewrite Hdel.
    rewrite (IH fuel (wrap_int64 (count + 1))) by (simpl in Hfuel; lia || apply wrap_int64_range).
    rewrite wrap_int64_add_l. cbn [length].
    by replace (count + 1 + Z.of_nat (length ts)) with (count + Z.of_nat (S (length ts))) by lia.
Qed.

(** C6, as the code has it.  When the child yields the tuples [ts] and
    then nil and the file accepts each of them, the first pull of the
    Insert iterator drains the child, inserts each tuple and yields one
    tuple with the count, and [DeleteOp.Iterator] drains the child and
    deletes each tuple while it makes the iterator, whose pulls yield one
    tuple with the count.  No later pull yields null: the Insert iterator
    asks the child again and yields the count tuple once more whenever
    the child yields nil, and the Delete iterator yields the count tuple
    on every pull. *)
Theorem InsertOp_DeleteOp_yield_count (ifile dfile : OpFile Σ) child tid
    child_iter σ ts σ' :
  let iop := NewInsertOp ifile child in
  let dop := NewDeleteOp dfile child in
  let n := wrap_int64 (Z.of_nat (length ts)) in
  (drains (insertTuple ifile) tid child_iter σ ts σ' ->
   forall fuel, (length ts < fuel)%nat ->
     InsertOp_next fuel iop tid child_iter 0 σ
     = Some (Returns ((Some (count_tuple n), None), n, σ'))) /\
  (forall fuel counter σ1 r c' σ2,
     InsertOp_next fuel iop tid child_iter counter σ1 = Some (Returns ((r, None), c', σ2)) ->
     r = Some (count_tuple c')) /\
  (forall fuel counter σ1 σ2,
     child_iter σ1 = Returns ((None, None), σ2) ->
     InsertOp_next (S fuel) iop tid child_iter counter σ1
     = Some (Returns ((Some (count_tuple counter), None), counter, σ2))) /\
  (drains (deleteTuple dfile) tid child_iter σ ts σ' ->
   forall fuel, (length ts < fuel)%nat ->
     DeleteOp_drain fuel dop tid child_iter 0 σ = Some (Returns (Ok n, σ'))) /\
  (forall count σ1,
     DeleteOp_next dop count σ1 = Returns ((Some (count_tuple count), None), σ1)).
Proof.
  intros iop dop n. split; [|split; [|split; [|split]]].
  - intros Hd fuel Hfuel.
    apply (InsertOp_next_drains ifile child tid child_iter σ ts σ' Hd fuel 0 Hfuel).
    unfold in_int64. lia.
  - intros fuel. apply InsertOp_next_never_nil.
  - intros fuel counter σ1 σ2 Hnil. cbn [InsertOp_next]. by rewrite Hnil.
  - intros Hd fuel Hfuel.
    apply (DeleteOp_drain_drains dfile child tid child_iter σ ts σ' Hd fuel 0 Hfuel).
    unfold in_int64. lia.
  - done.
Qed.

End OperatorProofs.

Lemma ex_list_drains_insert :
  drains (insertTuple ex_list_file) 1 ex_list_iter
    ([ex_t1; ex_t2], []) [ex_t1; ex_t2] ([], [ex_t1; ex_t2]).
Proof.
  eapply drains_cons; [reflexivity|reflexivity|].
  eapply drains_cons; [reflexivity|reflexivity|].
  apply drains_nil. reflexivity.
Defined.

Lemma InsertOp_DeleteOp_yield_count_witness :
  InsertOp_next 3 (NewInsertOp ex_list_file ex_list_child) 1 ex_list_iter 0
    ([ex_t1; ex_t2], [])
  = Some (Returns ((Some (count_tuple 2), None), 2, ([], [ex_t1; ex_t2]))).
Proof.
  apply (proj1 (InsertOp_DeleteOp_yield_count ex_list_file ex_list_file ex_list_child 1
                  ex_list_iter ([ex_t1; ex_t2], []) [ex_t1; ex_t2] ([], [ex_t1; ex_t2]))
               ex_list_drains_insert 3%nat).
  simpl. lia.
Defined.

(** C6 as stated fails: over the list child and the collecting file, the
    first pull of the Insert iterator inserts the two tuples and yields
    the count 2, and the second pull yields the count tuple again, not
    null; the Delete iterator yields its count tuple on the second pull
    as on the first. *)
Lemma InsertOp_second_pull_not_null :
  let iop := NewInsertOp ex_list_file ex_list_child in
  let dop := NewDeleteOp ex_list_file ex_list_child in
  let σ1 := ([], [ex_t1; ex_t2]) in
  InsertOp_next 3 iop 1 ex_list_iter 0 ([ex_t1; ex_t2], [])
    = Some (Returns ((Some (count_tuple 2), None), 2, σ1)) /\
  InsertOp_next 3 iop 1 ex_list_iter 2 σ1
    = Some (Returns ((Some (count_tuple 2), None), 2, σ1)) /\
  InsertOp_next 3 iop 1 ex_list_iter 2 σ1 <> Some (Returns ((None, None), 2, σ1)) /\
  DeleteOp_Iterator 3 dop 1 ([ex_t1; ex_t2], [ex_t1; ex_t2]) = Some (Returns (Ok 2, ([], []))) /\
  DeleteOp_next dop 2 ([], []) = Returns ((Some (count_tuple 2), None), ([], [])) /\
  DeleteOp_next dop 2 ([], []) <> Returns ((None, None), ([], [])).
Proof.
  intros iop dop σ1.
  split; [reflexivity|]. split; [reflexivity|]. split; [discriminate|].
  split; [reflexivity|]. split; [reflexivity|discriminate].
Qed.

(* ------------------------------------------------------------------ *)
(** * More of the code: proofs *)

#[local] Set Warnings "-clear-no-such-hyp".

(* ================= PROOFS (batch 1: tuple.go) ================= *)

(** ** Tuples on the wire *)

(** X1 (Tuple.writeTo, readTupleFrom): a tuple whose values fit the
    fields of a descriptor is written as exactly the fixed number of bytes
    of that descriptor, appended to the buffer, and reading a tuple of the
    descriptor from these bytes gives back the same values (with the
    descriptor read for, and no record id) and consumes nothing else. *)
Theorem Tuple_writeTo_readTupleFrom (t : Tuple) (desc : TupleDesc) (b rest : list byte) :
  Forall2 conforms (Fields t) (FieldTypes desc) ->
  exists bytes,
    Tuple_writeTo t b = Ok (b ++ bytes) /\
    Z.of_nat (length bytes) = bytes_per_tuple desc /\
    readTupleFrom (bytes ++ rest) desc
      = Ok ({| Desc := desc; Fields := Fields t; Rid := RidNil |}, rest).
Proof.
  intros Hc. exists (tuple_bytes (Fields t)). split; [|split].
  - unfold Tuple_writeTo. by apply writeTo_fields_ok with (descs := FieldTypes desc).
  - by apply length_tuple_bytes.
  - unfold readTupleFrom. by rewrite (readTupleFrom_fields_roundtrip _ _ _ Hc).
Qed.

Lemma Tuple_writeTo_readTupleFrom_witness :
  exists bytes,
    Tuple_writeTo ex_t1 [] = Ok ([] ++ bytes) /\
    Z.of_nat (length bytes) = bytes_per_tuple ex_td /\
    readTupleFrom (bytes ++ []) ex_td
      = Ok ({| Desc := ex_td; Fields := Fields ex_t1; Rid := RidNil |}, []).
Proof.
  apply (Tuple_writeTo_readTupleFrom ex_t1 ex_td [] []).
  repeat constructor; cbv; intros; discriminate.
Defined.

Lemma writeTo_buffer_conforms fs descs b :
  Forall2 conforms fs descs -> writeTo_buffer fs b = b ++ tuple_bytes fs.
Proof.
  intros Hc. revert b. induction Hc as [|v d fs ds Hv _ IH]; intros b.
  - by rewrite app_nil_r.
  - destruct v as [z|s|]; [..|by destruct (Ftype d)];
      cbn [writeTo_buffer]; rewrite IH; unfold writeIntField, writeStringField, tuple_bytes;
      cbn [map concat field_bytes]; by rewrite <- app_assoc.
Qed.

Lemma string_of_list_byte_inj l1 l2 :
  string_of_list_byte l1 = string_of_list_byte l2 -> l1 = l2.
Proof.
  intros H. rewrite <- (list_byte_of_string_of_list_byte l1),
    <- (list_byte_of_string_of_list_byte l2). by rewrite H.
Qed.

(** X2 (Tuple.tupleKey): two tuples whose values fit the same descriptor
    have the same key exactly when they have the same values; the key
    tells such tuples apart. *)
Theorem Tuple_tupleKey_inj (t1 t2 : Tuple) (desc : TupleDesc) :
  Forall2 conforms (Fields t1) (FieldTypes desc) ->
  Forall2 conforms (Fields t2) (FieldTypes desc) ->
  Tuple_tupleKey t1 = Tuple_tupleKey t2 <-> Fields t1 = Fields t2.
Proof.
  intros H1 H2. split; [|by unfold Tuple_tupleKey; intros ->].
  unfold Tuple_tupleKey. intros Hk. apply string_of_list_byte_inj in Hk.
  rewrite (writeTo_buffer_conforms _ _ _ H1), (writeTo_buffer_conforms _ _ _ H2) in Hk.
  cbn [app] in Hk.
  pose proof (readTupleFrom_fields_roundtrip _ _ [] H1) as R1.
  pose proof (readTupleFrom_fields_roundtrip _ _ [] H2) as R2.
  rewrite Hk in R1. rewrite R1 in R2. by inversion R2.
Qed.

Lemma Tuple_tupleKey_inj_witness :
  Tuple_tupleKey ex_t1 = Tuple_tupleKey ex_t2 <-> Fields ex_t1 = Fields ex_t2.
Proof.
  apply (Tuple_tupleKey_inj ex_t1 ex_t2 ex_td);
    repeat constructor; cbv; intros; discriminate.
Defined.

(** ** Equality of tuples and descriptors *)

Lemma TupleDesc_equals_fields_iff d1 d2 :
  TupleDesc_equals_fields d1 d2 = true <-> Forall2 same_field d1 d2.
Proof.
  revert d2. induction d1 as [|f1 d1 IH]; intros [|f2 d2]; cbn [TupleDesc_equals_fields].
  - split; [constructor|done].
  - split; [done|inversion 1].
  - split; [done|inversion 1].
  - repeat case_bool_decide; cbn [negb].
    + rewrite IH. split; [by constructor|by inversion 1].
    + split; [done|]. inversion 1 as [|???? [? ?]]; done.
    + split; [done|]. inversion 1 as [|???? [? ?]]; done.
    + split; [done|]. inversion 1 as [|???? [? ?]]; done.
Qed.

(** X3 (Tuple.equals, TupleDesc.equals): two tuples are equal for
    [Tuple.equals] exactly when they hold the same values and their
    descriptors agree field by field on name and type; record ids and
    table qualifiers are not compared.  A nil tuple equals only nil. *)
Theorem Tuple_equals_iff (t1 t2 : Tuple) :
  (Tuple_equals (Some t1) (Some t2) = true <->
     Fields t1 = Fields t2 /\
     Forall2 (fun d1 d2 => Fname d1 = Fname d2 /\ Ftype d1 = Ftype d2)
             (FieldTypes (Desc t1)) (FieldTypes (Desc t2))) /\
  Tuple_equals (Some t1) None = false /\
  Tuple_equals None (Some t2) = false /\
  Tuple_equals None None = true.
Proof.
  split; [|done]. unfold Tuple_equals.
  destruct (length (Fields t1) =? length (Fields t2))%nat eqn:Hlen; cbn [negb].
  - destruct (TupleDesc_equals (Desc t1) (Desc t2)) eqn:Hd; cbn [negb].
    + apply TupleDesc_equals_fields_iff in Hd. rewrite bool_decide_eq_true. naive_solver.
    + split; [done|]. intros [_ Hf]. apply TupleDesc_equals_fields_iff in Hf.
      unfold TupleDesc_equals in Hd. congruence.
  - split; [done|]. intros [Hf _]. apply Nat.eqb_neq in Hlen. by rewrite Hf in Hlen.
Qed.

(** ** Projection *)

Lemma find_index_Some {A} (p : A -> bool) l i j :
  find_index p l i = Some j ->
  exists x, (i <= j)%nat /\ l !! (j - i)%nat = Some x /\ p x = true.
Proof.
  revert i. induction l as [|y l IH]; intros i; cbn [find_index]; [done|].
  destruct (p y) eqn:Hp.
  - intros [= <-]. exists y. rewrite Nat.sub_diag. by split; [lia|].
  - intros Hf. destruct (IH _ Hf) as (x & Hle & Hx & Hpx). exists x.
    split; [lia|]. split; [|done].
    replace (j - i)%nat with (S (j - S i)) by lia. done.
Qed.

Lemma find_index_None {A} (p : A -> bool) l i :
  find_index p l i = None <-> Forall (fun x => p x = false) l.
Proof.
  revert i. induction l as [|y l IH]; intros i; cbn [find_index].
  - split; [constructor|done].
  - destruct (p y) eqn:Hp.
    + split; [done|]. inversion 1; congruence.
    + rewrite IH. split; [by constructor|by inversion 1].
Qed.

Lemma find_index_first {A} (p : A -> bool) l1 x l2 i :
  Forall (fun y => p y = false) l1 -> p x = true ->
  find_index p (l1 ++ x :: l2) i = Some (i + length l1)%nat.
Proof.
  intros Hl1 Hx. revert i. induction Hl1 as [|y l1 Hy _ IH]; intros i; cbn.
  - rewrite Hx. f_equal. lia.
  - rewrite Hy, IH. f_equal. lia.
Qed.

Lemma project_match_named t field d :
  d ∈ FieldTypes (Desc t) -> Fname d = Fname field ->
  exists i d', project_match t field = Some i /\
               FieldTypes (Desc t) !! i = Some d' /\ Fname d' = Fname field.
Proof.
  intros Hd Hn. unfold project_match.
  destruct (find_index _ _ _) as [i|] eqn:H1.
  - apply find_index_Some in H1 as (x & _ & Hx & Hp).
    rewrite Nat.sub_0_r in Hx. exists i, x. split; [done|]. split; [done|].
    apply andb_true_iff in Hp as [Hp _]. by apply bool_decide_eq_true in Hp.
  - clear H1. destruct (find_index _ _ _) as [i|] eqn:H2.
    + apply find_index_Some in H2 as (x & _ & Hx & Hp).
      rewrite Nat.sub_0_r in Hx. exists i, x. split; [done|]. split; [done|].
      by apply bool_decide_eq_true in Hp.
    + apply find_index_None in H2. rewrite Forall_forall in H2.
      specialize (H2 d Hd). apply bool_decide_eq_false in H2. congruence.
Qed.

Lemma project_match_unnamed t field :
  (forall d, d ∈ FieldTypes (Desc t) -> Fname d <> Fname field) ->
  project_match t field = None.
Proof.
  intros Hno. unfold project_match.
  assert (forall p : FieldType -> bool,
             (forall x, p x = true -> Fname field = Fname x) ->
             find_index p (FieldTypes (Desc t)) 0%nat = None) as Hnone.
  { intros p Hp. apply find_index_None, Forall_forall. intros d Hd.
    destruct (p d) eqn:Hpd; [|done]. exfalso. apply (Hno d Hd). symmetry. by apply Hp. }
  rewrite !Hnone; [done|..].
  - intros x Hx. by apply bool_decide_eq_true in Hx.
  - intros x Hx. apply andb_true_iff in Hx as [Hx _]. by apply bool_decide_eq_true in Hx.
Qed.





Lemma project_match_own t pre d suf :
  FieldTypes (Desc t) = pre ++ d :: suf ->
  NoDup (map (fun d => (Fname d, TableQualifier d)) (FieldTypes (Desc t))) ->
  project_match t d = Some (length pre).
Proof.
  intros Hdesc Hnd. unfold project_match. rewrite Hdesc.
  rewrite (find_index_first _ pre d suf 0).
  - done.
  - rewrite Hdesc, map_app in Hnd. cbn [map] in Hnd.
    apply NoDup_app in Hnd as (_ & Hdis & _).
    apply Forall_forall. intros y Hy.
    apply andb_false_iff.
    destruct (decide (Fname d = Fname y)) as [Hn|Hn];
      [|left; by apply bool_decide_eq_false].
    right. apply bool_decide_eq_false. intros Hq.
    apply (Hdis (Fname y, TableQualifier y)).
    + apply list_elem_of_fmap. by exists y.
    + rewrite <- Hn, <- Hq. apply list_elem_of_here.
  - by rewrite !bool_decide_eq_true_2.
Qed.

Lemma project_fields_own t : forall suf pre vpre vsuf,
  FieldTypes (Desc t) = pre ++ suf -> Fields t = vpre ++ vsuf ->
  length pre = length vpre -> length suf = length vsuf ->
  NoDup (map (fun d => (Fname d, TableQualifier d)) (FieldTypes (Desc t))) ->
  project_fields t suf vpre pre
  = Returns (Ok {| Desc := {| FieldTypes := pre ++ suf |};
                   Fields := vpre ++ vsuf; Rid := RidNil |}).
Proof.
  induction suf as [|d suf IH]; intros pre vpre vsuf Hd Hf Hl1 Hl2 Hnd.
  - destruct vsuf; [|done]. cbn [project_fields]. by rewrite !app_nil_r.
  - destruct vsuf as [|v vsuf]; [done|]. cbn [project_fields].
    rewrite (project_match_own t pre d suf Hd Hnd).
    rewrite Hd, Hf.
    rewrite (list_lookup_middle vpre vsuf v (length pre)) by done.
    rewrite (list_lookup_middle pre suf d (length pre)) by done.
    rewrite (IH (pre ++ [d]) (vpre ++ [v]) vsuf).
    + by rewrite <- !app_assoc.
    + by rewrite <- app_assoc.
    + by rewrite <- app_assoc.
    + rewrite !length_app. cbn. lia.
    + cbn in Hl2. lia.
    + done.
Qed.

(** X5 (Tuple.project): projecting a tuple on the fields of its own
    descriptor returns the tuple itself, without its record id, when the
    tuple has one value per field and no two fields of the descriptor
    share both name and table qualifier. *)
Theorem Tuple_project_own_fields (t : Tuple) :
  length (Fields t) = length (FieldTypes (Desc t)) ->
  NoDup (map (fun d => (Fname d, TableQualifier d)) (FieldTypes (Desc t))) ->
  Tuple_project t (FieldTypes (Desc t))
  = Returns (Ok {| Desc := Desc t; Fields := Fields t; Rid := RidNil |}).
Proof.
  intros Hlen Hnd. unfold Tuple_project.
  rewrite (project_fields_own t (FieldTypes (Desc t)) [] [] (Fields t)); try done.
  by destruct (Desc t).
Qed.

Lemma Tuple_project_own_fields_witness :
  Tuple_project ex_t1 (FieldTypes (Desc ex_t1))
  = Returns (Ok {| Desc := Desc ex_t1; Fields := Fields ex_t1; Rid := RidNil |}).
Proof.
  apply (Tuple_project_own_fields ex_t1); [reflexivity|].
  cbn. apply NoDup_cons. split; [|apply NoDup_singleton].
  intros H. apply list_elem_of_singleton in H. discriminate H.
Defined.

(** ** Field lookup in a descriptor *)

Lemma findFieldInTd_loop_no_match field fields i best :
  Forall (fun f => field_matches field f = false) fields ->
  findFieldInTd_loop field fields i best = findFieldInTd_loop field [] i best.
Proof.
  intros Hno. revert i. induction Hno as [|f fields Hf _ IH]; intros i; [done|].
  cbn [findFieldInTd_loop]. rewrite Hf. apply IH.
Qed.

Lemma findFieldInTd_loop_found field i best :
  best <> -1 -> findFieldInTd_loop field [] i best = (best, None).
Proof.
  intros Hb. cbn. destruct (best =? -1) eqn:E; [lia|done].
Qed.

Lemma findFieldInTd_loop_skip field l i best rest :
  Forall (fun f => field_matches field f = false) l ->
  findFieldInTd_loop field (l ++ rest) i best
  = findFieldInTd_loop field rest (i + Z.of_nat (length l)) best.
Proof.
  intros Hl. revert i. induction Hl as [|f l Hf _ IH]; intros i.
  - cbn. f_equal. lia.
  - cbn [app findFieldInTd_loop]. rewrite Hf, IH. f_equal. cbn [length]. lia.
Qed.

Lemma field_matches_Fname field f : field_matches field f = true -> Fname f = Fname field.
Proof.
  unfold field_matches. intros H. apply andb_true_iff in H as [H _].
  by apply bool_decide_eq_true in H.
Qed.

(** X6 (findFieldInTd): for a field asked for without table qualifier,
    the lookup returns the not-found error when no descriptor entry has
    the name and type asked for, the index of the entry when exactly one
    has, and the ambiguity error when two or more have. *)
Theorem findFieldInTd_unqualified (field : FieldType) (desc : TupleDesc) :
  TableQualifier field = "" ->
  (Forall (fun f => field_matches field f = false) (FieldTypes desc) ->
   findFieldInTd field desc
   = (-1, Some (GoDBError IncompatibleTypesError
                  ("field " +:+ TableQualifier field +:+ "." +:+ Fname field
                   +:+ " not found")))) /\
  (forall l1 f l2,
     FieldTypes desc = l1 ++ f :: l2 ->
     Forall (fun f => field_matches field f = false) l1 ->
     field_matches field f = true ->
     Forall (fun f => field_matches field f = false) l2 ->
     findFieldInTd field desc = (Z.of_nat (length l1), None)) /\
  (forall l1 f1 l2 f2 l3,
     FieldTypes desc = l1 ++ f1 :: l2 ++ f2 :: l3 ->
     Forall (fun f => field_matches field f = false) l1 ->
     field_matches field f1 = true ->
     Forall (fun f => field_matches field f = false) l2 ->
     field_matches field f2 = true ->
     findFieldInTd field desc
     = (0, Some (GoDBError AmbiguousNameError
                   ("select name " +:+ Fname field +:+ " is ambiguous")))).
Proof.
  intros Hq. unfold findFieldInTd.
  pose proof (findFieldInTd_loop_skip field) as Hskip.
  split; [|split].
  - intros Hno. by rewrite findFieldInTd_loop_no_match.
  - intros l1 f l2 -> H1 Hf H2. rewrite Hskip by done.
    cbn [findFieldInTd_loop]. rewrite Hf. cbn.
    rewrite andb_false_r, orb_true_r.
    rewrite findFieldInTd_loop_no_match by done.
    rewrite findFieldInTd_loop_found by lia. f_equal; lia.
  - intros l1 f1 l2 f2 l3 -> H1 Hf1 H2 Hf2. rewrite Hskip by done.
    cbn [findFieldInTd_loop]. rewrite Hf1. cbn.
    rewrite andb_false_r, orb_true_r.
    rewrite Hskip by done. cbn [findFieldInTd_loop]. rewrite Hf2.
    rewrite (bool_decide_eq_true_2 _ Hq).
    destruct (Z.eqb_spec (0 + Z.of_nat (length l1)) (-1)) as [E|E]; [lia|].
    cbn. by rewrite (field_matches_Fname _ _ Hf2).
Qed.

Lemma findFieldInTd_unqualified_witness :
  (Forall (fun f => field_matches {| Fname := "age"; TableQualifier := ""; Ftype := IntType |} f
                    = false) (FieldTypes ex_td) ->
   findFieldInTd {| Fname := "age"; TableQualifier := ""; Ftype := IntType |} ex_td
   = (-1, Some (GoDBError IncompatibleTypesError
                  ("field " +:+ "" +:+ "." +:+ "age" +:+ " not found")))) /\
  (forall l1 f l2,
     FieldTypes ex_td = l1 ++ f :: l2 ->
     Forall (fun f => field_matches {| Fname := "age"; TableQualifier := ""; Ftype := IntType |} f
                      = false) l1 ->
     field_matches {| Fname := "age"; TableQualifier := ""; Ftype := IntType |} f = true ->
     Forall (fun f => field_matches {| Fname := "age"; TableQualifier := ""; Ftype := IntType |} f
                      = false) l2 ->
     findFieldInTd {| Fname := "age"; TableQualifier := ""; Ftype := IntType |} ex_td
     = (Z.of_nat (length l1), None)) /\
  (forall l1 f1 l2 f2 l3,
     FieldTypes ex_td = l1 ++ f1 :: l2 ++ f2 :: l3 ->
     Forall (fun f => field_matches {| Fname := "age"; TableQualifier := ""; Ftype := IntType |} f
                      = false) l1 ->
     field_matches {| Fname := "age"; TableQualifier := ""; Ftype := IntType |} f1 = true ->
     Forall (fun f => field_matches {| Fname := "age"; TableQualifier := ""; Ftype := IntType |} f
                      = false) l2 ->
     field_matches {| Fname := "age"; TableQualifier := ""; Ftype := IntType |} f2 = true ->
     findFieldInTd {| Fname := "age"; TableQualifier := ""; Ftype := IntType |} ex_td
     = (0, Some (GoDBError AmbiguousNameError
                   ("select name " +:+ "age" +:+ " is ambiguous")))).
Proof.
  apply (findFieldInTd_unqualified
           {| Fname := "age"; TableQualifier := ""; Ftype := IntType |} ex_td).
  reflexivity.
Defined.

Example findFieldInTd_ex :
  findFieldInTd {| Fname := "age"; TableQualifier := ""; Ftype := IntType |} ex_td = (1, None).
Proof. reflexivity. Qed.

(** X7 (findFieldInTd): for a field asked for with a table qualifier,
    the lookup returns the last descriptor entry of the name and type
    asked for that carries this qualifier when there is one, otherwise
    the first entry of the name and type asked for, and the not-found
    error when there is none; it never reports an ambiguity. *)
Theorem findFieldInTd_qualified (field : FieldType) (desc : TupleDesc) :
  TableQualifier field <> "" ->
  (forall l1 f l2,
     FieldTypes desc = l1 ++ f :: l2 ->
     field_matches field f = true -> TableQualifier f = TableQualifier field ->
     Forall (fun g => field_matches field g = true ->
                      TableQualifier g <> TableQualifier field) l2 ->
     findFieldInTd field desc = (Z.of_nat (length l1), None)) /\
  (forall l1 f l2,
     FieldTypes desc = l1 ++ f :: l2 ->
     Forall (fun g => field_matches field g = false) l1 ->
     field_matches field f = true ->
     Forall (fun g => field_matches field g = true ->
                      TableQualifier g <> TableQualifier field) (f :: l2) ->
     findFieldInTd field desc = (Z.of_nat (length l1), None)) /\
  (Forall (fun f => field_matches field f = false) (FieldTypes desc) ->
   findFieldInTd field desc
   = (-1, Some (GoDBError IncompatibleTypesError
                  ("field " +:+ TableQualifier field +:+ "." +:+ Fname field
                   +:+ " not found")))).
Proof.
  intros Hq. unfold findFieldInTd.
  assert (bool_decide (TableQualifier field = "") = false) as Hqb
    by by apply bool_decide_eq_false.
  (* the loop over a prefix only changes [best] *)
  assert (forall l i best rest, exists best',
             findFieldInTd_loop field (l ++ rest) i best
             = findFieldInTd_loop field rest (i + Z.of_nat (length l)) best') as Hpre.
  { induction l as [|f l IH]; intros i best rest.
    - exists best. cbn. f_equal. lia.
    - cbn [app findFieldInTd_loop]. rewrite Hqb. cbn [andb].
      destruct (field_matches field f);
        [destruct (bool_decide (TableQualifier f = TableQualifier field) || (best =? -1))|];
        (edestruct IH as [b' ->]; exists b'; f_equal; cbn [length]; lia). }
  (* entries without the qualifier leave a [best] that is set *)
  assert (forall l i best,
             best <> -1 ->
             Forall (fun g => field_matches field g = true ->
                              TableQualifier g <> TableQualifier field) l ->
             findFieldInTd_loop field l i best = (best, None)) as Hkeep.
  { intros l i best Hb Hl. revert i. induction Hl as [|g l Hg _ IH]; intros i.
    - by apply findFieldInTd_loop_found.
    - cbn [findFieldInTd_loop]. rewrite Hqb. cbn [andb].
      destruct (field_matches field g) eqn:Hm; [|apply IH].
      rewrite bool_decide_eq_false_2 by by apply Hg.
      destruct (Z.eqb_spec best (-1)) as [E|E]; [lia|]. cbn [orb]. apply IH. }
  split; [|split].
  - intros l1 f l2 -> Hf Hfq Hl2.
    destruct (Hpre l1 0 (-1) (f :: l2)) as [b' ->].
    cbn [findFieldInTd_loop]. rewrite Hf, Hqb. cbn [andb].
    rewrite (bool_decide_eq_true_2 _ Hfq). cbn [orb].
    rewrite Hkeep by (done || lia). f_equal; lia.
  - intros l1 f l2 -> Hl1 Hf Hl2.
    rewrite findFieldInTd_loop_skip by done.
    inversion Hl2 as [|?? Hfq Hl2']; subst.
    cbn [findFieldInTd_loop]. rewrite Hf, Hqb. cbn [andb].
    rewrite orb_true_r.
    rewrite Hkeep by (done || lia). f_equal; lia.
  - intros Hno. by rewrite findFieldInTd_loop_no_match.
Qed.

Lemma findFieldInTd_qualified_witness :
  let field := {| Fname := "age"; TableQualifier := "t"; Ftype := IntType |} in
  (forall l1 f l2,
     FieldTypes ex_td = l1 ++ f :: l2 ->
     field_matches field f = true -> TableQualifier f = TableQualifier field ->
     Forall (fun g => field_matches field g = true ->
                      TableQualifier g <> TableQualifier field) l2 ->
     findFieldInTd field ex_td = (Z.of_nat (length l1), None)) /\
  (forall l1 f l2,
     FieldTypes ex_td = l1 ++ f :: l2 ->
     Forall (fun g => field_matches field g = false) l1 ->
     field_matches field f = true ->
     Forall (fun g => field_matches field g = true ->
                      TableQualifier g <> TableQualifier field) (f :: l2) ->
     findFieldInTd field ex_td = (Z.of_nat (length l1), None)) /\
  (Forall (fun f => field_matches field f = false) (FieldTypes ex_td) ->
   findFieldInTd field ex_td
   = (-1, Some (GoDBError IncompatibleTypesError
                  ("field " +:+ TableQualifier field +:+ "." +:+ Fname field
                   +:+ " not found")))).
Proof.
  apply (findFieldInTd_qualified
           {| Fname := "age"; TableQualifier := "t"; Ftype := IntType |} ex_td).
  discriminate.
Defined.

(** ** Comparison of field values *)

Lemma string_compare_refl s : String.compare s s = Eq.
Proof. by apply OrderedTypeEx.String_as_OT.cmp_eq. Qed.

(** X8 (compareFields): on two integers or two strings the comparison is
    a total order: it answers equal exactly for equal values, less than
    exactly when the swapped comparison answers greater than, and less
    than is transitive; on values of different types (or a nil value) it
    returns an error. *)
Theorem compareFields_total_order (val1 val2 val3 : DBValue) :
  (compareFields val1 val2 = (OrderedEqual, None) <-> val1 = val2 /\ val1 <> NilValue) /\
  (compareFields val1 val2 = (OrderedLessThan, None) <->
   compareFields val2 val1 = (OrderedGreaterThan, None)) /\
  (compareFields val1 val2 = (OrderedLessThan, None) ->
   compareFields val2 val3 = (OrderedLessThan, None) ->
   compareFields val1 val3 = (OrderedLessThan, None)) /\
  (is_Some (snd (compareFields val1 val2)) <->
   Sprintf_T val1 <> Sprintf_T val2 \/ val1 = NilValue).
Proof.
  split; [|split; [|split]].
  - destruct val1 as [a|a|], val2 as [b|b|]; cbn; try (split; [done|intros [? ?]; done]).
    + destruct (a >? b) eqn:E1; [split; [done|intros [[= ->] _]; lia]|].
      destruct (a =? b) eqn:E2.
      * apply Z.eqb_eq in E2 as ->. done.
      * split; [done|]. intros [[= ->] _]. lia.
    + destruct (String.compare a b) eqn:E.
      * apply String.compare_eq_iff in E as ->. done.
      * split; [done|]. intros [[= ->] _]. by rewrite string_compare_refl in E.
      * split; [done|]. intros [[= ->] _]. by rewrite string_compare_refl in E.
  - destruct val1 as [a|a|], val2 as [b|b|]; cbn; try done.
    + destruct (a >? b) eqn:E1, (b >? a) eqn:E2, (a =? b) eqn:E3, (b =? a) eqn:E4;
        try done; lia.
    + rewrite (String.compare_antisym b a). by destruct (String.compare a b).
  - destruct val1 as [a|a|], val2 as [b|b|], val3 as [c|c|]; cbn; try done.
    + destruct (a >? b) eqn:E1, (a =? b) eqn:E2; try done.
      destruct (b >? c) eqn:E3, (b =? c) eqn:E4; try done.
      destruct (a >? c) eqn:E5, (a =? c) eqn:E6; try done; lia.
    + destruct (String.compare a b) eqn:E1; try done.
      destruct (String.compare b c) eqn:E2; try done. intros _ _.
      assert (String.compare a c = Lt) as ->; [|done].
      apply OrderedTypeEx.String_as_OT.cmp_lt.
      eapply OrderedTypeEx.String_as_OT.lt_trans;
        by apply OrderedTypeEx.String_as_OT.cmp_lt.
  - destruct val1 as [a|a|], val2 as [b|b|]; cbn;
      try (split; [intros _; (by left) || (by right)|intros _; by eexists]).
    + destruct (a >? b), (a =? b); cbn;
        (split; [intros [? ?]; done|intros [?|?]; done]).
    + destruct (String.compare a b); cbn;
        (split; [intros [? ?]; done|intros [?|?]; done]).
Qed.

(** ** Record ids as strings *)

Ltac eval_digit :=
  match goal with
  | |- context [digit_of_ascii ?c] =>
      let v := eval vm_compute in (digit_of_ascii c) in
      change (digit_of_ascii c) with v; cbv iota beta
  end.

Lemma parse_digits_uint_acc d : forall acc : positive,
  parse_digits (NilEmpty.string_of_uint d) (Z.pos acc)
  = Some (Z.pos (Pos.of_uint_acc d acc)).
Proof.
  induction d; intros acc; cbn [NilEmpty.string_of_uint Pos.of_uint_acc parse_digits];
    [done|..]; eval_digit; (etransitivity; [|apply IHd]); f_equal; lia.
Qed.

Lemma parse_digits_uint d :
  parse_digits (NilEmpty.string_of_uint d) 0 = Some (Z.of_N (Pos.of_uint d)).
Proof.
  induction d; cbn [NilEmpty.string_of_uint Pos.of_uint parse_digits]; [done|..];
    eval_digit; [exact IHd|..];
    (etransitivity; [|apply (parse_digits_uint_acc d)]); f_equal.
Qed.

(** The decimal digits of a non-negative integer. *)
Lemma Sprintf_d_digits z :
  0 <= z ->
  exists d, d <> Decimal.Nil /\ Sprintf_d z = NilEmpty.string_of_uint d /\
            Z.of_N (Pos.of_uint d) = z.
Proof.
  intros Hz. unfold Sprintf_d. destruct z as [|p|p]; [| |lia].
  - exists (Decimal.D0 Decimal.Nil). done.
  - exists (Pos.to_uint p). split; [apply DecimalPos.Unsigned.to_uint_nonnil|].
    split.
    + cbn [Z.to_int NilZero.string_of_int]. unfold NilZero.string_of_uint.
      pose proof (DecimalPos.Unsigned.to_uint_nonnil p).
      by destruct (Pos.to_uint p).
    + by rewrite DecimalPos.Unsigned.of_to.
Qed.

Lemma string_of_uint_nonempty d : d <> Decimal.Nil -> NilEmpty.string_of_uint d <> "".
Proof. by destruct d. Qed.

Lemma strings_Split_dash_uint d rest :
  strings_Split_dash (NilEmpty.string_of_uint d +:+ String "-" rest)
  = NilEmpty.string_of_uint d :: strings_Split_dash rest.
Proof.
  induction d; cbn [NilEmpty.string_of_uint]; [done|..];
    change (String ?c ?s +:+ ?x) with (String c (s +:+ x));
    cbn [strings_Split_dash]; rewrite IHd; done.
Qed.

Lemma strings_Split_dash_uint_end d :
  strings_Split_dash (NilEmpty.string_of_uint d) = [NilEmpty.string_of_uint d].
Proof.
  induction d; cbn [NilEmpty.string_of_uint strings_Split_dash];
    [done|..]; rewrite IHd; done.
Qed.

Lemma strings_Split_dash_Sprintf a b :
  0 <= a -> 0 <= b ->
  strings_Split_dash (Sprintf_d_d a b) = [Sprintf_d a; Sprintf_d b].
Proof.
  intros Ha Hb. unfold Sprintf_d_d.
  destruct (Sprintf_d_digits a Ha) as (da & _ & -> & _).
  destruct (Sprintf_d_digits b Hb) as (db & _ & -> & _).
  change ("-" +:+ NilEmpty.string_of_uint db) with (String "-" (NilEmpty.string_of_uint db)).
  by rewrite strings_Split_dash_uint, strings_Split_dash_uint_end.
Qed.

Lemma strconv_Atoi_digits s v :
  s <> "" -> parse_digits s 0 = Some v -> 0 <= v < 2 ^ 63 -> strconv_Atoi s = Ok v.
Proof.
  intros Hne Hp Hv. destruct s as [|c r]; [done|].
  unfold strconv_Atoi.
  destruct (Ascii.eqb c "-") eqn:E1; [apply Ascii.eqb_eq in E1 as ->; done|].
  destruct (Ascii.eqb c "+") eqn:E2; [apply Ascii.eqb_eq in E2 as ->; done|].
  rewrite Hp.
  destruct (Z.leb_spec (- 2 ^ 63) v); [|lia].
  destruct (Z.ltb_spec v (2 ^ 63)); [done|lia].
Qed.

Lemma strconv_Atoi_Sprintf_d z : 0 <= z < 2 ^ 63 -> strconv_Atoi (Sprintf_d z) = Ok z.
Proof.
  intros Hz. destruct (Sprintf_d_digits z) as (d & Hd & Hs & Hv); [lia|].
  apply strconv_Atoi_digits; [|rewrite Hs, parse_digits_uint; by f_equal|done].
  rewrite Hs. by apply string_of_uint_nonempty.
Qed.

(** ** Row pages: new pages, insertion, deletion *)

Lemma field_width_pos ft : 8 <= field_width ft.
Proof. unfold field_width, StringLength. destruct (Ftype ft); lia. Qed.

Lemma fold_field_width_nonneg fields : 0 <= fold_right Z.add 0 (map field_width fields).
Proof.
  induction fields as [|f fs IH]; cbn; [lia|]. pose proof (field_width_pos f). lia.
Qed.

Lemma perTupleSize_loop_ok fields : forall acc,
  Forall (fun ft => Ftype ft <> UnknownType) fields ->
  0 <= acc -> acc + fold_right Z.add 0 (map field_width fields) < 2 ^ 31 ->
  perTupleSize_loop fields acc = Ok (acc + fold_right Z.add 0 (map field_width fields)).
Proof.
  induction fields as [|ft fields IH]; intros acc Hall Hacc Hsum.
  - cbn. f_equal. lia.
  - inversion Hall as [|?? Hft Hrest]; subst.
    pose proof (fold_field_width_nonneg fields) as Hnn.
    cbn [map fold_right perTupleSize_loop] in Hsum |- *.
    assert (field_width ft = match Ftype ft with StringType => 32 | _ => 8 end) as Hfw
      by reflexivity.
    destruct (Ftype ft) eqn:E; [| |done].
    + rewrite (wrap_int32_id (acc + 8)) by (unfold in_int32; lia).
      rewrite IH by (done || lia). f_equal. lia.
    + change StringLength with 32.
      rewrite (wrap_int32_id 32) by (unfold in_int32; lia).
      rewrite (wrap_int32_id (acc + 32)) by (unfold in_int32; lia).
      rewrite IH by (done || lia). f_equal. lia.
Qed.

Lemma perTupleSize_loop_unknown fields : forall acc,
  Exists (fun ft => Ftype ft = UnknownType) fields ->
  perTupleSize_loop fields acc = Err (errors_New "invalid").
Proof.
  induction fields as [|ft fields IH]; intros acc Hex; [by inversion Hex|].
  cbn. destruct (Ftype ft) eqn:E; [| |done];
    (inversion Hex as [?? Hft|?? Hrest]; subst; [congruence|by apply IH]).
Qed.

Lemma newHeapPage_Ok (desc : TupleDesc) (pageNo : Z) (f : string) :
  FieldTypes desc <> [] ->
  Forall (fun ft => Ftype ft <> UnknownType) (FieldTypes desc) ->
  bytes_per_tuple desc < 2 ^ 31 ->
  exists h,
    newHeapPage desc pageNo f = Returns (Ok h) /\
    heapPage_wf h /\
    hp_numSlots h = (PageSize - 8) / bytes_per_tuple desc /\
    hp_tuples h = replicate (Z.to_nat (hp_numSlots h)) None /\
    hp_numUsedSlots h = 0 /\ hp_Dirty h = false /\
    hp_desc h = desc /\ hp_pageNumber h = pageNo /\ hp_file h = f /\
    8 + hp_numSlots h * bytes_per_tuple desc <= PageSize.
Proof.
  intros Hne Hall Hsum. unfold newHeapPage.
  unfold bytes_per_tuple in *.
  rewrite perTupleSize_loop_ok by (done || lia). rewrite Z.add_0_l.
  set (w := fold_right Z.add 0 (map field_width (FieldTypes desc))) in *.
  assert (8 <= w) as Hw.
  { subst w. destruct (FieldTypes desc) as [|ft fs]; [done|]. cbn.
    pose proof (field_width_pos ft).
    pose proof (fold_field_width_nonneg fs). lia. }
  unfold int32_div. destruct (Z.eqb_spec w 0) as [?|_]; [lia|].
  cbn [obind].
  rewrite (wrap_int32_id (PageSize - 8)) by (unfold in_int32, PageSize; lia).
  rewrite Z.quot_div_nonneg by (unfold PageSize; lia).
  assert (0 <= (PageSize - 8) / w <= 511) as Hq.
  { split; [apply Z.div_pos; unfold PageSize; lia|].
    apply Z.div_le_upper_bound; unfold PageSize; lia. }
  rewrite (wrap_int32_id ((PageSize - 8) / w)) by (unfold in_int32; lia).
  unfold make_tuples. destruct (Z.ltb_spec ((PageSize - 8) / w) 0) as [?|_]; [lia|].
  cbn [obind]. eexists. split; [reflexivity|].
  cbn [hp_numSlots hp_tuples hp_numUsedSlots hp_Dirty hp_desc hp_pageNumber hp_file].
  repeat split; try done.
  + cbn. rewrite length_replicate. lia.
  + cbn. by rewrite stored_replicate_None.
  + cbn. lia.
  + cbn. lia.
  + cbn. rewrite stored_replicate_None. constructor.
  + pose proof (Z.mul_div_le (PageSize - 8) w). lia.
Qed.

(** X9 (newHeapPage): for a descriptor with at least one field and only
    integer and string fields, [newHeapPage] returns a clean, empty,
    well-formed page of (PageSize - 8) / width slots, all nil, whose
    header and slots fit in a page; for a descriptor with no field it
    panics with a division by zero, and for a descriptor with a field of
    unknown type it returns an error. *)
Theorem newHeapPage_empty_page (desc : TupleDesc) (pageNo : Z) (f : string) :
  (FieldTypes desc <> [] ->
   Forall (fun ft => Ftype ft <> UnknownType) (FieldTypes desc) ->
   bytes_per_tuple desc < 2 ^ 31 ->
   exists h,
     newHeapPage desc pageNo f = Returns (Ok h) /\
     heapPage_wf h /\
     hp_numSlots h = (PageSize - 8) / bytes_per_tuple desc /\
     hp_tuples h = replicate (Z.to_nat (hp_numSlots h)) None /\
     hp_numUsedSlots h = 0 /\ hp_Dirty h = false /\
     hp_desc h = desc /\ hp_pageNumber h = pageNo /\ hp_file h = f /\
     8 + hp_numSlots h * bytes_per_tuple desc <= PageSize) /\
  (FieldTypes desc = [] ->
   newHeapPage desc pageNo f = Panics "runtime error: integer divide by zero") /\
  (Exists (fun ft => Ftype ft = UnknownType) (FieldTypes desc) ->
   newHeapPage desc pageNo f = Returns (Err (errors_New "invalid"))).
Proof.
  split; [|split].
  - apply newHeapPage_Ok.
  - intros Hnil. unfold newHeapPage. by rewrite Hnil.
  - intros Hex. unfold newHeapPage. by rewrite perTupleSize_loop_unknown.
Qed.

Lemma find_index_split {A} (p : A -> bool) l i slot :
  find_index p l i = Some slot ->
  exists l1 x l2, l = l1 ++ x :: l2 /\ slot = (i + length l1)%nat /\
                  Forall (fun y => p y = false) l1 /\ p x = true.
Proof.
  revert i. induction l as [|y l IH]; intros i; cbn [find_index]; [done|].
  destruct (p y) eqn:Hp.
  - intros [= <-]. exists [], y, l. cbn. by repeat split; [lia|constructor|].
  - intros Hf. destruct (IH _ Hf) as (l1 & x & l2 & -> & -> & Hl1 & Hx).
    exists (y :: l1), x, l2. cbn. repeat split; [lia|by constructor|done].
Qed.

Lemma stored_all_Some (l : list (option Tuple)) :
  Forall (fun y => is_nil y = false) l -> length (stored l) = length l.
Proof.
  induction 1 as [|[t|] l Hy _ IH]; [done| |done].
  rewrite stored_cons_Some. cbn. by rewrite IH.
Qed.

Lemma stored_middle_Some l1 (t : Tuple) l2 :
  stored (l1 ++ Some t :: l2) = stored l1 ++ t :: stored l2.
Proof. by rewrite stored_app, stored_cons_Some. Qed.

Lemma stored_middle_None l1 l2 :
  stored (l1 ++ None :: l2) = stored l1 ++ stored l2.
Proof. by rewrite stored_app, stored_cons_None. Qed.

Lemma insert_middle {A} (l1 : list A) x y l2 :
  <[length l1 := y]> (l1 ++ x :: l2) = l1 ++ y :: l2.
Proof. rewrite insert_app_r_alt by lia. by rewrite Nat.sub_diag. Qed.

(** X10 (heapPage.insertTuple): on a well-formed page with a free slot,
    the tuple goes to the first nil slot, with the descriptor of the page
    and the record id "page-slot"; the other slots are untouched, the
    count of used slots grows by one, the page is dirty and still
    well-formed.  On a well-formed page without free slot the insertion
    returns an error and leaves the page as it is. *)
Theorem heapPage_insertTuple_first_free (h : heapPage) (t : Tuple) :
  heapPage_wf h ->
  Forall2 conforms (Fields t) (FieldTypes (hp_desc h)) ->
  (hp_numUsedSlots h < hp_numSlots h ->
   exists l1 l2 h',
     hp_tuples h = l1 ++ None :: l2 /\
     Forall (fun slot => slot <> None) l1 /\
     let rid := RidString (Sprintf_d_d (hp_pageNumber h) (Z.of_nat (length l1))) in
     heapPage_insertTuple h t = (h', Ok rid) /\
     hp_tuples h' = l1 ++ Some {| Desc := hp_desc h; Fields := Fields t; Rid := rid |} :: l2 /\
     hp_numUsedSlots h' = hp_numUsedSlots h + 1 /\
     hp_numSlots h' = hp_numSlots h /\
     hp_Dirty h' = true /\
     heapPage_wf h') /\
  (hp_numUsedSlots h = hp_numSlots h ->
   heapPage_insertTuple h t
   = (h, Err (errors_New "no available slots for tuple insertion"))).
Proof.
  intros Hwf Hc. pose proof Hwf as [Hs Hu Hi Ht]. split.
  - intros Hfree. unfold heapPage_insertTuple.
    destruct (find_index is_nil (hp_tuples h) 0) as [slot|] eqn:Hfi.
    + apply find_index_split in Hfi as (l1 & x & l2 & Htup & -> & Hl1 & Hx).
      destruct x as [?|]; [done|]. cbn [Nat.add].
      eexists l1, l2, _. split; [done|]. split.
      { eapply Forall_impl; [exact Hl1|]. by intros [?|]. }
      cbn zeta. split; [reflexivity|].
      cbn [hp_tuples hp_numUsedSlots hp_numSlots hp_Dirty].
      assert (wrap_int32 (hp_numUsedSlots h + 1) = hp_numUsedSlots h + 1) as Hw.
      { apply wrap_int32_id. unfold in_int32 in *. lia. }
      rewrite Htup, insert_middle, Hw.
      split; [done|]. split; [done|]. split; [done|]. split; [done|].
      constructor; cbn [hp_numSlots hp_tuples hp_numUsedSlots hp_desc].
      * rewrite Hs, Htup, !length_app. done.
      * rewrite stored_middle_Some, Hu, Htup, stored_middle_None, !length_app. cbn. lia.
      * done.
      * rewrite stored_middle_Some. rewrite Htup, stored_middle_None in Ht.
        apply Forall_app in Ht as [Ht1 Ht2].
        apply Forall_app. split; [done|]. by constructor.
    + exfalso. apply find_index_None in Hfi.
      apply stored_all_Some in Hfi. lia.
  - intros Hfull. unfold heapPage_insertTuple.
    destruct (find_index is_nil (hp_tuples h) 0) as [slot|] eqn:Hfi; [|done].
    exfalso. apply find_index_split in Hfi as (l1 & x & l2 & Htup & -> & Hl1 & Hx).
    destruct x as [?|]; [done|].
    rewrite Htup, stored_middle_None in Hu. rewrite Htup in Hs.
    pose proof (length_stored_le l1). pose proof (length_stored_le l2).
    rewrite !length_app in *. cbn in Hs. lia.
Qed.

Lemma heapPage_insertTuple_first_free_witness :
  (hp_numUsedSlots ex_heapPage < hp_numSlots ex_heapPage ->
   exists l1 l2 h',
     hp_tuples ex_heapPage = l1 ++ None :: l2 /\
     Forall (fun slot => slot <> None) l1 /\
     let rid := RidString (Sprintf_d_d (hp_pageNumber ex_heapPage) (Z.of_nat (length l1))) in
     heapPage_insertTuple ex_heapPage ex_t1 = (h', Ok rid) /\
     hp_tuples h'
       = l1 ++ Some {| Desc := hp_desc ex_heapPage; Fields := Fields ex_t1; Rid := rid |} :: l2 /\
     hp_numUsedSlots h' = hp_numUsedSlots ex_heapPage + 1 /\
     hp_numSlots h' = hp_numSlots ex_heapPage /\
     hp_Dirty h' = true /\
     heapPage_wf h') /\
  (hp_numUsedSlots ex_heapPage = hp_numSlots ex_heapPage ->
   heapPage_insertTuple ex_heapPage ex_t1
   = (ex_heapPage, Err (errors_New "no available slots for tuple insertion"))).
Proof.
  apply (heapPage_insertTuple_first_free ex_heapPage ex_t1).
  - exact ex_heapPage_wf.
  - repeat constructor; cbv; intros; discriminate.
Defined.

Lemma heapPage_deleteTuple_slot h (p : Z) l1 (t : Tuple) l2 :
  0 <= p -> hp_tuples h = l1 ++ Some t :: l2 -> Z.of_nat (length l1) < 2 ^ 63 ->
  heapPage_deleteTuple h (RidString (Sprintf_d_d p (Z.of_nat (length l1))))
  = ({| hp_Dirty := true; hp_pageNumber := hp_pageNumber h; hp_numSlots := hp_numSlots h;
        hp_numUsedSlots := wrap_int32 (hp_numUsedSlots h - 1);
        hp_desc := hp_desc h; hp_file := hp_file h;
        hp_tuples := l1 ++ None :: l2 |}, None).
Proof.
  intros Hp Htup Hlen. unfold heapPage_deleteTuple.
  rewrite strings_Split_dash_Sprintf by lia.
  rewrite strconv_Atoi_Sprintf_d by lia.
  destruct (Z.ltb_spec (Z.of_nat (length l1)) 0) as [?|_]; [lia|].
  rewrite Htup.
  destruct (Z.geb_spec (Z.of_nat (length l1)) (Z.of_nat (length (l1 ++ Some t :: l2))))
    as [Hge|_].
  { rewrite length_app in Hge. cbn in Hge. lia. }
  rewrite Nat2Z.id. rewrite list_lookup_middle by done. cbn.
  by rewrite insert_middle.
Qed.

(** X11 (heapPage.insertTuple, heapPage.deleteTuple): on a well-formed
    page with a non-negative page number and a free slot, deleting with
    the record id that [insertTuple] has just returned succeeds and gives
    back the slots and the count of used slots the page had before the
    insertion; the page stays dirty. *)
Theorem heapPage_insert_then_delete (h : heapPage) (t : Tuple) :
  heapPage_wf h -> 0 <= hp_pageNumber h -> hp_numUsedSlots h < hp_numSlots h ->
  exists h1 rid h2,
    heapPage_insertTuple h t = (h1, Ok rid) /\
    heapPage_deleteTuple h1 rid = (h2, None) /\
    hp_tuples h2 = hp_tuples h /\
    hp_numUsedSlots h2 = hp_numUsedSlots h /\
    hp_numSlots h2 = hp_numSlots h /\
    hp_Dirty h2 = true.
Proof.
  intros Hwf Hp Hfree. pose proof Hwf as [Hs Hu Hi Ht].
  unfold heapPage_insertTuple.
  destruct (find_index is_nil (hp_tuples h) 0) as [slot|] eqn:Hfi.
  - apply find_index_split in Hfi as (l1 & x & l2 & Htup & -> & Hl1 & Hx).
    destruct x as [?|]; [done|]. cbn [Nat.add].
    eexists _, _, _. split; [reflexivity|].
    split.
    + rewrite (heapPage_deleteTuple_slot _ (hp_pageNumber h) l1
                 {| Desc := hp_desc h; Fields := Fields t;
                    Rid := RidString (Sprintf_d_d (hp_pageNumber h) (Z.of_nat (length l1))) |}
                 l2); [reflexivity|done| |].
      * cbn [hp_tuples]. rewrite Htup. apply insert_middle.
      * rewrite Htup, length_app in Hs. unfold in_int32 in Hi. lia.
    + cbn [hp_tuples hp_numUsedSlots hp_numSlots hp_Dirty]. repeat split; try done.
      assert (in_int32 (hp_numUsedSlots h)) by by apply heapPage_wf_used_int32.
      rewrite (wrap_int32_id (hp_numUsedSlots h + 1)) by (unfold in_int32 in *; lia).
      replace (hp_numUsedSlots h + 1 - 1) with (hp_numUsedSlots h) by lia.
      by apply wrap_int32_id.
  - exfalso. apply find_index_None in Hfi. apply stored_all_Some in Hfi. lia.
Qed.

Lemma heapPage_insert_then_delete_witness :
  exists h1 rid h2,
    heapPage_insertTuple ex_heapPage ex_t1 = (h1, Ok rid) /\
    heapPage_deleteTuple h1 rid = (h2, None) /\
    hp_tuples h2 = hp_tuples ex_heapPage /\
    hp_numUsedSlots h2 = hp_numUsedSlots ex_heapPage /\
    hp_numSlots h2 = hp_numSlots ex_heapPage /\
    hp_Dirty h2 = true.
Proof.
  apply (heapPage_insert_then_delete ex_heapPage ex_t1).
  - exact ex_heapPage_wf.
  - simpl. lia.
  - simpl. lia.
Defined.

(** X12 (heapPage.deleteTuple): a deletion that returns an error leaves
    the page as it is; a deletion that succeeds on a well-formed page
    empties exactly one occupied slot, leaves the other slots untouched,
    lowers the count of used slots by one, marks the page dirty and keeps
    it well-formed. *)
Theorem heapPage_deleteTuple_outcome (h h' : heapPage) (rid : recordID) (err : option error) :
  heapPage_wf h ->
  heapPage_deleteTuple h rid = (h', err) ->
  (err <> None -> h' = h) /\
  (err = None ->
   exists l1 t l2,
     hp_tuples h = l1 ++ Some t :: l2 /\
     hp_tuples h' = l1 ++ None :: l2 /\
     hp_numUsedSlots h' = hp_numUsedSlots h - 1 /\
     hp_numSlots h' = hp_numSlots h /\
     hp_Dirty h' = true /\
     heapPage_wf h').
Proof.
  intros Hwf. pose proof Hwf as [Hs Hu Hi Ht]. unfold heapPage_deleteTuple.
  destruct rid as [|str| |]; try (intros [= <- <-]; by split).
  destruct (strings_Split_dash str) as [|s0 [|s1 [|??]]]; try (intros [= <- <-]; by split).
  destruct (strconv_Atoi s1) as [slot|e]; [|intros [= <- <-]; by split].
  destruct (Z.ltb_spec slot 0) as [?|Hge0]; [intros [= <- <-]; by split|].
  destruct (Z.geb_spec slot (Z.of_nat (length (hp_tuples h)))) as [?|Hlt];
    [intros [= <- <-]; by split|].
  cbn [orb].
  destruct (hp_tuples h !! Z.to_nat slot) as [[t|]|] eqn:Hlk; cbn [mjoin is_nil];
    try (intros [= <- <-]; by split).
  intros [= <- <-]. split; [done|]. intros _.
  apply list_elem_of_split_length in Hlk as (l1 & l2 & Htup & Hlen).
  exists l1, t, l2. split; [done|].
  cbn [hp_tuples hp_numUsedSlots hp_numSlots hp_Dirty].
  assert (wrap_int32 (hp_numUsedSlots h - 1) = hp_numUsedSlots h - 1) as Hw.
  { apply wrap_int32_id. pose proof (length_stored_le (hp_tuples h)) as Hle.
    assert (1 <= length (stored (hp_tuples h)))%nat
      by (rewrite Htup, stored_middle_Some, length_app; cbn; lia).
    unfold in_int32 in *. lia. }
  rewrite Htup, Hlen, insert_middle, Hw.
  split; [done|]. split; [done|]. split; [done|]. split; [done|].
  constructor; cbn [hp_numSlots hp_tuples hp_numUsedSlots hp_desc].
  - rewrite Hs, Htup, !length_app. done.
  - rewrite stored_middle_None, Hu, Htup, stored_middle_Some, !length_app. cbn. lia.
  - done.
  - rewrite stored_middle_None. rewrite Htup, stored_middle_Some in Ht.
    apply Forall_app in Ht as [Ht1 Ht2]. inversion Ht2; subst.
    apply Forall_app. by split.
Qed.

Lemma heapPage_deleteTuple_outcome_witness :
  let h' := {| hp_Dirty := true; hp_pageNumber := 0; hp_numSlots := 102;
               hp_numUsedSlots := 1; hp_desc := ex_td; hp_file := "test.dat";
               hp_tuples :=
                 Some {| Desc := ex_td; Fields := Fields ex_t1; Rid := RidString "0-0" |} ::
                 None :: replicate 100 None |} in
  (@None error <> None -> h' = ex_heapPage) /\
  (@None error = None ->
   exists l1 t l2,
     hp_tuples ex_heapPage = l1 ++ Some t :: l2 /\
     hp_tuples h' = l1 ++ None :: l2 /\
     hp_numUsedSlots h' = hp_numUsedSlots ex_heapPage - 1 /\
     hp_numSlots h' = hp_numSlots ex_heapPage /\
     hp_Dirty h' = true /\
     heapPage_wf h').
Proof.
  apply (heapPage_deleteTuple_outcome ex_heapPage _ (RidString "0-1") None).
  - exact ex_heapPage_wf.
  - reflexivity.
Defined.

(** ** Row pages: the size on the wire, reloading, iteration *)

(** X13 (heapPage.toBuffer, padBuffer): a well-formed row page whose
    header and slots fit in a page serializes to exactly PageSize bytes:
    the two header integers, the stored tuples in slot order, and zero
    bytes up to the page size. *)
Theorem heapPage_toBuffer_PageSize (h : heapPage) :
  heapPage_wf h ->
  8 + hp_numSlots h * bytes_per_tuple (hp_desc h) <= PageSize ->
  exists buf,
    heapPage_toBuffer h = Ok buf /\
    Z.of_nat (length buf) = PageSize /\
    take 4 buf = le_bytes 4 (hp_numSlots h) /\
    take 4 (drop 4 buf) = le_bytes 4 (hp_numUsedSlots h) /\
    drop 8 buf = page_payload (stored (hp_tuples h)) ++
                 zeros (PageSize - 8 - hp_numUsedSlots h * bytes_per_tuple (hp_desc h)).
Proof.
  intros Hwf Hfit.
  destruct (heapPage_toBuffer_layout h Hwf Hfit) as (buf & Hb & Hlen & ->).
  exists (le_bytes 4 (hp_numSlots h) ++ le_bytes 4 (hp_numUsedSlots h) ++
          page_payload (stored (hp_tuples h)) ++
          zeros (PageSize - 8 - hp_numUsedSlots h * bytes_per_tuple (hp_desc h))).
  split; [done|]. split; [done|].
  split; [by rewrite take_app_length' by (by rewrite length_le_bytes)|].
  rewrite drop_app_length' by (by rewrite length_le_bytes).
  split; [by rewrite take_app_length' by (by rewrite length_le_bytes)|].
  change 8%nat with (4 + 4)%nat. rewrite <- drop_drop.
  rewrite drop_app_length' by (by rewrite length_le_bytes).
  by rewrite drop_app_length' by (by rewrite length_le_bytes).
Qed.

Lemma heapPage_toBuffer_PageSize_witness :
  exists buf,
    heapPage_toBuffer ex_heapPage = Ok buf /\
    Z.of_nat (length buf) = PageSize /\
    take 4 buf = le_bytes 4 (hp_numSlots ex_heapPage) /\
    take 4 (drop 4 buf) = le_bytes 4 (hp_numUsedSlots ex_heapPage) /\
    drop 8 buf = page_payload (stored (hp_tuples ex_heapPage)) ++
                 zeros (PageSize - 8 - hp_numUsedSlots ex_heapPage
                                       * bytes_per_tuple (hp_desc ex_heapPage)).
Proof.
  apply (heapPage_toBuffer_PageSize ex_heapPage).
  - exact ex_heapPage_wf.
  - vm_compute. discriminate.
Defined.

Lemma reload_from_lookup pageNumber desc i ts j :
  reload_from pageNumber desc i ts !! j
  = reload_tuple pageNumber desc (i + j) <$> ts !! j.
Proof.
  revert i j. induction ts as [|t ts IH]; intros i j; [done|].
  destruct j as [|j]; cbn [reload_from].
  - cbn. by rewrite Nat.add_0_r.
  - cbn. rewrite IH. by replace (S i + j)%nat with (i + S j)%nat by lia.
Qed.

Lemma length_reload_from pageNumber desc i ts :
  length (reload_from pageNumber desc i ts) = length ts.
Proof. revert i. induction ts as [|t ts IH]; intros i; cbn; [done|]. by rewrite IH. Qed.

Lemma reload_from_Forall pageNumber desc i ts (P : Tuple -> Prop) :
  (forall t j, t ∈ ts -> P (reload_tuple pageNumber desc j t)) ->
  Forall P (reload_from pageNumber desc i ts).
Proof.
  revert i. induction ts as [|t ts IH]; intros i HP; cbn; constructor.
  - apply HP. apply list_elem_of_here.
  - apply IH. intros t' j Ht'. apply HP. by apply list_elem_of_further.
Qed.

(** X14 (heapPage.toBuffer, heapPage.initFromBuffer): reloading a
    well-formed row page from its serialization renumbers the tuples:
    the j-th stored tuple, whatever slot it had, comes back in slot j
    with the values it had, the descriptor of the page, and the record id
    "page-j" of the page it is loaded into; the slots after the stored
    tuples are nil; the slot counts are kept and the reloaded page is
    well-formed. *)
Theorem heapPage_reload_renumbers (h h0 : heapPage) :
  heapPage_wf h -> hp_desc h0 = hp_desc h ->
  exists buf h',
    heapPage_toBuffer h = Ok buf /\
    heapPage_initFromBuffer h0 buf = Returns (h', None) /\
    (forall j t, stored (hp_tuples h) !! j = Some t ->
       hp_tuples h' !! j
       = Some (Some {| Desc := hp_desc h; Fields := Fields t;
                       Rid := RidString (Sprintf_d_d (hp_pageNumber h0) (Z.of_nat j)) |})) /\
    (forall j, (length (stored (hp_tuples h)) <= j < length (hp_tuples h))%nat ->
       hp_tuples h' !! j = Some None) /\
    length (hp_tuples h') = length (hp_tuples h) /\
    hp_numSlots h' = hp_numSlots h /\
    hp_numUsedSlots h' = hp_numUsedSlots h /\
    hp_pageNumber h' = hp_pageNumber h0 /\
    hp_Dirty h' = hp_Dirty h0 /\
    heapPage_wf h'.
Proof.
  intros Hwf Hdesc. pose proof Hwf as [Hs Hu Hi Ht].
  pose proof (length_stored_le (hp_tuples h)) as Hle.
  eexists _, _. split; [by apply heapPage_toBuffer_ok|].
  rewrite padBuffer_app. unfold heapPage_initFromBuffer.
  rewrite <- !app_assoc.
  rewrite buf_read_app by (rewrite ?length_le_bytes; lia).
  rewrite buf_read_app by (rewrite ?length_le_bytes; lia).
  rewrite !int32_of_le_bytes by (by apply heapPage_wf_used_int32 || done).
  unfold make_tuples.
  destruct (Z.ltb_spec (hp_numSlots h) 0) as [Hneg|_]; [exfalso; lia|].
  cbn [obind].
  rewrite Hu, Nat2Z.id, Hdesc.
  pose proof (heapPage_init_loop_ok (stored (hp_tuples h)) (hp_pageNumber h0) (hp_desc h)
                [] (Z.to_nat (hp_numSlots h))) as Hloop.
  cbn [length map app] in Hloop. rewrite Hloop; clear Hloop;
    [|by apply heapPage_wf_conforms|lia].
  cbn [obind]. split; [reflexivity|].
  cbn [hp_numSlots hp_numUsedSlots hp_tuples hp_pageNumber hp_Dirty].
  set (ts := stored (hp_tuples h)) in *.
  set (rl := reload_from (hp_pageNumber h0) (hp_desc h) 0 ts).
  assert (length rl = length ts) as Hrl by apply length_reload_from.
  split; [|split; [|split; [|split; [|split; [|split; [|split]]]]]]; try done.
  - intros j t Hj. rewrite lookup_app_l
      by (rewrite length_map, Hrl; by eapply lookup_lt_Some).
    rewrite list_lookup_fmap. unfold rl. rewrite reload_from_lookup, Hj. done.
  - intros j Hj. rewrite lookup_app_r by (rewrite length_map, Hrl; lia).
    apply lookup_replicate. split; [done|]. rewrite length_map, Hrl. lia.
  - rewrite length_app, length_map, length_replicate, Hrl. lia.
  - constructor; cbn [hp_numSlots hp_tuples hp_numUsedSlots hp_desc].
    + rewrite length_app, length_map, length_replicate, Hrl. lia.
    + by rewrite stored_app, stored_map_Some, stored_replicate_None, app_nil_r, Hrl.
    + done.
    + rewrite stored_app, stored_map_Some, stored_replicate_None, app_nil_r.
      apply reload_from_Forall. intros t j Htin. cbn [reload_tuple Desc Fields].
      split; [done|].
      rewrite Forall_forall in Ht. by apply Ht.
Qed.

Lemma heapPage_reload_renumbers_witness :
  exists buf h',
    heapPage_toBuffer ex_heapPage = Ok buf /\
    heapPage_initFromBuffer ex_heapPage_blank buf = Returns (h', None) /\
    (forall j t, stored (hp_tuples ex_heapPage) !! j = Some t ->
       hp_tuples h' !! j
       = Some (Some {| Desc := hp_desc ex_heapPage; Fields := Fields t;
                       Rid := RidString (Sprintf_d_d (hp_pageNumber ex_heapPage_blank)
                                                     (Z.of_nat j)) |})) /\
    (forall j, (length (stored (hp_tuples ex_heapPage)) <= j
                < length (hp_tuples ex_heapPage))%nat ->
       hp_tuples h' !! j = Some None) /\
    length (hp_tuples h') = length (hp_tuples ex_heapPage) /\
    hp_numSlots h' = hp_numSlots ex_heapPage /\
    hp_numUsedSlots h' = hp_numUsedSlots ex_heapPage /\
    hp_pageNumber h' = hp_pageNumber ex_heapPage_blank /\
    hp_Dirty h' = hp_Dirty ex_heapPage_blank /\
    heapPage_wf h'.
Proof.
  apply (heapPage_reload_renumbers ex_heapPage ex_heapPage_blank).
  - exact ex_heapPage_wf.
  - reflexivity.
Defined.

Lemma tupleIter_scan_spec slots : forall i,
  match tupleIter_scan slots i with
  | (None, _) => stored slots = []
  | (Some t, i') => (i < i')%nat /\ stored slots = t :: stored (drop (i' - i) slots)
  end.
Proof.
  induction slots as [|[t|] slots IH]; intros i; cbn [tupleIter_scan]; [done|..].
  - split; [lia|]. rewrite stored_cons_Some.
    replace (S i - i)%nat with 1%nat by lia. done.
  - specialize (IH (S i)). destruct (tupleIter_scan slots (S i)) as [[t|] i'].
    + destruct IH as [Hlt Hst]. split; [lia|]. rewrite stored_cons_None, Hst.
      replace (i' - i)%nat with (S (i' - S i)) by lia. done.
    + by rewrite stored_cons_None.
Qed.

Lemma heapPage_tupleIter_pulls_drop p : forall n i,
  hp_numUsedSlots p <> 0 ->
  (length (stored (drop i (hp_tuples p))) < n)%nat ->
  heapPage_tupleIter_pulls n p i = stored (drop i (hp_tuples p)).
Proof.
  induction n as [|n IH]; intros i Hu Hn; [lia|].
  cbn [heapPage_tupleIter_pulls]. unfold heapPage_tupleIter.
  destruct (Z.eqb_spec (hp_numUsedSlots p) 0) as [?|_]; [done|].
  pose proof (tupleIter_scan_spec (drop i (hp_tuples p)) i) as Hscan.
  destruct (tupleIter_scan (drop i (hp_tuples p)) i) as [[t|] i']; [|done].
  destruct Hscan as [Hlt Hst]. rewrite drop_drop in Hst.
  replace (i + (i' - i))%nat with i' in Hst by lia.
  rewrite Hst. f_equal. apply IH; [done|]. rewrite Hst in Hn. cbn in Hn. lia.
Qed.

(** X15 (heapPage.tupleIter): on a well-formed page that is not changed
    in between, the calls of the iterator return the stored tuples in
    slot order, each once, and nil after the last one. *)
Theorem heapPage_tupleIter_stored (p : heapPage) (n : nat) :
  heapPage_wf p ->
  (length (stored (hp_tuples p)) < n)%nat ->
  heapPage_tupleIter_pulls n p 0 = stored (hp_tuples p) /\
  (forall i, (length (hp_tuples p) <= i)%nat -> fst (heapPage_tupleIter p i) = None).
Proof.
  intros Hwf Hn. pose proof Hwf as [Hs Hu Hi Ht]. split.
  - destruct (Z.eqb_spec (hp_numUsedSlots p) 0) as [H0|Hne].
    + destruct n as [|n]; [lia|]. cbn [heapPage_tupleIter_pulls].
      unfold heapPage_tupleIter. rewrite H0. cbn.
      destruct (stored (hp_tuples p)); [done|]. cbn in Hu. lia.
    + rewrite heapPage_tupleIter_pulls_drop by done. done.
  - intros i Hi'. unfold heapPage_tupleIter.
    destruct (hp_numUsedSlots p =? 0); [done|].
    by rewrite drop_ge by done.
Qed.

Lemma heapPage_tupleIter_stored_witness :
  heapPage_tupleIter_pulls 3 ex_heapPage 0 = stored (hp_tuples ex_heapPage) /\
  (forall i, (length (hp_tuples ex_heapPage) <= i)%nat ->
             fst (heapPage_tupleIter ex_heapPage i) = None).
Proof.
  apply (heapPage_tupleIter_stored ex_heapPage 3).
  - exact ex_heapPage_wf.
  - vm_compute. lia.
Defined.

(** ** The buffer pool: what the operations keep *)

Section PoolInvariants.
Context `{!RangeOrder}.

(** *** The ways a call of [GetPage] returns *)

Lemma checkConflictingLocks_loop_false others bp tid key perm bp1 :
  checkConflictingLocks_loop others bp tid key perm = Returns (false, bp1) ->
  bp1 = bp /\
  forall o, o ∈ others -> o <> tid ->
    (key ∉ set_at (writePermissionLocks bp) o) /\
    (perm = WritePerm -> key ∉ set_at (readPermissionLocks bp) o).
Proof.
  induction others as [|o others IH]; cbn [checkConflictingLocks_loop].
  - intros [= <-]. split; [done|]. intros o Ho. by apply elem_of_nil in Ho.
  - destruct (bool_decide_reflect (o = tid)) as [->|Hne].
    + intros [-> Hrest]%IH. split; [done|].
      intros o [->|Ho]%elem_of_cons Hne; [done|by apply Hrest].
    + destruct perm.
      * unfold addDependencyIfLocked at 1.
        destruct (bool_decide_reflect (key ∈ set_at (writePermissionLocks bp) o)) as [Hin|Hw].
        { destruct (transactionDependencies bp !! tid); cbn [obind]; done. }
        cbn [obind]. intros [-> Hrest]%IH. split; [done|].
        intros o' [->|Ho]%elem_of_cons Hne'; [by split|by apply Hrest].
      * unfold addDependencyIfLocked at 1.
        destruct (bool_decide_reflect (key ∈ set_at (readPermissionLocks bp) o)) as [Hin|Hr].
        { destruct (transactionDependencies bp !! tid); cbn [obind]; done. }
        cbn [obind]. unfold addDependencyIfLocked at 1.
        destruct (bool_decide_reflect (key ∈ set_at (writePermissionLocks bp) o)) as [Hin|Hw].
        { destruct (transactionDependencies bp !! tid); cbn [obind]; done. }
        cbn [obind]. intros [-> Hrest]%IH. split; [done|].
        intros o' [->|Ho]%elem_of_cons Hne'; [by split|by apply Hrest].
Qed.

Lemma checkConflictingLocks_false bp tid key perm bp1 :
  checkConflictingLocks bp tid key perm = Returns (false, bp1) ->
  bp1 = bp /\
  forall o, o ∈ currentTransactions bp -> o <> tid ->
    (key ∉ set_at (writePermissionLocks bp) o) /\
    (perm = WritePerm -> key ∉ set_at (readPermissionLocks bp) o).
Proof.
  unfold checkConflictingLocks. intros [-> Hall]%checkConflictingLocks_loop_false.
  split; [done|]. intros o Ho. apply Hall. by apply elem_of_range_set.
Qed.

(** How [GetPage] returns: the transaction is not current; or a conflict
    closes a cycle and the transaction is aborted; or there is no
    conflict and the call goes on to fetch the page. *)
Lemma GetPage_Returns file pageNumber tid perm w r w' :
  GetPage file pageNumber tid perm w = Returns (r, w') ->
  exists key, DBFile_pageKey file pageNumber = Returns key /\
  (((tid ∉ currentTransactions (bp w)) /\
    r = Err (errors_New "invalid transaction") /\ w' = w) \/
   (tid ∈ currentTransactions (bp w) /\
    exists bp1, checkConflictingLocks (bp w) tid key perm = Returns (true, bp1) /\
                r = Err (errors_New "transaction aborted; there is a cycle") /\
                w' = {| bp := AbortTransaction bp1 tid; disk := disk w |}) \/
   (tid ∈ currentTransactions (bp w) /\
    checkConflictingLocks (bp w) tid key perm = Returns (false, bp w) /\
    exists r0, GetPage_fetch file pageNumber key tid perm w = Returns (r0, w') /\
               match r0 with
               | GotPage page => r = Ok page
               | Failed e => r = Err e
               | Retry => False
               end)).
Proof.
  unfold GetPage, GetPage_first.
  destruct (DBFile_pageKey file pageNumber) as [key| |]; cbn [obind]; try done.
  intros Hget. exists key. split; [done|].
  destruct (bool_decide_reflect (tid ∈ currentTransactions (bp w))) as [Hin|Hnin];
    cbn [negb] in Hget.
  - unfold GetPage_pass in Hget.
    destruct (checkConflictingLocks (bp w) tid key perm) as [[[] bp1]| |] eqn:Hc;
      cbn [obind] in Hget; try done.
    + destruct (hasCycle bp1); cbn [obind] in Hget; [|done].
      injection Hget as <- <-. right. left. split; [done|]. by exists bp1.
    + pose proof Hc as Hc'. apply checkConflictingLocks_false in Hc' as [-> _].
      replace {| bp := bp w; disk := disk w |} with w in Hget by (by destruct w).
      destruct (GetPage_fetch file pageNumber key tid perm w) as [[r0 w0]| |] eqn:Hf;
        cbn [obind] in Hget; try done.
      right. right. split; [done|]. split; [done|]. exists r0.
      destruct r0; try done; by injection Hget as <- <-.
  - cbn [obind] in Hget. injection Hget as <- <-. by left.
Qed.

(** How the fetch after the lock acquisition returns. *)
Lemma GetPage_fetch_Returns file pageNumber key tid perm w r0 w' :
  GetPage_fetch file pageNumber key tid perm w = Returns (r0, w') ->
  exists bp1, acquire_lock (bp w) tid key perm = Returns bp1 /\
  ((exists page, Pages bp1 !! key = Some page /\ r0 = GotPage page /\
                 w' = {| bp := bp1; disk := disk w |}) \/
   (Pages bp1 !! key = None /\
    NumPages bp1 <= Z.of_nat (size (Pages bp1)) /\
    exists e, evictPage bp1 = Err e /\ r0 = Failed e /\
              w' = {| bp := bp1; disk := disk w |}) \/
   (Pages bp1 !! key = None /\
    exists bp2 rr d',
      ((Z.of_nat (size (Pages bp1)) < NumPages bp1 /\ bp2 = bp1) \/
       (NumPages bp1 <= Z.of_nat (size (Pages bp1)) /\ evictPage bp1 = Ok bp2)) /\
      DBFile_readPage file pageNumber (disk w) = Returns (rr, d') /\
      match rr with
      | Err e => r0 = Failed e /\ w' = {| bp := bp2; disk := d' |}
      | Ok page => r0 = GotPage page /\
                   w' = {| bp := set_Pages <[key := page]> bp2; disk := d' |}
      end)).
Proof.
  unfold GetPage_fetch.
  destruct (acquire_lock (bp w) tid key perm) as [bp1| |] eqn:Ha; cbn [obind]; try done.
  intros Hf. exists bp1. split; [done|].
  destruct (Pages bp1 !! key) as [pg|] eqn:Hk.
  { injection Hf as <- <-. left. by exists pg. }
  right.
  destruct (Z.geb_spec (Z.of_nat (size (Pages bp1))) (NumPages bp1)) as [Hfull|Hroom].
  - destruct (evictPage bp1) as [bp2|e] eqn:He.
    + right. split; [done|].
      destruct (DBFile_readPage file pageNumber (disk w)) as [[rr d']| |] eqn:Hr;
        cbn [obind] in Hf; try done.
      exists bp2, rr, d'. split; [right; split; [lia|done]|]. split; [done|].
      destruct rr; by injection Hf as <- <-.
    + injection Hf as <- <-. left. split; [done|]. split; [lia|]. by exists e.
  - right. split; [done|].
    destruct (DBFile_readPage file pageNumber (disk w)) as [[rr d']| |] eqn:Hr;
      cbn [obind] in Hf; try done.
    exists bp1, rr, d'. split; [left; split; [lia|done]|]. split; [done|].
    destruct rr; by injection Hf as <- <-.
Qed.

Lemma acquire_lock_frame bp tid key perm bp1 :
  acquire_lock bp tid key perm = Returns bp1 ->
  Pages bp1 = Pages bp /\ NumPages bp1 = NumPages bp /\
  currentTransactions bp1 = currentTransactions bp /\
  transactionDependencies bp1 = transactionDependencies bp /\
  (forall t, set_at (readPermissionLocks bp1) t
             = if bool_decide (t = tid /\ perm = ReadPerm)
               then {[key]} ∪ set_at (readPermissionLocks bp) t
               else set_at (readPermissionLocks bp) t) /\
  (forall t, set_at (writePermissionLocks bp1) t
             = if bool_decide (t = tid /\ perm = WritePerm)
               then {[key]} ∪ set_at (writePermissionLocks bp) t
               else set_at (writePermissionLocks bp) t).
Proof.
  unfold acquire_lock. destruct perm.
  - destruct (readPermissionLocks bp !! tid) as [locks|] eqn:Hl; [|done].
    intros [= <-]. cbn. repeat split.
    + intros t. unfold set_at. case_bool_decide as Ht.
      * destruct Ht as [-> _]. by rewrite lookup_insert_eq, Hl.
      * rewrite lookup_insert_ne; [done|]. intros ->. by apply Ht.
    + intros t. rewrite bool_decide_eq_false_2; [done|]. by intros [_ ?].
  - destruct (writePermissionLocks bp !! tid) as [locks|] eqn:Hl; [|done].
    intros [= <-]. cbn. repeat split.
    + intros t. rewrite bool_decide_eq_false_2; [done|]. by intros [_ ?].
    + intros t. unfold set_at. case_bool_decide as Ht.
      * destruct Ht as [-> _]. by rewrite lookup_insert_eq, Hl.
      * rewrite lookup_insert_ne; [done|]. intros ->. by apply Ht.
Qed.

Lemma evictPage_frame bp bp2 :
  evictPage bp = Ok bp2 ->
  exists k p, Pages bp !! k = Some p /\ Page_isDirty p = false /\
              Pages bp2 = delete k (Pages bp) /\ NumPages bp2 = NumPages bp /\
              currentTransactions bp2 = currentTransactions bp /\
              transactionDependencies bp2 = transactionDependencies bp /\
              readPermissionLocks bp2 = readPermissionLocks bp /\
              writePermissionLocks bp2 = writePermissionLocks bp.
Proof.
  intros (k & p & Hk & Hd & ->)%evictPage_Ok. exists k, p. by repeat split.
Qed.

(** *** Rolling back *)

Lemma rollbackTransactionPages_fold keys : forall bp,
  NoDup keys ->
  NumPages bp < 2 ^ 63 ->
  - 2 ^ 63 <= NumPages bp - Z.of_nat (size (Pages bp)) ->
  let bp' :=
    foldl (fun bp pageKey =>
             match Pages bp !! pageKey with
             | Some page =>
                 if Page_isDirty page
                 then set_NumPages (fun n => wrap_int64 (n - 1)) (set_Pages (delete pageKey) bp)
                 else bp
             | None => bp
             end) bp keys in
  (forall k, Pages bp' !! k
             = match Pages bp !! k with
               | Some p => if bool_decide (k ∈ keys) && Page_isDirty p then None else Some p
               | None => None
               end) /\
  NumPages bp' - Z.of_nat (size (Pages bp')) = NumPages bp - Z.of_nat (size (Pages bp)) /\
  (size (Pages bp') <= size (Pages bp))%nat.
Proof.
  induction keys as [|k0 keys IH]; intros bp Hnd Hmax Hmin; cbn zeta.
  - cbn [foldl]. split; [|done]. intros k. destruct (Pages bp !! k); [|done].
    rewrite bool_decide_eq_false_2; [done|]. apply not_elem_of_nil.
  - apply NoDup_cons in Hnd as [Hk0 Hnd]. cbn [foldl].
    destruct (Pages bp !! k0) as [p0|] eqn:Hp0; [destruct (Page_isDirty p0) eqn:Hd0|].
    + (* the page of k0 goes *)
      set (bp1 := set_NumPages (fun n => wrap_int64 (n - 1)) (set_Pages (delete k0) bp)).
      assert (size (Pages bp1) = pred (size (Pages bp))) as Hsz
        by (apply map_size_delete_Some; by eexists).
      assert (0 < size (Pages bp))%nat as Hpos.
      { destruct (decide (size (Pages bp) = 0%nat)) as [H0|?]; [|lia].
        apply map_size_empty_iff in H0. rewrite H0 in Hp0. done. }
      assert (NumPages bp1 = NumPages bp - 1) as Hn1.
      { cbn. apply wrap_int64_id. unfold in_int64. lia. }
      destruct (IH bp1 Hnd) as (Hlk & Hnum & Hle); [lia|lia|].
      split; [|split; [lia|lia]].
      intros k. rewrite Hlk. cbn [bp1 set_NumPages set_Pages Pages].
      destruct (decide (k = k0)) as [->|Hne].
      * rewrite lookup_delete_eq, Hp0, Hd0.
        by rewrite bool_decide_eq_true_2 by apply list_elem_of_here.
      * rewrite lookup_delete_ne by done. destruct (Pages bp !! k) as [p|]; [|done].
        destruct (Page_isDirty p); [|by rewrite !andb_false_r].
        rewrite !andb_true_r.
        destruct (bool_decide_reflect (k ∈ keys)) as [Hin|Hnin].
        -- by rewrite bool_decide_eq_true_2 by by apply list_elem_of_further.
        -- rewrite bool_decide_eq_false_2; [done|].
           by intros [?|?]%elem_of_cons.
    + destruct (IH bp Hnd Hmax Hmin) as (Hlk & Hnum & Hle).
      split; [|by split]. intros k. rewrite Hlk.
      destruct (Pages bp !! k) as [p|] eqn:Hp; [|done].
      destruct (Page_isDirty p) eqn:Hd; [|by rewrite !andb_false_r].
      rewrite !andb_true_r.
      destruct (bool_decide_reflect (k ∈ keys)) as [Hin|Hnin].
      * by rewrite bool_decide_eq_true_2 by by apply list_elem_of_further.
      * rewrite bool_decide_eq_false_2; [done|].
        intros [->|?]%elem_of_cons; [congruence|done].
    + destruct (IH bp Hnd Hmax Hmin) as (Hlk & Hnum & Hle).
      split; [|by split]. intros k. rewrite Hlk.
      destruct (Pages bp !! k) as [p|] eqn:Hp; [|done].
      destruct (Page_isDirty p) eqn:Hd; [|by rewrite !andb_false_r].
      rewrite !andb_true_r.
      destruct (bool_decide_reflect (k ∈ keys)) as [Hin|Hnin].
      * by rewrite bool_decide_eq_true_2 by by apply list_elem_of_further.
      * rewrite bool_decide_eq_false_2; [done|].
        intros [->|?]%elem_of_cons; [congruence|done].
Qed.

Lemma AbortTransaction_Pages_NumPages bp tid :
  tid ∈ currentTransactions bp ->
  Pages (AbortTransaction bp tid) = Pages (rollbackTransactionPages bp tid) /\
  NumPages (AbortTransaction bp tid) = NumPages (rollbackTransactionPages bp tid).
Proof.
  intros Hin. unfold AbortTransaction. by rewrite bool_decide_eq_true_2 by done.
Qed.

Lemma AbortTransaction_NumPages_size bp tid :
  tid ∈ currentTransactions bp ->
  NumPages bp < 2 ^ 63 ->
  - 2 ^ 63 <= NumPages bp - Z.of_nat (size (Pages bp)) ->
  NumPages (AbortTransaction bp tid)
  = NumPages bp - (Z.of_nat (size (Pages bp))
                   - Z.of_nat (size (Pages (AbortTransaction bp tid)))) /\
  (size (Pages (AbortTransaction bp tid)) <= size (Pages bp))%nat.
Proof.
  intros Hin Hmax Hmin.
  destruct (AbortTransaction_Pages_NumPages bp tid Hin) as [-> ->].
  unfold rollbackTransactionPages.
  destruct (rollbackTransactionPages_fold
              (range_set (set_at (writePermissionLocks bp) tid)) bp
              (NoDup_range_set _) Hmax Hmin) as (_ & Hnum & Hle).
  split; [lia|done].
Qed.

(** X16 (AbortTransaction, rollbackTransactionPages): aborting a current
    transaction removes from the cache exactly the dirty pages the
    transaction holds a write lock on, leaves every other cached page as
    it is, and lowers NumPages by the number of pages removed: the room
    the pool has left stays the same, the capacity does not. *)
Theorem AbortTransaction_rolls_back (bp : BufferPool) (tid : Z) :
  tid ∈ currentTransactions bp ->
  NumPages bp < 2 ^ 63 ->
  - 2 ^ 63 <= NumPages bp - Z.of_nat (size (Pages bp)) ->
  (forall k, Pages (AbortTransaction bp tid) !! k
             = match Pages bp !! k with
               | Some p =>
                   if bool_decide (k ∈ set_at (writePermissionLocks bp) tid) && Page_isDirty p
                   then None else Some p
               | None => None
               end) /\
  NumPages (AbortTransaction bp tid)
  = NumPages bp - (Z.of_nat (size (Pages bp))
                   - Z.of_nat (size (Pages (AbortTransaction bp tid)))) /\
  (size (Pages (AbortTransaction bp tid)) <= size (Pages bp))%nat.
Proof.
  intros Hin Hmax Hmin.
  destruct (AbortTransaction_Pages_NumPages bp tid Hin) as [-> ->].
  unfold rollbackTransactionPages.
  destruct (rollbackTransactionPages_fold
              (range_set (set_at (writePermissionLocks bp) tid)) bp
              (NoDup_range_set _) Hmax Hmin) as (Hlk & Hnum & Hle).
  split; [|split; [lia|done]].
  intros k. rewrite Hlk. destruct (Pages bp !! k) as [p|]; [|done].
  by rewrite (bool_decide_ext _ _ (elem_of_range_set (set_at (writePermissionLocks bp) tid) k)).
Qed.

End PoolInvariants.

Lemma AbortTransaction_rolls_back_witness :
  (forall k, Pages (AbortTransaction ex_pool_dirty 1) !! k
             = match Pages ex_pool_dirty !! k with
               | Some p =>
                   if bool_decide (k ∈ set_at (writePermissionLocks ex_pool_dirty) 1)
                      && Page_isDirty p
                   then None else Some p
               | None => None
               end) /\
  NumPages (AbortTransaction ex_pool_dirty 1)
  = NumPages ex_pool_dirty
    - (Z.of_nat (size (Pages ex_pool_dirty))
       - Z.of_nat (size (Pages (AbortTransaction ex_pool_dirty 1)))) /\
  (size (Pages (AbortTransaction ex_pool_dirty 1)) <= size (Pages ex_pool_dirty))%nat.
Proof.
  apply (AbortTransaction_rolls_back ex_pool_dirty 1).
  - vm_compute. reflexivity.
  - vm_compute. reflexivity.
  - vm_compute. discriminate.
Defined.

Section PoolInvariantsOfGetPage.
Context `{!RangeOrder}.

Lemma checkConflictingLocks_frame bp tid key perm c bp1 :
  checkConflictingLocks bp tid key perm = Returns (c, bp1) ->
  Pages bp1 = Pages bp /\ NumPages bp1 = NumPages bp /\
  currentTransactions bp1 = currentTransactions bp /\
  readPermissionLocks bp1 = readPermissionLocks bp /\
  writePermissionLocks bp1 = writePermissionLocks bp.
Proof.
  destruct c; intros Hc.
  - by apply checkConflictingLocks_true in Hc as (other & ds & _ & _ & ->).
  - by apply checkConflictingLocks_false in Hc as [-> _].
Qed.

Lemma AbortTransaction_frame bp tid :
  tid ∈ currentTransactions bp ->
  currentTransactions (AbortTransaction bp tid) = currentTransactions bp ∖ {[tid]} /\
  readPermissionLocks (AbortTransaction bp tid) = delete tid (readPermissionLocks bp) /\
  writePermissionLocks (AbortTransaction bp tid) = delete tid (writePermissionLocks bp) /\
  transactionDependencies (AbortTransaction bp tid)
  = (fun ds => ds ∖ {[tid]}) <$> delete tid (transactionDependencies bp).
Proof.
  intros Hin. unfold AbortTransaction. rewrite bool_decide_eq_true_2 by done. cbn [negb].
  destruct (rollbackTransactionPages_frame bp tid) as (Hd & Hr & Hw & Hc).
  unfold remove_from_dependencies, removeTransactionLocks. cbn.
  by rewrite Hd, Hr, Hw, Hc.
Qed.

Lemma set_at_delete_ne {A} `{Countable A} (m : gmap Z (gset A)) (t tid : Z) :
  t <> tid -> set_at (delete tid m) t = set_at m t.
Proof. intros Hne. unfold set_at. by rewrite lookup_delete_ne. Qed.

(** X17 (GetPage, evictPage, AbortTransaction): a call of [GetPage] that
    returns, with a page or with an error, keeps the cache within the
    capacity of the pool: when the cache held at most NumPages pages
    before the call, it holds at most NumPages pages after it. *)
Theorem GetPage_within_capacity (file : DBFile) (pageNumber tid : Z) (perm : RWPerm)
    (w w' : World) (r : result Page) :
  within_capacity (bp w) ->
  GetPage file pageNumber tid perm w = Returns (r, w') ->
  within_capacity (bp w').
Proof.
  intros [Hcap Hmax] Hget.
  apply GetPage_Returns in Hget
    as (key & Hkey & [(_ & _ & ->)|[(Hin & bp1 & Hc & _ & ->)|(Hin & Hc & r0 & Hf & _)]]).
  - done.
  - apply checkConflictingLocks_frame in Hc as (HP & HN & HC & _ & _).
    cbn [bp].
    destruct (AbortTransaction_NumPages_size bp1 tid) as (Hnum & Hle);
      [by rewrite HC|by rewrite HN|rewrite HN, HP; lia|].
    unfold within_capacity. rewrite Hnum, HN, HP. rewrite HP in Hle. lia.
  - apply GetPage_fetch_Returns in Hf as (bp1 & Ha & Hcases).
    apply acquire_lock_frame in Ha as (HP & HN & _).
    unfold within_capacity.
    destruct Hcases as [(page & _ & _ & ->)|[(_ & _ & e & _ & _ & ->)|
                        (Hnone & bp2 & rr & d' & Hbp2 & _ & Hrr)]]; cbn [bp].
    + by rewrite HP, HN.
    + by rewrite HP, HN.
    + assert (Pages bp2 !! key = None /\ NumPages bp2 = NumPages (bp w) /\
              Z.of_nat (size (Pages bp2)) < NumPages (bp w)) as (Hnone2 & HN2 & Hsz).
      { destruct Hbp2 as [[Hroom ->]|[Hfull He]].
        - split; [done|]. split; [done|]. by rewrite <- HN.
        - apply evictPage_frame in He as (k & p & Hk & _ & HP2 & HN2 & _).
          rewrite HP2. split; [|split; [by rewrite HN2|]].
          + destruct (decide (k = key)) as [->|?];
              [by rewrite lookup_delete_eq|by rewrite lookup_delete_ne].
          + rewrite map_size_delete_Some by by eexists.
            assert (0 < size (Pages bp1))%nat.
            { destruct (decide (size (Pages bp1) = 0%nat)) as [H0|?]; [|lia].
              apply map_size_empty_iff in H0. rewrite H0 in Hk. done. }
            rewrite HP in *. lia. }
      destruct rr as [page|e]; destruct Hrr as [_ ->]; cbn [bp set_Pages Pages NumPages].
      * rewrite map_size_insert_None by done. lia.
      * lia.
Qed.

Lemma locks_compatible_ext bp bp' :
  currentTransactions bp' = currentTransactions bp ->
  readPermissionLocks bp' = readPermissionLocks bp ->
  writePermissionLocks bp' = writePermissionLocks bp ->
  locks_compatible bp -> locks_compatible bp'.
Proof. unfold locks_compatible. intros -> -> ->. done. Qed.

(** X18 (GetPage, checkConflictingLocks): a call of [GetPage] that
    returns keeps the locks of the current transactions compatible: if
    before the call no page write-locked by a current transaction was
    locked by another current transaction, the same holds after it,
    with the lock the call has taken. *)
Theorem GetPage_locks_compatible (file : DBFile) (pageNumber tid : Z) (perm : RWPerm)
    (w w' : World) (r : result Page) :
  locks_compatible (bp w) ->
  GetPage file pageNumber tid perm w = Returns (r, w') ->
  locks_compatible (bp w').
Proof.
  intros Hcompat Hget.
  apply GetPage_Returns in Hget
    as (key & Hkey & [(_ & _ & ->)|[(Hin & bp1 & Hc & _ & ->)|(Hin & Hc & r0 & Hf & _)]]).
  - done.
  - apply checkConflictingLocks_frame in Hc as (_ & _ & HC & HR & HW).
    destruct (AbortTransaction_frame bp1 tid) as (HC' & HR' & HW' & _); [by rewrite HC|].
    cbn [bp]. intros t1 t2 k. rewrite HC', HR', HW', HC, HR, HW.
    intros [Ht1 Hn1%not_elem_of_singleton]%elem_of_difference
           [Ht2 Hn2%not_elem_of_singleton]%elem_of_difference Hne.
    rewrite !set_at_delete_ne by done. by apply Hcompat.
  - apply checkConflictingLocks_false in Hc as [_ Hfree].
    apply GetPage_fetch_Returns in Hf as (bp1 & Ha & Hcases).
    apply acquire_lock_frame in Ha as (_ & _ & HC & _ & HR & HW).
    assert (locks_compatible bp1) as Hcompat1.
    { intros t1 t2 k. rewrite HC. intros Ht1 Ht2 Hne. rewrite !HR, !HW.
      intros Hk.
      assert (k = key -> t1 = tid) as Hkey1.
      { intros ->. destruct (decide (t1 = tid)) as [|Hn]; [done|].
        exfalso. rewrite bool_decide_eq_false_2 in Hk by by intros [? _].
        by destruct (Hfree t1 Ht1 Hn). }
      assert (k ∈ set_at (writePermissionLocks (bp w)) t1 ->
              (k ∉ set_at (readPermissionLocks (bp w)) t2) /\
              (k ∉ set_at (writePermissionLocks (bp w)) t2)) as Hold
        by by apply Hcompat.
      assert (k = key -> t1 = tid -> perm = WritePerm ->
              (key ∉ set_at (readPermissionLocks (bp w)) t2) /\
              (key ∉ set_at (writePermissionLocks (bp w)) t2)) as Hnew.
      { intros -> -> ->. destruct (Hfree t2 Ht2) as [? ?]; [done|]. split; auto. }
      repeat case_bool_decide; try destruct_and!; subst; set_solver. }
    destruct Hcases as [(page & _ & _ & ->)|[(_ & _ & e & _ & _ & ->)|
                        (Hnone & bp2 & rr & d' & Hbp2 & _ & Hrr)]]; cbn [bp]; try done.
    assert (locks_compatible bp2) as Hcompat2.
    { destruct Hbp2 as [[_ ->]|[_ He]]; [done|].
      apply evictPage_frame in He as (k & p & _ & _ & _ & _ & HC2 & _ & HR2 & HW2).
      by apply (locks_compatible_ext bp1). }
    destruct rr as [page|e]; destruct Hrr as [_ ->]; cbn [bp]; [|done].
    by apply (locks_compatible_ext bp2).
Qed.

(** X19 (GetPage, AbortTransaction): a transaction that is not current,
    in particular one that has been aborted, gets no page: every
    [GetPage] on its behalf returns the invalid-transaction error and
    leaves the pool and the files as they are, without taking a lock. *)
Theorem GetPage_not_current (file : DBFile) (pageNumber tid : Z) (perm : RWPerm)
    (w : World) (key : pageKey) :
  DBFile_pageKey file pageNumber = Returns key ->
  ((tid ∉ currentTransactions (bp w)) ->
   GetPage file pageNumber tid perm w
   = Returns (Err (errors_New "invalid transaction"), w)) /\
  (let w1 := {| bp := AbortTransaction (bp w) tid; disk := disk w |} in
   GetPage file pageNumber tid perm w1
   = Returns (Err (errors_New "invalid transaction"), w1)).
Proof.
  intros Hkey.
  assert (forall w0, tid ∉ currentTransactions (bp w0) ->
            GetPage file pageNumber tid perm w0
            = Returns (Err (errors_New "invalid transaction"), w0)) as Hnot.
  { intros w0 Hn. unfold GetPage, GetPage_first. rewrite Hkey. cbn [obind].
    by rewrite bool_decide_eq_false_2 by done. }
  split; [apply Hnot|]. cbn zeta. apply Hnot. cbn [bp].
  destruct (decide (tid ∈ currentTransactions (bp w))) as [Hin|Hn].
  - destruct (AbortTransaction_frame (bp w) tid Hin) as (-> & _). set_solver.
  - unfold AbortTransaction. by rewrite bool_decide_eq_false_2 by done.
Qed.

(** X20 (AbortTransaction, removeTransactionLocks): aborting a
    transaction that is not current changes nothing; aborting a current
    transaction removes it from the current transactions, drops its lock
    sets and its dependency set, removes it from the dependency sets of
    the others, and leaves the other transactions current with the locks
    they hold. *)
Theorem AbortTransaction_releases (bp : BufferPool) (tid : Z) :
  ((tid ∉ currentTransactions bp) -> AbortTransaction bp tid = bp) /\
  (tid ∈ currentTransactions bp ->
   aborted (AbortTransaction bp tid) tid /\
   forall t, t <> tid ->
     (t ∈ currentTransactions (AbortTransaction bp tid) <-> t ∈ currentTransactions bp) /\
     readPermissionLocks (AbortTransaction bp tid) !! t = readPermissionLocks bp !! t /\
     writePermissionLocks (AbortTransaction bp tid) !! t = writePermissionLocks bp !! t /\
     transactionDependencies (AbortTransaction bp tid) !! t
     = (fun ds => ds ∖ {[tid]}) <$> transactionDependencies bp !! t).
Proof.
  split.
  - intros Hn. unfold AbortTransaction. by rewrite bool_decide_eq_false_2 by done.
  - intros Hin. split; [by apply AbortTransaction_aborted|].
    destruct (AbortTransaction_frame bp tid Hin) as (-> & -> & -> & ->).
    intros t Hne. rewrite lookup_fmap, !lookup_delete_ne by done.
    split; [set_solver|done].
Qed.

(** X21 (hasCycle): the cycle search of the buffer pool terminates, with
    one unit of fuel per transaction of the wait-for graph, and answers
    true exactly when a cycle of the wait-for graph can be reached from a
    current transaction; when only current transactions have dependency
    sets, that is exactly when the wait-for graph has a cycle. *)
Theorem hasCycle_decides_cycles (bp : BufferPool) :
  (exists res, hasCycle_run bp = Some res /\ hasCycle bp = res) /\
  (hasCycle bp = true <-> has_reachable_cycle bp) /\
  (deps_of_current bp ->
   (hasCycle bp = true <-> has_cycle (transactionDependencies bp))).
Proof.
  split; [|split].
  - destruct (hasCycle_run_spec bp) as (res & Hrun & _). exists res.
    split; [done|]. unfold hasCycle. by rewrite Hrun.
  - apply hasCycle_true_iff.
  - intros Hd. rewrite hasCycle_true_iff. by apply has_reachable_cycle_iff.
Qed.


End PoolInvariantsOfGetPage.

Lemma GetPage_within_capacity_witness :
  within_capacity
    (set_readPermissionLocks <[2 := {[ex_k2]} ∪ ∅]> ex_pool_dirty).
Proof.
  apply (GetPage_within_capacity ex_file 1 2 ReadPerm {| bp := ex_pool_dirty; disk := ∅ |}
           {| bp := set_readPermissionLocks <[2 := {[ex_k2]} ∪ ∅]> ex_pool_dirty; disk := ∅ |}
           (Err (GoDBError BufferPoolFullError "buffer pool all dirty"))).
  - split; vm_compute; [discriminate|reflexivity].
  - vm_refl.
Defined.

Lemma GetPage_locks_compatible_witness :
  locks_compatible
    (set_readPermissionLocks <[2 := {[ex_k2]} ∪ ∅]> ex_pool_dirty).
Proof.
  apply (GetPage_locks_compatible ex_file 1 2 ReadPerm {| bp := ex_pool_dirty; disk := ∅ |}
           {| bp := set_readPermissionLocks <[2 := {[ex_k2]} ∪ ∅]> ex_pool_dirty; disk := ∅ |}
           (Err (GoDBError BufferPoolFullError "buffer pool all dirty"))).
  - intros t1 t2 k Ht1 Ht2 Hne Hk.
    assert (set_at (readPermissionLocks ex_pool_dirty) 2 = ∅) as Hr2 by vm_refl.
    assert (set_at (writePermissionLocks ex_pool_dirty) 2 = ∅) as Hw2 by vm_refl.
    cbn [bp] in *.
    assert (t1 = 1 \/ t1 = 2) as Ht1'
      by (change (t1 ∈ ({[1; 2]} : gset Z)) in Ht1; set_solver).
    assert (t2 = 1 \/ t2 = 2) as Ht2'
      by (change (t2 ∈ ({[1; 2]} : gset Z)) in Ht2; set_solver).
    destruct Ht1' as [-> | ->], Ht2' as [-> | ->]; try done.
    all: try (rewrite Hw2 in Hk; set_solver).
    all: rewrite Hr2, Hw2; set_solver.
  - vm_refl.
Defined.

Lemma GetPage_not_current_witness :
  ((1 ∉ currentTransactions (bp {| bp := ex_pool_dirty; disk := ∅ |})) ->
   GetPage ex_file 0 1 ReadPerm {| bp := ex_pool_dirty; disk := ∅ |}
   = Returns (Err (errors_New "invalid transaction"), {| bp := ex_pool_dirty; disk := ∅ |})) /\
  (let w1 := {| bp := AbortTransaction (bp {| bp := ex_pool_dirty; disk := ∅ |}) 1;
                disk := disk {| bp := ex_pool_dirty; disk := ∅ |} |} in
   GetPage ex_file 0 1 ReadPerm w1
   = Returns (Err (errors_New "invalid transaction"), w1)).
Proof.
  apply (GetPage_not_current ex_file 0 1 ReadPerm {| bp := ex_pool_dirty; disk := ∅ |} ex_k1).
  reflexivity.
Defined.


(** ** The row file and the disk *)

Lemma write_at_prefix_length (content : list byte) (off : nat) :
  length (take off (content ++ replicate (off - length content) "000"%byte)) = off.
Proof. rewrite length_take, length_app, length_replicate. lia. Qed.

Lemma length_write_at content offset data :
  length (write_at content offset data)
  = Nat.max (length content) (Z.to_nat offset + length data).
Proof.
  unfold write_at. rewrite !length_app, write_at_prefix_length, length_drop. lia.
Qed.

(** What was written is what is read at the same offset. *)
Lemma write_at_read content offset data :
  take (length data) (drop (Z.to_nat offset) (write_at content offset data)) = data.
Proof.
  unfold write_at.
  rewrite drop_app_length' by (by rewrite write_at_prefix_length).
  by rewrite take_app_length.
Qed.

(** The bytes after the written range are the old ones. *)
Lemma write_at_drop_after content offset data (m : nat) :
  (Z.to_nat offset + length data <= m)%nat ->
  drop m (write_at content offset data) = drop m content.
Proof.
  intros Hm. unfold write_at.
  rewrite drop_app_ge by (rewrite write_at_prefix_length; lia).
  rewrite write_at_prefix_length.
  rewrite drop_app_ge by lia.
  rewrite drop_drop. f_equal. lia.
Qed.

(** The bytes before the written range are the old ones, followed by
    zeros where the file was shorter. *)
Lemma write_at_take_before content offset data (m n : nat) :
  (m + n <= Z.to_nat offset)%nat ->
  take n (drop m (write_at content offset data))
  = take n (drop m (content ++ replicate (Z.to_nat offset - length content) "000"%byte)).
Proof.
  intros Hm. unfold write_at.
  set (off := Z.to_nat offset) in *.
  set (c := content ++ replicate (off - length content) "000"%byte).
  assert (off <= length c)%nat as Hc
    by (subst c; rewrite length_app, length_replicate; lia).
  rewrite drop_app_le by (rewrite length_take; lia).
  rewrite take_app_le by (rewrite length_drop, length_take; lia).
  rewrite skipn_firstn_comm, take_take. f_equal. lia.
Qed.

Lemma open_create_lookup name d :
  open_create name d !! name = Some (default [] (d !! name)).
Proof.
  unfold open_create. destruct (d !! name) as [c|] eqn:Hd; cbn.
  - done.
  - by rewrite lookup_insert_eq.
Qed.

Lemma open_create_other name name' d :
  name' <> name -> open_create name d !! name' = d !! name'.
Proof.
  intros Hne. unfold open_create. destruct (d !! name); [done|].
  by rewrite lookup_insert_ne.
Qed.

Lemma open_create_id name d c :
  d !! name = Some c -> open_create name d = d.
Proof. intros Hd. unfold open_create. by rewrite Hd. Qed.

Lemma heapPage_initFromBuffer_frame h buf h' e :
  heapPage_initFromBuffer h buf = Returns (h', e) ->
  hp_pageNumber h' = hp_pageNumber h /\ hp_Dirty h' = hp_Dirty h /\
  hp_desc h' = hp_desc h /\ hp_file h' = hp_file h.
Proof.
  unfold heapPage_initFromBuffer.
  destruct (buf_read 4 buf) as [[bs1 buf1]|e1]; [|by intros [= <- <-]].
  destruct (buf_read 4 buf1) as [[bs2 buf2]|e2]; [|by intros [= <- <-]].
  destruct (make_tuples _) as [ts0| |]; cbn [obind]; [|done..].
  destruct (heapPage_init_loop _ _ _ _ _ _) as [ts| |]; cbn [obind]; [|done..].
  by intros [= <- <-].
Qed.

Lemma wrap_page_offset (n : Z) :
  0 <= n -> n * PageSize < 2 ^ 63 -> wrap_int64 (n * PageSize) = n * PageSize.
Proof.
  intros H0 Hn. apply wrap_int64_id. unfold in_int64, PageSize in *. lia.
Qed.

(** What [flushPage] does to the disk, for a page that serializes. *)
Lemma HeapFile_flushPage_Ok f h d buf :
  0 <= hp_pageNumber h -> hp_pageNumber h * PageSize < 2 ^ 63 ->
  heapPage_toBuffer h = Ok buf ->
  HeapFile_flushPage f (HeapPg h) d
  = (HeapPg (heapPage_setDirty h false),
     <[backingFile f := write_at (default [] (d !! backingFile f))
                          (hp_pageNumber h * PageSize) buf]> (open_create (backingFile f) d),
     None).
Proof.
  intros H0 Hn Hbuf. unfold HeapFile_flushPage.
  rewrite wrap_page_offset by done.
  destruct (Z.ltb_spec (hp_pageNumber h * PageSize) 0) as [Hneg|_];
    [unfold PageSize in *; lia|].
  rewrite Hbuf. by rewrite open_create_lookup.
Qed.

(** [readPage] when the file holds a whole page at the offset. *)
Lemma HeapFile_readPage_whole f n d content buf :
  0 <= n -> n * PageSize < 2 ^ 63 ->
  d !! backingFile f = Some content ->
  take (Z.to_nat PageSize) (drop (Z.to_nat (n * PageSize)) content) = buf ->
  Z.of_nat (length buf) = PageSize ->
  HeapFile_readPage f n d
  = do r <- heapPage_initFromBuffer
              {| hp_Dirty := false; hp_pageNumber := n; hp_numSlots := 0;
                 hp_numUsedSlots := 0; hp_desc := tupleDesc f;
                 hp_file := backingFile f; hp_tuples := [] |} buf;
    match r with
    | (_, Some _) => Returns (Err (errors_New "failed to initialize heap page"), d)
    | (heap_page, None) => Returns (Ok (HeapPg heap_page), d)
    end.
Proof.
  intros H0 Hn Hd Hbuf Hlen. unfold HeapFile_readPage.
  rewrite wrap_page_offset by done.
  destruct (Z.ltb_spec (n * PageSize) 0) as [Hneg|_]; [unfold PageSize in *; lia|].
  rewrite (open_create_id _ _ _ Hd), Hd. cbn [default from_option id]. rewrite Hbuf.
  rewrite bool_decide_eq_false_2
    by (intros ->; cbn in Hlen; unfold PageSize in Hlen; lia).
  rewrite Hlen, Z.sub_diag. unfold zeros. cbn [Z.to_nat replicate].
  by rewrite app_nil_r.
Qed.

(** X23 (HeapFile.flushPage, HeapFile.readPage): a well-formed row page
    that fits in a page and is flushed to its file is read back from the
    file: [readPage] of its page number returns a clean page of the file
    with the same slot counts and the stored tuples in slot order, each
    with the record id of the slot it is read into.  The page object is
    clean after the flush, and no other file is touched. *)
Theorem HeapFile_flushPage_readPage (f : HeapFile) (h : heapPage)
    (d : gmap string (list byte)) :
  heapPage_wf h -> hp_desc h = tupleDesc f ->
  8 + hp_numSlots h * bytes_per_tuple (hp_desc h) <= PageSize ->
  0 <= hp_pageNumber h -> hp_pageNumber h * PageSize < 2 ^ 63 ->
  exists d' h',
    HeapFile_flushPage f (HeapPg h) d = (HeapPg (heapPage_setDirty h false), d', None) /\
    HeapFile_readPage f (hp_pageNumber h) d' = Returns (Ok (HeapPg h'), d') /\
    stored (hp_tuples h')
    = reload_from (hp_pageNumber h) (hp_desc h) 0 (stored (hp_tuples h)) /\
    hp_numSlots h' = hp_numSlots h /\ hp_numUsedSlots h' = hp_numUsedSlots h /\
    hp_pageNumber h' = hp_pageNumber h /\ hp_desc h' = hp_desc h /\
    hp_file h' = backingFile f /\ hp_Dirty h' = false /\
    (forall name, name <> backingFile f -> d' !! name = d !! name).
Proof.
  intros Hwf Hdesc Hfit H0 Hn.
  set (h0 := {| hp_Dirty := false; hp_pageNumber := hp_pageNumber h; hp_numSlots := 0;
                hp_numUsedSlots := 0; hp_desc := tupleDesc f;
                hp_file := backingFile f; hp_tuples := [] |}).
  destruct (heapPage_roundtrip h h0 Hwf (eq_sym Hdesc))
    as (buf & h' & Hbuf & Hinit & Hslots & Hused & Hst).
  destruct (heapPage_toBuffer_layout h Hwf Hfit) as (buf' & Hbuf' & Hlen & _).
  assert (buf' = buf) as -> by congruence.
  eexists _, h'. split; [by apply HeapFile_flushPage_Ok|].
  split.
  { erewrite HeapFile_readPage_whole;
      [|done|done|by rewrite lookup_insert_eq| |exact Hlen].
    - fold h0. by rewrite Hinit.
    - rewrite <- Hlen, Nat2Z.id. apply write_at_read. }
  apply heapPage_initFromBuffer_frame in Hinit as (Hp & Hd & Hde & Hf).
  repeat split; try done.
  - by rewrite Hde.
  - intros name Hne. rewrite lookup_insert_ne by done. by apply open_create_other.
Qed.

Lemma HeapFile_flushPage_readPage_witness :
  exists d' h',
    HeapFile_flushPage ex_rowFile (HeapPg ex_heapPage) ∅
    = (HeapPg (heapPage_setDirty ex_heapPage false), d', None) /\
    HeapFile_readPage ex_rowFile (hp_pageNumber ex_heapPage) d' = Returns (Ok (HeapPg h'), d') /\
    stored (hp_tuples h')
    = reload_from (hp_pageNumber ex_heapPage) (hp_desc ex_heapPage) 0
        (stored (hp_tuples ex_heapPage)) /\
    hp_numSlots h' = hp_numSlots ex_heapPage /\
    hp_numUsedSlots h' = hp_numUsedSlots ex_heapPage /\
    hp_pageNumber h' = hp_pageNumber ex_heapPage /\ hp_desc h' = hp_desc ex_heapPage /\
    hp_file h' = backingFile ex_rowFile /\ hp_Dirty h' = false /\
    (forall name, name <> backingFile ex_rowFile ->
                  d' !! name = (∅ : gmap string (list byte)) !! name).
Proof.
  apply (HeapFile_flushPage_readPage ex_rowFile ex_heapPage ∅).
  - exact ex_heapPage_wf.
  - reflexivity.
  - vm_compute. discriminate.
  - cbn. lia.
  - cbn. lia.
Defined.

(** The page a read would build from the bytes of a file that are
    available at the offset of page [m]. *)
Lemma HeapFile_readPage_data f m d :
  0 <= m -> m * PageSize < 2 ^ 63 ->
  HeapFile_readPage f m d
  = let d0 := open_create (backingFile f) d in
    let avail := take (Z.to_nat PageSize)
                   (drop (Z.to_nat (m * PageSize)) (default [] (d !! backingFile f))) in
    if bool_decide (avail = []) then Returns (Err (errors_New "failed to read data from page"), d0)
    else
      do r <- heapPage_initFromBuffer
                {| hp_Dirty := false; hp_pageNumber := m; hp_numSlots := 0;
                   hp_numUsedSlots := 0; hp_desc := tupleDesc f;
                   hp_file := backingFile f; hp_tuples := [] |}
                (avail ++ zeros (PageSize - Z.of_nat (length avail)));
      match r with
      | (_, Some _) => Returns (Err (errors_New "failed to initialize heap page"), d0)
      | (heap_page, None) => Returns (Ok (HeapPg heap_page), d0)
      end.
Proof.
  intros H0 Hm. unfold HeapFile_readPage.
  rewrite wrap_page_offset by done.
  destruct (Z.ltb_spec (m * PageSize) 0) as [Hneg|_]; [unfold PageSize in *; lia|].
  by rewrite open_create_lookup.
Qed.

(** Writing a page-sized block at a page boundary leaves what a read of
    another page sees. *)
Lemma write_at_other_page (c buf : list byte) (mo no P : nat) (offset : Z) :
  Z.to_nat offset = no -> length buf = P -> (0 < P)%nat ->
  (no + P <= mo \/ (mo + P <= no /\ mo < length c))%nat ->
  let a := take P (drop mo c) in
  let a' := take P (drop mo (write_at c offset buf)) in
  (a' = [] <-> a = []) /\
  a' ++ replicate (P - length a') "000"%byte = a ++ replicate (P - length a) "000"%byte.
Proof.
  intros Hoff Hlen HP [Hafter|[Hbefore Hin]]; cbn zeta.
  - by rewrite write_at_drop_after by lia.
  - rewrite write_at_take_before by lia. rewrite Hoff.
    rewrite drop_app_le by lia. rewrite take_app, take_replicate, length_drop.
    assert (length (take P (drop mo c)) = Nat.min P (length c - mo)) as Ha
      by (by rewrite length_take, length_drop).
    split.
    + split.
      * intros Hnil. apply (f_equal length) in Hnil.
        rewrite length_app, Ha, length_replicate in Hnil. cbn in Hnil. lia.
      * intros Hnil. apply (f_equal length) in Hnil. rewrite Ha in Hnil.
        cbn in Hnil. lia.
    + rewrite length_app, length_replicate, Ha. rewrite <- app_assoc.
      f_equal. rewrite <- replicate_add. f_equal. lia.
Qed.

(** X24 (HeapFile.flushPage, HeapFile.readPage): flushing a well-formed
    row page that fits in a page does not disturb the other pages of the
    file: reading any other page number gives what it gave before the
    flush, provided that page lies after the flushed one or began within
    the file before the flush. *)
Theorem HeapFile_flushPage_other_pages (f : HeapFile) (h : heapPage)
    (d : gmap string (list byte)) (m : Z) :
  heapPage_wf h ->
  8 + hp_numSlots h * bytes_per_tuple (hp_desc h) <= PageSize ->
  0 <= hp_pageNumber h -> hp_pageNumber h * PageSize < 2 ^ 63 ->
  0 <= m -> m * PageSize < 2 ^ 63 -> m <> hp_pageNumber h ->
  (m < hp_pageNumber h ->
   m * PageSize < Z.of_nat (length (default [] (d !! backingFile f)))) ->
  let d' := (HeapFile_flushPage f (HeapPg h) d).1.2 in
  (HeapFile_flushPage f (HeapPg h) d).2 = None /\
  HeapFile_readPage f m d'
  = do x <- HeapFile_readPage f m d; Returns (x.1, d').
Proof.
  intros Hwf Hfit H0 Hn Hm0 Hm Hne Hin.
  destruct (heapPage_toBuffer_layout h Hwf Hfit) as (buf & Hbuf & Hlen & _).
  rewrite (HeapFile_flushPage_Ok f h d buf) by done. cbn [fst snd].
  split; [done|].
  rewrite !HeapFile_readPage_data by done. cbn zeta.
  rewrite lookup_insert_eq. cbn [default from_option id].
  rewrite (open_create_id (backingFile f) (<[backingFile f := _]> _) _
             (lookup_insert_eq _ _ _)).
  set (c := default [] (d !! backingFile f)) in *.
  destruct (write_at_other_page c buf (Z.to_nat (m * PageSize))
              (Z.to_nat (hp_pageNumber h * PageSize)) (Z.to_nat PageSize)
              (hp_pageNumber h * PageSize) eq_refl) as [Hnil Hdata].
  { lia. }
  { unfold PageSize. lia. }
  { unfold PageSize in *.
    destruct (Z.lt_ge_cases m (hp_pageNumber h)) as [Hlt|Hge]; [right|left]; lia. }
  set (a := take (Z.to_nat PageSize) (drop (Z.to_nat (m * PageSize)) c)) in *.
  set (a' := take (Z.to_nat PageSize) (drop (Z.to_nat (m * PageSize)) (write_at c _ buf))) in *.
  assert (forall l : list byte,
            (length l <= Z.to_nat PageSize)%nat ->
            zeros (PageSize - Z.of_nat (length l))
            = replicate (Z.to_nat PageSize - length l) "000"%byte) as Hz.
  { intros l Hl. unfold zeros. f_equal. lia. }
  rewrite !Hz by (subst a a'; rewrite length_take; lia).
  rewrite Hdata.
  destruct (decide (a = [])) as [Ha|Ha].
  - rewrite !bool_decide_eq_true_2 by (done || by apply Hnil). done.
  - rewrite !bool_decide_eq_false_2 by (done || by rewrite Hnil). 
    destruct (heapPage_initFromBuffer _ _) as [[hp [e|]]| |]; done.
Qed.

Lemma HeapFile_flushPage_other_pages_witness :
  let d' := (HeapFile_flushPage ex_rowFile (HeapPg ex_heapPage) ∅).1.2 in
  (HeapFile_flushPage ex_rowFile (HeapPg ex_heapPage) ∅).2 = None /\
  HeapFile_readPage ex_rowFile 1 d'
  = do x <- HeapFile_readPage ex_rowFile 1 ∅; Returns (x.1, d').
Proof.
  apply (HeapFile_flushPage_other_pages ex_rowFile ex_heapPage ∅ 1).
  - exact ex_heapPage_wf.
  - vm_compute. discriminate.
  - cbn. lia.
  - cbn. lia.
  - lia.
  - unfold PageSize. lia.
  - cbn. lia.
  - cbn. lia.
Defined.

(** The page count of [NumPages] is the size divided by the page size,
    rounded up. *)
Lemma NumPages_ceil (L : Z) :
  0 <= L < 2 ^ 63 ->
  (if negb (Z.rem L PageSize =? 0) then wrap_int64 (Z.quot L PageSize + 1)
   else Z.quot L PageSize)
  = (L + PageSize - 1) / PageSize.
Proof.
  intros HL. unfold PageSize in *.
  rewrite Z.rem_mod_nonneg, Z.quot_div_nonneg by lia.
  destruct (Z.eqb_spec (L mod 4096) 0) as [H0|Hne]; cbn [negb].
  - Z.div_mod_to_equations. lia.
  - rewrite wrap_int64_id by (unfold in_int64; Z.div_mod_to_equations; lia).
    Z.div_mod_to_equations. lia.
Qed.

Lemma HeapFile_NumPages_write f (d : gmap string (list byte)) (n : Z) (buf : list byte) :
  0 <= n -> (n + 1) * PageSize < 2 ^ 63 ->
  Z.of_nat (length buf) = PageSize ->
  Z.of_nat (length (default [] (d !! backingFile f))) < 2 ^ 63 ->
  HeapFile_NumPages f
    (<[backingFile f := write_at (default [] (d !! backingFile f)) (n * PageSize) buf]>
       (open_create (backingFile f) d))
  = Z.max (HeapFile_NumPages f d) (n + 1).
Proof.
  intros H0 Hn Hlen Hsize.
  unfold HeapFile_NumPages. rewrite lookup_insert_eq. cbn zeta.
  rewrite length_write_at.
  assert (Z.of_nat (Z.to_nat (n * PageSize) + length buf) = (n + 1) * PageSize) as Hend
    by (unfold PageSize in *; lia).
  rewrite NumPages_ceil by lia.
  destruct (d !! backingFile f) as [c|] eqn:Hd; cbn [default from_option id] in *.
  - rewrite NumPages_ceil by lia. unfold PageSize in *.
    Z.div_mod_to_equations. lia.
  - cbn [length] in *. unfold PageSize in *. Z.div_mod_to_equations. lia.
Qed.

(** X25 (HeapFile.NumPages, HeapFile.flushPage): flushing a well-formed
    row page that fits in a page never shortens the file and makes it
    reach the end of the flushed page: afterwards the file has as many
    pages as before, or the page number plus one if that is more. *)
Theorem HeapFile_NumPages_flushPage (f : HeapFile) (h : heapPage)
    (d : gmap string (list byte)) :
  heapPage_wf h ->
  8 + hp_numSlots h * bytes_per_tuple (hp_desc h) <= PageSize ->
  0 <= hp_pageNumber h -> (hp_pageNumber h + 1) * PageSize < 2 ^ 63 ->
  Z.of_nat (length (default [] (d !! backingFile f))) < 2 ^ 63 ->
  HeapFile_NumPages f (HeapFile_flushPage f (HeapPg h) d).1.2
  = Z.max (HeapFile_NumPages f d) (hp_pageNumber h + 1).
Proof.
  intros Hwf Hfit H0 Hn Hsize.
  destruct (heapPage_toBuffer_layout h Hwf Hfit) as (buf & Hbuf & Hlen & _).
  rewrite (HeapFile_flushPage_Ok f h d buf) by (done || unfold PageSize in *; lia).
  cbn [fst snd]. by apply HeapFile_NumPages_write.
Qed.

Lemma HeapFile_NumPages_flushPage_witness :
  HeapFile_NumPages ex_rowFile (HeapFile_flushPage ex_rowFile (HeapPg ex_heapPage) ∅).1.2
  = Z.max (HeapFile_NumPages ex_rowFile ∅) (hp_pageNumber ex_heapPage + 1).
Proof.
  apply (HeapFile_NumPages_flushPage ex_rowFile ex_heapPage ∅).
  - exact ex_heapPage_wf.
  - vm_compute. discriminate.
  - cbn. lia.
  - cbn. unfold PageSize. lia.
  - vm_compute. reflexivity.
Defined.

Section RowFileInsert.
Context `{!RangeOrder}.

(** X26 (HeapFile.insertTuple, HeapFile.createNewPage): when no page of
    a row file is marked available (as in a new file), inserting a tuple
    whose values fit the descriptor of the file appends a page to the
    file: the file counts one page more, marked available, and reading
    the new page from disk gives a page whose only tuple has the values
    inserted and the record id of slot 0 of that page.  No lock is
    taken and no other cached page is touched.  If the file counted
    the pages of its backing file before, it does so afterwards. *)
Theorem HeapFile_insertTuple_appends_page (f : HeapFile) (t : Tuple) (tid : Z) (w : World) :
  length (Fields t) = length (FieldTypes (Desc t)) ->
  Forall (fun idle => idle = false) (availablePages f) ->
  FieldTypes (tupleDesc f) <> [] ->
  Forall (fun ft => Ftype ft <> UnknownType) (FieldTypes (tupleDesc f)) ->
  8 + bytes_per_tuple (tupleDesc f) <= PageSize ->
  Forall2 conforms (Fields t) (FieldTypes (tupleDesc f)) ->
  0 <= pagesNum f -> (pagesNum f + 1) * PageSize < 2 ^ 63 ->
  exists f' w' page,
    HeapFile_insertTuple f t tid w = Returns (None, f', w') /\
    backingFile f' = backingFile f /\ tupleDesc f' = tupleDesc f /\
    pagesNum f' = pagesNum f + 1 /\
    availablePages f' = availablePages f ++ [true] /\
    HeapFile_readPage f' (pagesNum f) (disk w') = Returns (Ok (HeapPg page), disk w') /\
    stored (hp_tuples page)
    = [ {| Desc := tupleDesc f; Fields := Fields t;
           Rid := RidString (Sprintf_d_d (pagesNum f) 0) |} ] /\
    hp_numSlots page = (PageSize - 8) / bytes_per_tuple (tupleDesc f) /\
    readPermissionLocks (bp w') = readPermissionLocks (bp w) /\
    writePermissionLocks (bp w') = writePermissionLocks (bp w) /\
    (forall key, key <> HeapFile_pageKey f (pagesNum f) ->
                 Pages (bp w') !! key = Pages (bp w) !! key) /\
    (Z.of_nat (length (default [] (disk w !! backingFile f))) < 2 ^ 63 ->
     pagesNum f = HeapFile_NumPages f (disk w) ->
     pagesNum f' = HeapFile_NumPages f' (disk w')).
Proof.
  intros Hlen Hidle Hne Hknown Hfit Hconf H0 Hn.
  unfold HeapFile_insertTuple.
  rewrite (proj2 (Nat.eqb_eq _ _) Hlen).
  rewrite insertTuple_loop_none_idle by done. cbn [obind].
  unfold HeapFile_createNewPage.
  destruct (newHeapPage_Ok (tupleDesc f) (pagesNum f) (backingFile f))
    as (h & -> & Hwf & Hslots & Htuples & Hused & Hdirty & Hdesc & Hpage & Hfile & Hroom);
    [done|done|unfold PageSize in *; lia|].
  cbn [obind].
  assert (8 <= bytes_per_tuple (tupleDesc f)) as Hw.
  { unfold bytes_per_tuple. destruct (FieldTypes (tupleDesc f)) as [|ft fs]; [done|]. cbn.
    pose proof (field_width_pos ft). pose proof (fold_field_width_nonneg fs). lia. }
  assert (1 <= hp_numSlots h) as Hone.
  { rewrite Hslots. apply Z.div_le_lower_bound; lia. }
  destruct (Z.to_nat (hp_numSlots h)) as [|k] eqn:Hk; [lia|].
  unfold heapPage_insertTuple. rewrite Htuples. cbn [replicate find_index is_nil].
  cbn [insert list_insert].
  set (t' := {| Desc := hp_desc h; Fields := Fields t;
                Rid := RidString (Sprintf_d_d (hp_pageNumber h) (Z.of_nat 0)) |}).
  set (h1 := {| hp_Dirty := true; hp_pageNumber := hp_pageNumber h;
                hp_numSlots := hp_numSlots h;
                hp_numUsedSlots := wrap_int32 (hp_numUsedSlots h + 1);
                hp_desc := hp_desc h; hp_file := hp_file h;
                hp_tuples := Some t' :: replicate k None |}).
  assert (heapPage_wf h1) as Hwf1.
  { destruct Hwf as [Hs Hu Hi Ht].
    constructor; cbn [h1 hp_numSlots hp_numUsedSlots hp_tuples hp_desc].
    - cbn [length]. rewrite length_replicate. lia.
    - rewrite stored_cons_Some, stored_replicate_None, Hused. done.
    - done.
    - rewrite stored_cons_Some, stored_replicate_None.
      constructor; [|constructor]. split; [done|]. cbn [t' Fields]. by rewrite Hdesc. }
  assert (8 + hp_numSlots h1 * bytes_per_tuple (hp_desc h1) <= PageSize) as Hfit1
    by (cbn [h1 hp_numSlots hp_desc]; by rewrite Hdesc).
  set (h0 := {| hp_Dirty := false; hp_pageNumber := pagesNum f; hp_numSlots := 0;
                hp_numUsedSlots := 0; hp_desc := tupleDesc f;
                hp_file := backingFile f; hp_tuples := [] |}).
  destruct (heapPage_roundtrip h1 h0 Hwf1) as (buf & page & Hbuf & Hinit & Hs' & _ & Hst);
    [cbn [h0 h1 hp_desc]; by rewrite Hdesc|].
  destruct (heapPage_toBuffer_layout h1 Hwf1 Hfit1) as (buf' & Hbuf' & Hbuflen & _).
  assert (buf' = buf) as -> by congruence.
  rewrite (HeapFile_flushPage_Ok f h1 (disk w) buf);
    [|cbn [h1 hp_pageNumber]; lia|cbn [h1 hp_pageNumber]; unfold PageSize in *; lia|done].
  rewrite wrap_int64_id by (unfold in_int64, PageSize in *; lia).
  eexists _, _, page. split; [reflexivity|].
  cbn [set_pagesNum set_availablePages backingFile tupleDesc pagesNum availablePages bp disk].
  split; [done|]. split; [done|]. split; [done|]. split; [done|].
  split.
  { erewrite HeapFile_readPage_whole;
      [|done|unfold PageSize in *; lia|by (cbn [backingFile]; rewrite lookup_insert_eq)|
       |exact Hbuflen].
    - change (heapPage_initFromBuffer _ buf) with (heapPage_initFromBuffer h0 buf).
      by rewrite Hinit.
    - cbn [h1 hp_pageNumber]. rewrite Hpage, <- Hbuflen, Nat2Z.id. apply write_at_read. }
  split.
  { rewrite Hst. cbn [h1 hp_tuples hp_desc hp_pageNumber].
    rewrite stored_cons_Some, stored_replicate_None. cbn. by rewrite Hdesc. }
  split; [by rewrite Hs'|].
  assert (forall bp' : BufferPool,
            HeapFile_NumPages f (disk w) = pagesNum f ->
            Z.of_nat (length (default [] (disk w !! backingFile f))) < 2 ^ 63 ->
            pagesNum f + 1
            = HeapFile_NumPages
                (set_pagesNum (pagesNum f + 1)
                   (set_availablePages (availablePages f ++ [true]) f))
                (<[backingFile f := write_at (default [] (disk w !! backingFile f))
                                      (hp_pageNumber h1 * PageSize) buf]>
                   (open_create (backingFile f) (disk w)))) as Hcount.
  { intros _ Hnum Hsize.
    change (HeapFile_NumPages (set_pagesNum _ _)) with (HeapFile_NumPages f).
    cbn [h1 hp_pageNumber]. rewrite Hpage.
    rewrite HeapFile_NumPages_write by done. lia. }
  destruct (Z.of_nat (size (Pages (bp w))) <? NumPages (bp w)); cbn; repeat split; try done.
  - intros key Hkey. by rewrite lookup_insert_ne.
  - intros Hsize Hnum. by apply (Hcount (bp w)).
  - intros Hsize Hnum. by apply (Hcount (bp w)).
Qed.

End RowFileInsert.

Lemma HeapFile_insertTuple_appends_page_witness :
  let w := {| bp := NewBufferPool 10; disk := ∅ |} in
  exists f' w' page,
    HeapFile_insertTuple ex_rowFile ex_t1 1 w = Returns (None, f', w') /\
    backingFile f' = backingFile ex_rowFile /\ tupleDesc f' = tupleDesc ex_rowFile /\
    pagesNum f' = pagesNum ex_rowFile + 1 /\
    availablePages f' = availablePages ex_rowFile ++ [true] /\
    HeapFile_readPage f' (pagesNum ex_rowFile) (disk w') = Returns (Ok (HeapPg page), disk w') /\
    stored (hp_tuples page)
    = [ {| Desc := tupleDesc ex_rowFile; Fields := Fields ex_t1;
           Rid := RidString (Sprintf_d_d (pagesNum ex_rowFile) 0) |} ] /\
    hp_numSlots page = (PageSize - 8) / bytes_per_tuple (tupleDesc ex_rowFile) /\
    readPermissionLocks (bp w') = readPermissionLocks (bp w) /\
    writePermissionLocks (bp w') = writePermissionLocks (bp w) /\
    (forall key, key <> HeapFile_pageKey ex_rowFile (pagesNum ex_rowFile) ->
                 Pages (bp w') !! key = Pages (bp w) !! key) /\
    (Z.of_nat (length (default [] (disk w !! backingFile ex_rowFile))) < 2 ^ 63 ->
     pagesNum ex_rowFile = HeapFile_NumPages ex_rowFile (disk w) ->
     pagesNum f' = HeapFile_NumPages f' (disk w')).
Proof.
  intros w.
  apply (HeapFile_insertTuple_appends_page ex_rowFile ex_t1 1 w).
  - reflexivity.
  - constructor.
  - discriminate.
  - repeat constructor; discriminate.
  - vm_compute. discriminate.
  - repeat constructor; cbn; unfold in_int64; try lia; try discriminate.
  - cbn. lia.
  - cbn. unfold PageSize. lia.
Defined.

(** ** Column pages: insertion and deletion *)

(** A well-formed page with a free slot has a first nil slot. *)
Lemma first_nil_slot (tuples : list (option Tuple)) :
  (length (stored tuples) < length tuples)%nat ->
  exists l1 l2, tuples = l1 ++ None :: l2 /\
                Forall (fun slot => slot <> None) l1 /\
                find_index is_nil tuples 0%nat = Some (length l1).
Proof.
  intros Hlt.
  destruct (find_index is_nil tuples 0%nat) as [slot|] eqn:Hf.
  - apply find_index_split in Hf as (l1 & x & l2 & -> & -> & Hl1 & Hx).
    destruct x as [?|]; [done|]. exists l1, l2. split; [done|]. split; [|done].
    eapply Forall_impl; [exact Hl1|]. by intros [?|].
  - apply find_index_None in Hf. apply stored_all_Some in Hf. lia.
Qed.

Lemma Tuple_project_one_named t fld d :
  (length (FieldTypes (Desc t)) <= length (Fields t))%nat ->
  d ∈ FieldTypes (Desc t) -> Fname d = Fname fld ->
  exists i v d',
    Tuple_project t [fld]
    = Returns (Ok {| Desc := {| FieldTypes := [d'] |}; Fields := [v]; Rid := RidNil |}) /\
    Fields t !! i = Some v /\ FieldTypes (Desc t) !! i = Some d' /\ Fname d' = Fname fld.
Proof.
  intros Hlen Hd Hn. unfold Tuple_project. cbn [project_fields].
  destruct (project_match_named t fld d Hd Hn) as (i & d' & -> & Hi & Hn').
  assert (is_Some (Fields t !! i)) as [v Hv].
  { apply lookup_lt_is_Some. apply lookup_lt_Some in Hi. lia. }
  rewrite Hv, Hi. by exists i, v, d'.
Qed.

(** X27 (columnStorePage.insertTuple, columnStorePage.deleteTuple): on a
    well-formed column page with a free slot, a tuple that has a field of
    the name of the page's column is stored in the first nil slot as a
    one-field tuple holding the value of that field, the slot number is
    returned as record id, and deleting with that record id gives back the
    slots and the count the page had.  For a tuple without a field of
    that name the insertion also returns the slot number and counts the
    slot as used, but stores nothing. *)
Theorem columnStorePage_insert_then_delete (c : columnStorePage) (t : Tuple) (fld : FieldType) :
  columnStorePage_wf c -> FieldTypes (cp_desc c) = [fld] ->
  cp_numUsedSlots c < cp_numSlots c ->
  (length (FieldTypes (Desc t)) <= length (Fields t))%nat ->
  exists l1 l2,
    cp_tuples c = l1 ++ None :: l2 /\ Forall (fun slot => slot <> None) l1 /\
    ((exists d, d ∈ FieldTypes (Desc t) /\ Fname d = Fname fld) ->
     exists i v d c1 c2,
       Fields t !! i = Some v /\ FieldTypes (Desc t) !! i = Some d /\ Fname d = Fname fld /\
       columnStorePage_insertTuple c t = Returns (c1, Ok (RidInt (Z.of_nat (length l1)))) /\
       cp_tuples c1
       = l1 ++ Some {| Desc := {| FieldTypes := [d] |}; Fields := [v]; Rid := RidNil |} :: l2 /\
       cp_numUsedSlots c1 = cp_numUsedSlots c + 1 /\ cp_numSlots c1 = cp_numSlots c /\
       cp_Dirty c1 = true /\
       columnStorePage_deleteTuple c1 (RidInt (Z.of_nat (length l1))) = Returns (c2, None) /\
       cp_tuples c2 = cp_tuples c /\ cp_numUsedSlots c2 = cp_numUsedSlots c /\
       cp_numSlots c2 = cp_numSlots c /\ cp_Dirty c2 = true) /\
    ((forall d, d ∈ FieldTypes (Desc t) -> Fname d <> Fname fld) ->
     exists c1,
       columnStorePage_insertTuple c t = Returns (c1, Ok (RidInt (Z.of_nat (length l1)))) /\
       cp_tuples c1 = cp_tuples c /\
       cp_numUsedSlots c1 = cp_numUsedSlots c + 1 /\ cp_Dirty c1 = true).
Proof.
  intros [Hs Hu Hi _ _] Hfld Hfree Hlen.
  destruct (first_nil_slot (cp_tuples c)) as (l1 & l2 & Htup & Hl1 & Hfind); [lia|].
  pose proof (length_stored_le (cp_tuples c)) as Hle.
  assert (wrap_int32 (cp_numUsedSlots c + 1) = cp_numUsedSlots c + 1) as Hw
    by (apply wrap_int32_id; unfold in_int32 in *; lia).
  exists l1, l2. split; [done|]. split; [done|].
  unfold columnStorePage_insertTuple.
  destruct (Z.geb_spec (cp_numUsedSlots c) (cp_numSlots c)) as [?|_]; [lia|].
  rewrite Hfld, Hfind. split.
  - intros (d & Hd & Hn).
    destruct (Tuple_project_one_named t fld d Hlen Hd Hn) as (i & v & d' & -> & Hv & Hd' & Hn').
    cbn [obind]. eexists i, v, d', _, _. split; [done|]. split; [done|]. split; [done|].
    split; [reflexivity|].
    cbn [cp_tuples cp_numUsedSlots cp_numSlots cp_Dirty].
    rewrite Htup, insert_middle, Hw.
    split; [done|]. split; [done|]. split; [done|]. split; [done|].
    unfold columnStorePage_deleteTuple.
    cbn [cp_tuples cp_numUsedSlots cp_numSlots cp_Dirty].
    assert (Z.of_nat (length l1) < cp_numSlots c) as Hin
      by (rewrite Hs, Htup, length_app; cbn [length]; lia).
    destruct (Z.ltb_spec (Z.of_nat (length l1)) 0) as [?|_]; [lia|].
    destruct (Z.geb_spec (Z.of_nat (length l1)) (cp_numSlots c)) as [?|_]; [lia|].
    cbn [orb]. rewrite Nat2Z.id.
    rewrite list_lookup_middle by done.
    split; [reflexivity|].
    cbn [cp_tuples cp_numUsedSlots cp_numSlots cp_Dirty].
    rewrite insert_middle.
    replace (cp_numUsedSlots c + 1 - 1) with (cp_numUsedSlots c) by lia.
    rewrite wrap_int32_id by (unfold in_int32 in *; lia). done.
  - intros Hno. unfold Tuple_project. cbn [project_fields].
    rewrite project_match_unnamed by done. cbn [obind].
    eexists. split; [reflexivity|].
    cbn [cp_tuples cp_numUsedSlots cp_Dirty].
    rewrite Htup, insert_middle, Hw. done.
Qed.

Lemma columnStorePage_insert_then_delete_witness :
  exists l1 l2,
    cp_tuples ex_columnPage_new = l1 ++ None :: l2 /\ Forall (fun slot => slot <> None) l1 /\
    ((exists d, d ∈ FieldTypes (Desc ex_t1) /\ Fname d = "age") ->
     exists i v d c1 c2,
       Fields ex_t1 !! i = Some v /\ FieldTypes (Desc ex_t1) !! i = Some d /\ Fname d = "age" /\
       columnStorePage_insertTuple ex_columnPage_new ex_t1
       = Returns (c1, Ok (RidInt (Z.of_nat (length l1)))) /\
       cp_tuples c1
       = l1 ++ Some {| Desc := {| FieldTypes := [d] |}; Fields := [v]; Rid := RidNil |} :: l2 /\
       cp_numUsedSlots c1 = cp_numUsedSlots ex_columnPage_new + 1 /\
       cp_numSlots c1 = cp_numSlots ex_columnPage_new /\
       cp_Dirty c1 = true /\
       columnStorePage_deleteTuple c1 (RidInt (Z.of_nat (length l1))) = Returns (c2, None) /\
       cp_tuples c2 = cp_tuples ex_columnPage_new /\
       cp_numUsedSlots c2 = cp_numUsedSlots ex_columnPage_new /\
       cp_numSlots c2 = cp_numSlots ex_columnPage_new /\ cp_Dirty c2 = true) /\
    ((forall d, d ∈ FieldTypes (Desc ex_t1) -> Fname d <> "age") ->
     exists c1,
       columnStorePage_insertTuple ex_columnPage_new ex_t1
       = Returns (c1, Ok (RidInt (Z.of_nat (length l1)))) /\
       cp_tuples c1 = cp_tuples ex_columnPage_new /\
       cp_numUsedSlots c1 = cp_numUsedSlots ex_columnPage_new + 1 /\ cp_Dirty c1 = true).
Proof.
  apply (columnStorePage_insert_then_delete ex_columnPage_new ex_t1
           {| Fname := "age"; TableQualifier := ""; Ftype := IntType |}).
  - constructor; cbn [ex_columnPage_new cp_numSlots cp_numUsedSlots cp_tuples cp_desc].
    + reflexivity.
    + reflexivity.
    + unfold in_int32. lia.
    + by eexists.
    + rewrite stored_replicate_None. constructor.
  - reflexivity.
  - cbn. lia.
  - cbn. lia.
Defined.

(** ** The SUM aggregation state *)

Lemma SumAggState_foldl expr alias ts : forall s,
  in_int64 s ->
  foldl (fun a t => SumAggState_AddTuple a (Some t))
        {| sum_sum := s; sum_alias := alias; sum_expr := expr |} ts
  = {| sum_sum :=
         wrap_int64 (s + fold_right Z.add 0
                           (map (fun t => as_IntField (fst (EvalExpr expr (Some t)))) ts));
       sum_alias := alias; sum_expr := expr |}.
Proof.
  induction ts as [|t ts IH]; intros s Hs; cbn [foldl map fold_right].
  - by rewrite Z.add_0_r, wrap_int64_id.
  - unfold SumAggState_AddTuple at 2. cbn [sum_sum sum_alias sum_expr].
    rewrite IH by apply wrap_int64_range.
    f_equal. rewrite wrap_int64_add_l. f_equal. lia.
Qed.

(** X30 (SumAggState.Init, AddTuple, Finalize): after [Init], adding
    tuples and finalizing gives one integer field named by the alias that
    holds the sum of the integer values of the expression on the tuples,
    wrapped to 64 bits; a tuple on which the expression gives no integer
    adds nothing.  When the sum fits in 64 bits the field holds the sum. *)
Theorem SumAggState_run_sum (a : SumAggState) (alias : string) (expr : Expr)
    (ts : list Tuple) :
  let total := fold_right Z.add 0
                 (map (fun t => as_IntField (fst (EvalExpr expr (Some t)))) ts) in
  SumAggState_run a alias expr ts
  = {| Desc := {| FieldTypes := [ {| Fname := alias; TableQualifier := "";
                                     Ftype := IntType |} ] |};
       Fields := [IntField (wrap_int64 total)]; Rid := RidNil |} /\
  (in_int64 total ->
   Fields (SumAggState_run a alias expr ts) = [IntField total]).
Proof.
  cbn zeta.
  assert (SumAggState_run a alias expr ts
          = {| Desc := {| FieldTypes := [ {| Fname := alias; TableQualifier := "";
                                             Ftype := IntType |} ] |};
               Fields := [IntField (wrap_int64
                            (fold_right Z.add 0
                               (map (fun t => as_IntField (fst (EvalExpr expr (Some t)))) ts)))];
               Rid := RidNil |}) as Hrun.
  { unfold SumAggState_run, SumAggState_Init.
    rewrite SumAggState_foldl by (unfold in_int64; lia).
    by rewrite Z.add_0_l. }
  split; [done|]. intros Hfit. rewrite Hrun. cbn [Fields]. by rewrite wrap_int64_id.
Qed.

(** ** The Limit operator *)

Section LimitOperator.
Context {Σ : Type}.

Lemma LimitOp_pulls_pass (child_iter : Iter Σ) (lim : Z) ts : forall count σ σ',
  yields child_iter σ ts σ' ->
  0 <= count -> count + Z.of_nat (length ts) <= lim -> lim < 2 ^ 63 ->
  LimitOp_pulls (length ts) (Some child_iter) (IntField lim) count σ
  = Returns (map (fun t => (Some t, None)) ts, count + Z.of_nat (length ts), σ').
Proof.
  induction ts as [|t ts IH]; intros count σ σ' Hy H0 Hle Hlim.
  - inversion Hy; subst. cbn. by rewrite Z.add_0_r.
  - inversion Hy as [|? ? σ1 ? ? Hnext Hrest]; subst.
    cbn [length LimitOp_pulls LimitOp_next]. rewrite Hnext. cbn [obind].
    cbn [length] in Hle.
    destruct (Z.geb_spec count lim) as [?|_]; [lia|]. cbn [obind fst snd].
    rewrite wrap_int64_id by (unfold in_int64; lia).
    rewrite (IH _ _ _ Hrest) by lia. cbn [obind fst snd map].
    do 2 f_equal. f_equal. lia.
Qed.

(** X28 (LimitOp.Iterator): with a limit expression that evaluates to an
    integer [lim] and a child whose iterator yields tuples, the first
    [lim] calls of the iterator of the Limit operator return the child's
    tuples in order.  Once [lim] tuples are returned, or when the child
    has no more tuples, a call returns nil; it has then asked the child
    for one more tuple, which is not returned. *)
Theorem LimitOp_first_tuples (l : LimitOp Σ) (tid : TransactionID) (child_iter : Iter Σ)
    (lim : Z) (ts : list Tuple) (σ0 σ σ' : Σ) :
  fst (EvalExpr (limitTups l) None) = IntField lim -> lim < 2 ^ 63 ->
  Iterator (lop_child l) tid σ0 = Returns (Ok child_iter, σ) ->
  yields child_iter σ ts σ' ->
  Z.of_nat (length ts) <= lim ->
  LimitOp_Iterator l tid σ0 = Returns ((Some child_iter, IntField lim), σ) /\
  LimitOp_pulls (length ts) (Some child_iter) (IntField lim) 0 σ
  = Returns (map (fun t => (Some t, None)) ts, Z.of_nat (length ts), σ') /\
  (forall x σ1,
     child_iter σ' = Returns ((x, None), σ1) ->
     x = None \/ Z.of_nat (length ts) = lim ->
     LimitOp_next (Some child_iter) (IntField lim) (Z.of_nat (length ts)) σ'
     = Returns ((None, None), Z.of_nat (length ts), σ1)).
Proof.
  intros Hexpr Hlim Hiter Hy Hle. split; [|split].
  - unfold LimitOp_Iterator. by rewrite Hexpr, Hiter.
  - rewrite (LimitOp_pulls_pass child_iter lim ts 0 σ σ') by (done || lia). done.
  - intros x σ1 Hnext Hend. cbn [LimitOp_next]. rewrite Hnext. cbn [obind].
    destruct x as [t|]; [|done].
    destruct Hend as [?|Hend]; [done|].
    destruct (Z.geb_spec (Z.of_nat (length ts)) lim) as [_|?]; [done|lia].
Qed.

End LimitOperator.

Lemma LimitOp_first_tuples_witness :
  let l := NewLimitOp (ex_const_expr 1) ex_list_child in
  let σ : list Tuple * list Tuple := ([ex_t1; ex_t2], []) in
  let σ' : list Tuple * list Tuple := ([ex_t2], []) in
  LimitOp_Iterator l 1 σ = Returns ((Some ex_list_iter, IntField 1), σ) /\
  LimitOp_pulls (length [ex_t1]) (Some ex_list_iter) (IntField 1) 0 σ
  = Returns (map (fun t => (Some t, None)) [ex_t1], Z.of_nat (length [ex_t1]), σ') /\
  (forall x σ1,
     ex_list_iter σ' = Returns ((x, None), σ1) ->
     x = None \/ Z.of_nat (length [ex_t1]) = 1 ->
     LimitOp_next (Some ex_list_iter) (IntField 1) (Z.of_nat (length [ex_t1])) σ'
     = Returns ((None, None), Z.of_nat (length [ex_t1]), σ1)).
Proof.
  intros l σ σ'.
  apply (LimitOp_first_tuples l 1 ex_list_iter 1 [ex_t1] σ σ σ').
  - reflexivity.
  - lia.
  - reflexivity.
  - econstructor; [reflexivity|constructor].
  - cbn. lia.
Defined.

(** ** The Project operator *)

Section ProjectOperator.
Context {Σ : Type}.

Lemma Project_Descriptor_loop_Returns exprs names : forall i,
  (i + length exprs <= length names)%nat ->
  exists fields,
    Project_Descriptor_loop exprs names i = Returns fields /\
    map Fname fields = take (length exprs) (drop i names) /\
    map Ftype fields = map (fun e => Ftype (GetExprType e)) exprs /\
    map TableQualifier fields = map (fun e => TableQualifier (GetExprType e)) exprs.
Proof.
  induction exprs as [|e exprs IH]; intros i Hlen; cbn [Project_Descriptor_loop length].
  - by exists [].
  - cbn [length] in Hlen.
    destruct (lookup_lt_is_Some_2 names i) as [name Hname]; [lia|].
    rewrite Hname.
    destruct (IH (S i)) as (fields & -> & Hn & Ht & Hq); [lia|].
    cbn [obind]. eexists. split; [done|]. cbn [map].
    rewrite Hn, Ht, Hq. split; [|done].
    by rewrite (drop_S _ _ _ Hname).
Qed.

Lemma Project_pulls_S n fuel (p : Project Σ) child_iter proj_desc seenKeys σ :
  Project_pulls (S n) fuel p child_iter proj_desc seenKeys σ
  = match Project_next fuel p child_iter proj_desc seenKeys σ with
    | None => None
    | Some (Panics msg) => Some (Panics msg)
    | Some Blocks => Some Blocks
    | Some (Returns (r, seenKeys1, σ1)) =>
        match Project_pulls n fuel p child_iter proj_desc seenKeys1 σ1 with
        | None => None
        | Some (Panics msg) => Some (Panics msg)
        | Some Blocks => Some Blocks
        | Some (Returns (rs, seenKeys2, σ2)) => Some (Returns (r :: rs, seenKeys2, σ2))
        end
    end.
Proof. done. Qed.

(** The tuple the closure builds from the values of the expressions. *)
Lemma Project_next_plain (p : Project Σ) (child_iter : Iter Σ) proj_desc σ t vs σ1 fuel :
  distinct p = false ->
  child_iter σ = Returns ((Some t, None), σ1) ->
  Project_eval (selectFields p) t = Ok vs ->
  Project_next (S fuel) p (Some child_iter) proj_desc None σ
  = Some (Returns ((Some {| Desc := proj_desc; Fields := vs; Rid := RidNil |}, None), None, σ1)).
Proof.
  intros Hd Hnext Hvs. cbn [Project_next]. by rewrite Hnext, Hvs, Hd.
Qed.

Lemma Project_pulls_plain (p : Project Σ) (child_iter : Iter Σ) proj_desc e σ1 σ' fuel ts :
  distinct p = false ->
  child_iter σ1 = Returns ((None, e), σ') ->
  forall vss σ,
    yields child_iter σ ts σ1 ->
    Forall2 (fun t vs => Project_eval (selectFields p) t = Ok vs) ts vss ->
    Project_pulls (S (length ts)) (S fuel) p (Some child_iter) proj_desc None σ
    = Some (Returns
              (map (fun vs => (Some {| Desc := proj_desc; Fields := vs; Rid := RidNil |}, None))
                   vss ++ [(None, None)],
               None, σ')).
Proof.
  intros Hd Hend. induction ts as [|t ts IH]; intros vss σ Hy Hall.
  - inversion Hy; subst. inversion Hall; subst.
    cbn [length Project_pulls Project_next]. by rewrite Hend.
  - inversion Hy as [|? ? σm ? ? Hnext Hrest]; subst.
    inversion Hall as [|? vs ? vss' Hvs Hall']; subst.
    cbn [length]. rewrite Project_pulls_S.
    rewrite (Project_next_plain p child_iter proj_desc σ t vs σm) by done.
    by rewrite (IH vss' σm).
Qed.

(** With [distinct], a call skips the tuples whose key has been seen:
    it returns nil when the child runs out, or the first tuple with a new
    key. *)
Lemma Project_next_distinct (p : Project Σ) (child_iter : Iter Σ) proj_desc e σ1 σ' :
  let mk vs := {| Desc := proj_desc; Fields := vs; Rid := RidNil |} in
  distinct p = true ->
  child_iter σ1 = Returns ((None, e), σ') ->
  forall ts vss seen σ fuel,
    yields child_iter σ ts σ1 ->
    Forall2 (fun t vs => Project_eval (selectFields p) t = Ok vs) ts vss ->
    (length ts < fuel)%nat ->
    (Forall (fun vs => Tuple_tupleKey (mk vs) ∈ seen) vss /\
     Project_next fuel p (Some child_iter) proj_desc (Some seen) σ
     = Some (Returns ((None, None), Some seen, σ')))
    \/
    (exists vss1 vs vss2 ts2 σm,
       vss = vss1 ++ vs :: vss2 /\
       Forall (fun vs => Tuple_tupleKey (mk vs) ∈ seen) vss1 /\
       (Tuple_tupleKey (mk vs) ∉ seen) /\
       Project_next fuel p (Some child_iter) proj_desc (Some seen) σ
       = Some (Returns ((Some (mk vs), None),
                        Some ({[Tuple_tupleKey (mk vs)]} ∪ seen), σm)) /\
       yields child_iter σm ts2 σ1 /\
       Forall2 (fun t vs => Project_eval (selectFields p) t = Ok vs) ts2 vss2).
Proof.
  intros mk Hd Hend. induction ts as [|t ts IH]; intros vss seen σ fuel Hy Hall Hfuel.
  - inversion Hy; subst. inversion Hall; subst. left. split; [constructor|].
    destruct fuel as [|fuel]; [lia|]. cbn [Project_next]. by rewrite Hend.
  - inversion Hy as [|? ? σm ? ? Hnext Hrest]; subst.
    inversion Hall as [|? vs ? vss' Hvs Hall']; subst.
    destruct fuel as [|fuel]; [cbn in Hfuel; lia|]. cbn [length] in Hfuel.
    cbn [Project_next]. rewrite Hnext, Hvs, Hd. cbn [default from_option id].
    fold (mk vs).
    destruct (decide (Tuple_tupleKey (mk vs) ∈ seen)) as [Hin|Hnin].
    + rewrite bool_decide_eq_true_2 by done.
      destruct (IH vss' seen σm fuel Hrest Hall') as [[Hseen Hres]|Hfound]; [lia| |].
      * left. split; [by constructor|done].
      * destruct Hfound as (vss1 & vs' & vss2 & ts2 & σm' & -> & Hseen & Hnew & -> & Hy2 & Hall2).
        right. exists (vs :: vss1), vs', vss2, ts2, σm'.
        split; [done|]. split; [by constructor|]. done.
    + rewrite bool_decide_eq_false_2 by done.
      right. exists [], vs, vss', ts, σm. split; [done|]. split; [constructor|]. done.
Qed.

Lemma Project_pulls_distinct (p : Project Σ) (child_iter : Iter Σ) proj_desc e σ1 σ' :
  let mk vs := {| Desc := proj_desc; Fields := vs; Rid := RidNil |} in
  distinct p = true ->
  child_iter σ1 = Returns ((None, e), σ') ->
  forall n ts vss seen σ fuel,
    (length ts <= n)%nat ->
    yields child_iter σ ts σ1 ->
    Forall2 (fun t vs => Project_eval (selectFields p) t = Ok vs) ts vss ->
    (length ts < fuel)%nat ->
    exists out seen',
      Project_pulls (S (length out)) fuel p (Some child_iter) proj_desc (Some seen) σ
      = Some (Returns (map (fun vs => (Some (mk vs), None)) out ++ [(None, None)],
                       Some seen', σ')) /\
      sublist out vss /\
      NoDup (map (fun vs => Tuple_tupleKey (mk vs)) out) /\
      (forall vs, vs ∈ out -> Tuple_tupleKey (mk vs) ∉ seen) /\
      (forall vs, vs ∈ vss ->
         Tuple_tupleKey (mk vs) ∈ seen \/
         Tuple_tupleKey (mk vs) ∈ map (fun vs => Tuple_tupleKey (mk vs)) out).
Proof.
  intros mk Hd Hend. subst mk. cbn beta.
  induction n as [|n IH]; intros ts vss seen σ fuel Hn Hy Hall Hfuel.
  - destruct ts; [|cbn in Hn; lia]. inversion Hy; subst. inversion Hall; subst.
    exists [], seen. destruct fuel as [|fuel]; [lia|].
    cbn [length Project_pulls Project_next map app]. rewrite Hend.
    split; [done|]. split; [constructor|]. split; [constructor|].
    split; [by intros ? ?%elem_of_nil|by intros ? ?%elem_of_nil].
  - destruct (Project_next_distinct p child_iter proj_desc e σ1 σ' Hd Hend
                ts vss seen σ fuel Hy Hall Hfuel)
      as [[Hseen Hres]|(vss1 & vs & vss2 & ts2 & σm & -> & Hseen & Hnew & Hres & Hy2 & Hall2)].
    + exists [], seen. cbn [length Project_pulls map app]. rewrite Hres.
      split; [done|]. split; [apply sublist_nil_l|]. split; [constructor|].
      split; [by intros ? ?%elem_of_nil|].
      intros vs Hvs. left. by apply (proj1 (Forall_forall _ _) Hseen).
    + pose proof (Forall2_length _ _ _ Hall) as Hlen.
      pose proof (Forall2_length _ _ _ Hall2) as Hlen2.
      rewrite length_app in Hlen. cbn [length] in Hlen.
      cbn beta zeta in *.
      destruct (IH ts2 vss2 ({[Tuple_tupleKey {| Desc := proj_desc; Fields := vs;
                                                 Rid := RidNil |}]} ∪ seen) σm fuel)
        as (out & seen' & Hpulls & Hsub & Hnd & Hfresh & Hcover); [lia|done|done|lia|].
      exists (vs :: out), seen'.
      cbn [length]. rewrite Project_pulls_S, Hres, Hpulls.
      split; [done|]. split; [|split; [|split]].
      * apply sublist_inserts_l. by apply sublist_skip.
      * cbn [map]. apply NoDup_cons. split; [|done].
        intros (vs' & Heq & Hin)%list_elem_of_fmap.
        apply (Hfresh vs' Hin). rewrite <- Heq. set_solver.
      * intros vs' [->|Hin]%elem_of_cons; [done|].
        specialize (Hfresh vs' Hin). set_solver.
      * intros vs' [Hin|[->|Hin]%elem_of_cons]%elem_of_app.
        -- left. by apply (proj1 (Forall_forall _ _) Hseen).
        -- right. cbn [map]. apply elem_of_cons. by left.
        -- destruct (Hcover vs' Hin) as [[->%elem_of_singleton|?]%elem_of_union|?].
           ++ right. cbn [map]. apply elem_of_cons. by left.
           ++ by left.
           ++ right. cbn [map]. apply elem_of_cons. by right.
Qed.

(** X29 (NewProjectOp, Project.Descriptor, Project.Iterator): for a
    projection made by [NewProjectOp] over a child that yields tuples
    on which the expressions evaluate, the descriptor carries the output
    names with the types of the expressions, and the calls of the iterator
    return one tuple of the values of the expressions per tuple of the
    child, in order, then nil (whatever error the child ends with).  With
    [distinct], the tuples returned are a subsequence of these, no two
    with the same key, and every projected tuple has the key of a tuple
    returned. *)
Theorem Project_Iterator_yields (exprs : list Expr) (names : list string) (dist : bool)
    (child : Operator Σ) (p : Project Σ) (tid : TransactionID) (child_iter : Iter Σ)
    (ts : list Tuple) (vss : list (list DBValue)) (e : option error) (σ0 σ σ1 σ' : Σ) :
  NewProjectOp exprs names dist child = Ok p ->
  Iterator (prj_child p) tid σ0 = Returns (Ok child_iter, σ) ->
  yields child_iter σ ts σ1 ->
  child_iter σ1 = Returns ((None, e), σ') ->
  Forall2 (fun t vs => Project_eval (selectFields p) t = Ok vs) ts vss ->
  exists proj_desc,
    Project_Descriptor p = Returns proj_desc /\
    map Fname (FieldTypes proj_desc) = outputNames p /\
    map Ftype (FieldTypes proj_desc) = map (fun e => Ftype (GetExprType e)) (selectFields p) /\
    Project_Iterator p tid σ0
    = Returns ((Some child_iter, proj_desc, if distinct p then Some ∅ else None), σ) /\
    let mk vs := {| Desc := proj_desc; Fields := vs; Rid := RidNil |} in
    (distinct p = false ->
     Project_pulls (S (length ts)) 1 p (Some child_iter) proj_desc None σ
     = Some (Returns (map (fun vs => (Some (mk vs), None)) vss ++ [(None, None)],
                      None, σ'))) /\
    (distinct p = true ->
     exists out seen,
       Project_pulls (S (length out)) (S (length ts)) p (Some child_iter) proj_desc
         (Some ∅) σ
       = Some (Returns (map (fun vs => (Some (mk vs), None)) out ++ [(None, None)],
                        Some seen, σ')) /\
       sublist out vss /\
       NoDup (map (fun vs => Tuple_tupleKey (mk vs)) out) /\
       (forall vs, vs ∈ vss ->
          Tuple_tupleKey (mk vs) ∈ map (fun vs => Tuple_tupleKey (mk vs)) out)).
Proof.
  intros Hnew Hiter Hy Hend Hall.
  assert (length (selectFields p) = length (outputNames p)) as Hlen.
  { unfold NewProjectOp in Hnew.
    destruct (Nat.eqb_spec (length exprs) (length names)) as [Heq|?]; [|done].
    cbn [negb] in Hnew. by injection Hnew as <-. }
  destruct (Project_Descriptor_loop_Returns (selectFields p) (outputNames p) 0)
    as (fields & Hloop & Hn & Ht & _); [lia|].
  exists {| FieldTypes := fields |}.
  assert (Project_Descriptor p = Returns {| FieldTypes := fields |}) as Hdesc
    by (unfold Project_Descriptor; by rewrite Hloop).
  split; [done|]. cbn [FieldTypes].
  split; [by rewrite Hn, drop_0, Hlen, firstn_all|]. split; [done|].
  split; [unfold Project_Iterator; by rewrite Hiter, Hdesc|].
  cbn zeta. split.
  - intros Hd. by apply (Project_pulls_plain p child_iter _ e σ1 σ' 0 ts).
  - intros Hd.
    destruct (Project_pulls_distinct p child_iter {| FieldTypes := fields |} e σ1 σ' Hd Hend
                (length ts) ts vss ∅ σ (S (length ts)))
      as (out & seen' & Hpulls & Hsub & Hnd & _ & Hcover); [lia|done|done|lia|].
    exists out, seen'. split; [done|]. split; [done|]. split; [done|].
    intros vs Hvs. destruct (Hcover vs Hvs) as [?|?]; [set_solver|done].
Qed.

End ProjectOperator.

Lemma Project_Iterator_yields_witness :
  let p := {| selectFields := [ex_name_expr]; outputNames := ["n"];
              prj_child := ex_list_child; distinct := true |} in
  let σ : list Tuple * list Tuple := ([ex_t1; ex_t1], []) in
  let σ' : list Tuple * list Tuple := ([], []) in
  let ts := [ex_t1; ex_t1] in
  let vss := [[StringField "josie"]; [StringField "josie"]] in
  exists proj_desc,
    Project_Descriptor p = Returns proj_desc /\
    map Fname (FieldTypes proj_desc) = outputNames p /\
    map Ftype (FieldTypes proj_desc) = map (fun e => Ftype (GetExprType e)) (selectFields p) /\
    Project_Iterator p 1 σ
    = Returns ((Some ex_list_iter, proj_desc, if distinct p then Some ∅ else None), σ) /\
    let mk vs := {| Desc := proj_desc; Fields := vs; Rid := RidNil |} in
    (distinct p = false ->
     Project_pulls (S (length ts)) 1 p (Some ex_list_iter) proj_desc None σ
     = Some (Returns (map (fun vs => (Some (mk vs), None)) vss ++ [(None, None)],
                      None, σ'))) /\
    (distinct p = true ->
     exists out seen,
       Project_pulls (S (length out)) (S (length ts)) p (Some ex_list_iter) proj_desc
         (Some ∅) σ
       = Some (Returns (map (fun vs => (Some (mk vs), None)) out ++ [(None, None)],
                        Some seen, σ')) /\
       sublist out vss /\
       NoDup (map (fun vs => Tuple_tupleKey (mk vs)) out) /\
       (forall vs, vs ∈ vss ->
          Tuple_tupleKey (mk vs) ∈ map (fun vs => Tuple_tupleKey (mk vs)) out)).
Proof.
  intros p σ σ' ts vss.
  apply (Project_Iterator_yields [ex_name_expr] ["n"] true ex_list_child
           p 1 ex_list_iter ts vss None σ σ σ' σ').
  - reflexivity.
  - reflexivity.
  - econstructor; [reflexivity|]. econstructor; [reflexivity|]. constructor.
  - reflexivity.
  - repeat constructor.
Defined.
